(** * ufo2ft filters: component flattening and anchor propagation

    A shallow embedding of [Lib/ufo2ft/filters/flattenComponents.py] and
    [Lib/ufo2ft/filters/propagateAnchors.py].

    The glyph set is a dictionary from glyph names to glyph objects that
    both filters mutate in place; it is modelled as a finite map that is
    threaded through the calls, a glyph object being designated by the key
    under which the dictionary holds it.  Recursion that Python leaves
    unbounded takes a depth bound [fuel]; running out of it is reported by
    its own outcome, distinct from a Python exception. *)

From stdpp Require Import gmap strings list fin_maps sorting pretty.
From Stdlib Require Import ZArith Lia.

Open Scope Z_scope.

(** ** Outcomes of a call *)

Inductive error :=
  | KeyError (key : string)   (* [glyphSet[name]] on an absent name *)
  | IndexError.               (* [lst[0]] on an empty list *)

Inductive result (A : Type) :=
  | Ok (a : A)
  | Raise (e : error)
  | OutOfFuel.

Arguments Ok {A} a.
Arguments Raise {A} e.
Arguments OutOfFuel {A}.

#[global] Instance result_ret : MRet result := λ A a, Ok a.
#[global] Instance result_bind : MBind result := λ A B f m,
  match m with
  | Ok a => f a
  | Raise e => Raise e
  | OutOfFuel => OutOfFuel
  end.

#[global] Instance error_eq_dec : EqDecision error.
Proof. solve_decision. Defined.

(** A [for] loop whose body may raise: the state is threaded from left to
    right and the first failure ends the loop. *)
Fixpoint foldM {A B : Type} (f : B → A → result B) (b : B) (l : list A) : result B :=
  match l with
  | [] => Ok b
  | a :: l' => b' ← f b a; foldM f b' l'
  end.

(** ** fontTools.misc.transform.Transform *)

(** Modelled from the spec: [Transform] is imported from fontTools and is
    not part of the repository.  The spec gives it as an affine map of six
    coefficients with [a.transform(b)] applying [b]'s frame inside [a] and
    [transformPoint] mapping one coordinate pair; the formulas are those
    of fontTools, over integer coefficients. *)
Record Transform := mkTransform
  { xx : Z; xy : Z; yx : Z; yy : Z; dx : Z; dy : Z }.

#[global] Instance Transform_eq_dec : EqDecision Transform.
Proof. solve_decision. Defined.

Definition Identity : Transform := mkTransform 1 0 0 1 0 0.

Definition transformPoint (self : Transform) (p : Z * Z) : Z * Z :=
  let '(x, y) := p in
  (xx self * x + yx self * y + dx self, xy self * x + yy self * y + dy self).

Definition transform (self other : Transform) : Transform :=
  mkTransform
    (xx other * xx self + xy other * yx self)
    (xx other * xy self + xy other * yy self)
    (yx other * xx self + yy other * yx self)
    (yx other * xy self + yy other * yy self)
    (xx self * dx other + yx self * dy other + dx self)
    (xy self * dx other + yy self * dy other + dy self).

(** ** Data model *)

Record Anchor := mkAnchor { a_name : string; a_x : Z; a_y : Z }.

Record Component := mkComponent
  { baseGlyph : string; transformation : Transform }.

Record Glyph := mkGlyph
  { name : string; components : list Component; anchors : list Anchor }.

#[global] Instance Anchor_eq_dec : EqDecision Anchor.
Proof. solve_decision. Defined.
#[global] Instance Component_eq_dec : EqDecision Component.
Proof. solve_decision. Defined.
#[global] Instance Glyph_eq_dec : EqDecision Glyph.
Proof. solve_decision. Defined.

(** [str.startswith] *)
Definition startswith (s p : string) : bool := String.prefix p s.

(** ** flattenComponents.py *)

(** [glyph.removeComponent(comp)]: the first occurrence goes. *)
Fixpoint list_remove_first (comp : Component) (l : list Component) : list Component :=
  match l with
  | [] => []
  | c :: l' => if decide (c = comp) then l' else c :: list_remove_first comp l'
  end.

Definition removeComponent (comp : Component) (glyph : Glyph) : Glyph :=
  mkGlyph (name glyph) (list_remove_first comp (components glyph)) (anchors glyph).

(** [pen.addComponent(baseGlyph, transformation)] appends a component. *)
Definition addComponent (glyph : Glyph) (t : string * Transform) : Glyph :=
  mkGlyph (name glyph) (components glyph ++ [mkComponent t.1 t.2]) (anchors glyph).

(** [tr = tr.transform(component.transformation)] on one flattened tuple. *)
Definition retransform (outer : Transform) (t : string * Transform) : string * Transform :=
  (t.1, transform t.2 outer).

(** The flattened tuples as the components [pen.addComponent] creates. *)
Definition as_components (l : list (string * Transform)) : list Component :=
  map (λ t, mkComponent t.1 t.2) l.

(** The loop over [glyph.components] of a composite base glyph, given the
    recursive call: each nested result is re-transformed by the outer
    component and the results are concatenated. *)
Fixpoint flatten_nested (rec : Component → result (list (string * Transform)))
    (outer : Transform) (nested : list Component)
  : result (list (string * Transform)) :=
  match nested with
  | [] => Ok []
  | n :: rest =>
      flattened_components ← rec n;
      all_flattened_components ← flatten_nested rec outer rest;
      Ok (map (retransform outer) flattened_components ++ all_flattened_components)
  end.

Fixpoint _flattenComponent (fuel : nat) (glyphSet : gmap string Glyph)
    (component : Component) : result (list (string * Transform)) :=
  match glyphSet !! baseGlyph component with
  | None => Raise (KeyError (baseGlyph component))
  | Some glyph =>
      match components glyph with
      | [] => Ok [(baseGlyph component, transformation component)]
      | _ :: _ =>
          match fuel with
          | O => OutOfFuel
          | S fuel' =>
              flatten_nested (_flattenComponent fuel' glyphSet)
                (transformation component) (components glyph)
          end
      end
  end.

Module FlattenComponentsFilter.

(** [self.context]: the glyph set and the set of modified glyph names. *)
Record context := mkContext
  { glyphSet : gmap string Glyph; modified : gset string }.

(** The body of [for comp in list(glyph.components)], over the snapshot
    of the component list taken at loop entry; [key] designates the
    glyph object being filtered. *)
Fixpoint filter_loop (fuel : nat) (key : string) (snapshot : list Component)
    (glyphSet : gmap string Glyph) (flattened : bool)
  : result (gmap string Glyph * bool) :=
  match snapshot with
  | [] => Ok (glyphSet, flattened)
  | comp :: rest =>
      flattened_tuples ← _flattenComponent fuel glyphSet comp;
      first ← match flattened_tuples with
              | [] => Raise IndexError
              | t :: _ => Ok t
              end;
      let flattened :=
        if decide (first ≠ (baseGlyph comp, transformation comp))
        then true else flattened in
      let glyphSet :=
        alter (λ glyph, foldl addComponent (removeComponent comp glyph) flattened_tuples)
              key glyphSet in
      filter_loop fuel key rest glyphSet flattened
  end.

Definition filter (fuel : nat) (ctx : context) (key : string)
  : result (context * bool) :=
  match glyphSet ctx !! key with
  | None => Raise (KeyError key)
  | Some glyph =>
      match components glyph with
      | [] => Ok (ctx, false)
      | _ :: _ =>
          r ← filter_loop fuel key (components glyph) (glyphSet ctx) false;
          let flattened : bool := r.2 in
          let modified' :=
            if flattened then modified ctx ∪ {[name glyph]} else modified ctx in
          Ok (mkContext r.1 modified', flattened)
      end
  end.

End FlattenComponentsFilter.

(** ** propagateAnchors.py *)

(** The inner [for anchor in ...: if anchor.name == anchor_name: ...; break]. *)
Definition first_anchor_named (anchor_name : string) (l : list Anchor) : option Anchor :=
  List.find (λ anchor, bool_decide (a_name anchor = anchor_name)) l.

(** The first loop of [_get_anchor_data]: the list [anchors] of pairs
    (anchor, component), in component order. *)
Fixpoint collect_anchors (glyphSet : gmap string Glyph) (components : list Component)
    (anchor_name : string) : result (list (Anchor * Component)) :=
  match components with
  | [] => Ok []
  | component :: rest =>
      match glyphSet !! baseGlyph component with
      | None => Raise (KeyError (baseGlyph component))
      | Some glyph =>
          anchors' ← collect_anchors glyphSet rest anchor_name;
          Ok (match first_anchor_named anchor_name (anchors glyph) with
              | Some anchor => (anchor, component) :: anchors'
              | None => anchors'
              end)
      end
  end.

(** ['%s_%d' % (anchor.name, i + 1)] *)
Definition ligature_name (anchor_name : string) (i : nat) : string :=
  anchor_name +:+ "_" +:+ pretty (i + 1)%nat.

(** [for i, (anchor, component) in enumerate(anchors)], from index [i]. *)
Fixpoint ligature_data (i : nat) (anchors : list (Anchor * Component))
    (anchor_data : gmap string (Z * Z)) : gmap string (Z * Z) :=
  match anchors with
  | [] => anchor_data
  | (anchor, component) :: rest =>
      let t := transformation component in
      ligature_data (S i) rest
        (<[ligature_name (a_name anchor) i := transformPoint t (a_x anchor, a_y anchor)]>
           anchor_data)
  end.

Definition _get_anchor_data (anchor_data : gmap string (Z * Z))
    (glyphSet : gmap string Glyph) (components : list Component)
    (anchor_name : string) : result (gmap string (Z * Z)) :=
  anchors ← collect_anchors glyphSet components anchor_name;
  if decide (1 < length anchors)%nat then
    Ok (ligature_data 0 anchors anchor_data)
  else
    match anchors with
    | (anchor, component) :: _ =>
        let t := transformation component in
        Ok (<[a_name anchor := transformPoint t (a_x anchor, a_y anchor)]> anchor_data)
    | [] => Ok anchor_data
    end.

Definition _adjust_anchors (anchor_data : gmap string (Z * Z))
    (glyphSet : gmap string Glyph) (component : Component)
  : result (gmap string (Z * Z)) :=
  match glyphSet !! baseGlyph component with
  | None => Raise (KeyError (baseGlyph component))
  | Some glyph =>
      let t := transformation component in
      Ok (foldl (λ anchor_data anchor,
                   if bool_decide (is_Some (anchor_data !! a_name anchor))
                      && existsb (λ a, bool_decide (a_name a = "_" +:+ a_name anchor))
                                 (anchors glyph)
                   then <[a_name anchor := transformPoint t (a_x anchor, a_y anchor)]>
                          anchor_data
                   else anchor_data)
                anchor_data (anchors glyph))
  end.

(** [composite.appendAnchor({'name': name, 'x': x, 'y': y})] *)
Definition appendAnchor (glyph : Glyph) (item : string * (Z * Z)) : Glyph :=
  mkGlyph (name glyph) (components glyph)
          (anchors glyph ++ [mkAnchor item.1 item.2.1 item.2.2]).

(** The order of [sorted(to_add.items())]: the keys of a dictionary are
    distinct, so the items are ordered by their names. *)
Definition item_le (a b : string * (Z * Z)) : Prop := String.leb a.1 b.1 = true.

#[global] Instance item_le_dec : RelDecision item_le.
Proof. intros a b. unfold item_le. apply _. Defined.

Definition sorted_items (to_add : gmap string (Z * Z)) : list (string * (Z * Z)) :=
  merge_sort item_le (map_to_list to_add).

(** What the loop over [composite.components] has built up. *)
Record collected := mkCollected
  { c_glyphSet : gmap string Glyph;
    c_processed : gset string;
    base_components : list Component;
    mark_components : list Component;
    anchor_names : gset string }.

Definition is_mark_glyph (glyph : Glyph) : bool :=
  existsb (λ a, startswith (a_name a) "_") (anchors glyph).

Definition anchor_name_set (glyph : Glyph) : gset string :=
  list_to_set (a_name <$> anchors glyph).

(** Lines 67-71: the component goes with the marks or with the bases,
    and a base contributes its anchor names. *)
Definition classify (st : collected) (glyphSet : gmap string Glyph)
    (processed : gset string) (component : Component) (glyph : Glyph) : collected :=
  if is_mark_glyph glyph then
    mkCollected glyphSet processed (base_components st)
      (mark_components st ++ [component]) (anchor_names st)
  else
    mkCollected glyphSet processed (base_components st ++ [component])
      (mark_components st) (anchor_names st ∪ anchor_name_set glyph).

Section propagate.

(** The order in which [for anchor_name in anchor_names] visits a Python
    [set]: any enumeration of its elements. *)
Variable set_order : gset string → list string.

(** One iteration of [for component in composite.components], given the
    recursive call. *)
Definition component_step
    (rec : gmap string Glyph → string → gset string
           → result (gmap string Glyph * gset string))
    (st : collected) (component : Component) : result collected :=
  match c_glyphSet st !! baseGlyph component with
  | None => Raise (KeyError (baseGlyph component))
  | Some _ =>
      r ← rec (c_glyphSet st) (baseGlyph component) (c_processed st);
      match r.1 !! baseGlyph component with
      | None => Raise (KeyError (baseGlyph component))
      | Some glyph => Ok (classify st r.1 r.2 component glyph)
      end
  end.

(** Lines 73-89: stage the anchors, adjust them for the mark components
    and append them, sorted, to the composite. *)
Definition stage_anchors (glyphSet : gmap string Glyph) (composite : Glyph)
    (st : collected) : result (gmap string (Z * Z)) :=
  to_add ← foldM (λ to_add anchor_name,
                    if existsb (λ a, startswith (a_name a) anchor_name) (anchors composite)
                    then Ok to_add
                    else _get_anchor_data to_add glyphSet (base_components st) anchor_name)
                 ∅ (set_order (anchor_names st));
  foldM (λ to_add component, _adjust_anchors to_add glyphSet component)
        to_add (mark_components st).

Fixpoint _propagate_glyph_anchors (fuel : nat) (glyphSet : gmap string Glyph)
    (key : string) (processed : gset string)
  : result (gmap string Glyph * gset string) :=
  match glyphSet !! key with
  | None => Raise (KeyError key)
  | Some composite =>
      if decide (name composite ∈ processed) then Ok (glyphSet, processed)
      else
        let processed := processed ∪ {[name composite]} in
        match components composite with
        | [] => Ok (glyphSet, processed)
        | _ :: _ =>
            match fuel with
            | O => OutOfFuel
            | S fuel' =>
                st ← foldM (component_step (_propagate_glyph_anchors fuel'))
                           (mkCollected glyphSet processed [] [] ∅)
                           (components composite);
                match c_glyphSet st !! key with
                | None => Raise (KeyError key)
                | Some composite' =>
                    to_add ← stage_anchors (c_glyphSet st) composite' st;
                    Ok (alter (λ glyph, foldl appendAnchor glyph (sorted_items to_add))
                              key (c_glyphSet st),
                        c_processed st)
                end
            end
        end
  end.

End propagate.

Module PropagateAnchorsFilter.

(** [self.context]: the glyph set and the per-run [processed] set. *)
Record context := mkContext
  { glyphSet : gmap string Glyph; processed : gset string }.

Definition filter (set_order : gset string → list string) (fuel : nat)
    (ctx : context) (key : string) : result (context * bool) :=
  match glyphSet ctx !! key with
  | None => Raise (KeyError key)
  | Some glyph =>
      match components glyph with
      | [] => Ok (ctx, false)
      | _ :: _ =>
          r ← _propagate_glyph_anchors set_order fuel (glyphSet ctx) key (processed ctx);
          Ok (mkContext r.1 r.2, true)
      end
  end.

End PropagateAnchorsFilter.

(** * Notions used by the statements *)

Import FlattenComponentsFilter.

Definition is_leaf (gs : gmap string Glyph) (n : string) : Prop :=
  ∃ g, gs !! n = Some g ∧ components g = [].

(** The test of line 27 on one component and its flattening. *)
Definition first_differs (cr : Component * list (string * Transform)) : bool :=
  bool_decide (head cr.2 ≠ Some (baseGlyph cr.1, transformation cr.1)).

(** [refs gs k b]: the glyph held under [k] has a component on [b]. *)
Definition refs (gs : gmap string Glyph) (k b : string) : Prop :=
  ∃ g c, gs !! k = Some g ∧ c ∈ components g ∧ baseGlyph c = b.

(** No glyph reaches itself through one or more component references. *)
Definition acyclic (gs : gmap string Glyph) : Prop := ∀ k, ¬ tc (refs gs) k k.

(** Every component names a glyph of the glyph set. *)
Definition resolvable (gs : gmap string Glyph) : Prop :=
  ∀ k b, refs gs k b → is_Some (gs !! b).

(** Two outcomes that are the same failure. *)
Definition same_failure {A B : Type} (m : result A) (m' : result B) : Prop :=
  match m, m' with
  | Raise e, Raise e' => e = e'
  | OutOfFuel, OutOfFuel => True
  | _, _ => False
  end.

(** The list of flattenings the loop of [filter] works with. *)
Definition flattenings (fuel : nat) (gs : gmap string Glyph) (l : list Component)
  : list (list (string * Transform)) :=
  map (λ c, match _flattenComponent fuel gs c with Ok r => r | _ => [] end) l.

Section calls.

Context (set_order : gset string → list string).

(** [propagates gs key p gs' p']: a call on the glyph held under [key],
    entered with glyph set [gs] and processed set [p], returns with [gs']
    and [p'].  [collects st l st']: the loop over the components [l] takes
    the loop state [st] to [st']. *)
Inductive propagates
  : gmap string Glyph → string → gset string → gmap string Glyph → gset string → Prop :=
  | propagates_processed gs key p composite :
      gs !! key = Some composite → name composite ∈ p →
      propagates gs key p gs p
  | propagates_leaf gs key p composite :
      gs !! key = Some composite → name composite ∉ p →
      components composite = [] →
      propagates gs key p gs (p ∪ {[name composite]})
  | propagates_composite gs key p composite st composite' to_add :
      gs !! key = Some composite → name composite ∉ p →
      components composite ≠ [] →
      collects (mkCollected gs (p ∪ {[name composite]}) [] [] ∅)
               (components composite) st →
      c_glyphSet st !! key = Some composite' →
      stage_anchors set_order (c_glyphSet st) composite' st = Ok to_add →
      propagates gs key p
        (alter (λ glyph, foldl appendAnchor glyph (sorted_items to_add))
               key (c_glyphSet st))
        (c_processed st)
with collects : collected → list Component → collected → Prop :=
  | collects_nil st : collects st [] st
  | collects_cons st component rest gs1 p1 glyph st' :
      is_Some (c_glyphSet st !! baseGlyph component) →
      propagates (c_glyphSet st) (baseGlyph component) (c_processed st) gs1 p1 →
      gs1 !! baseGlyph component = Some glyph →
      collects (classify st gs1 p1 component glyph) rest st' →
      collects st (component :: rest) st'.

Scheme propagates_mut := Minimality for propagates Sort Prop
  with collects_mut := Minimality for collects Sort Prop.
Combined Scheme propagates_collects_ind from propagates_mut, collects_mut.

End calls.

(** [glyph_extends g g']: [g'] is [g] with anchors appended. *)
Definition glyph_extends (g g' : Glyph) : Prop :=
  name g' = name g ∧ components g' = components g
  ∧ anchors g `prefix_of` anchors g'.

(** [extends gs gs']: the same glyphs under the same keys, each with
    anchors appended and nothing else changed. *)
Definition extends (gs gs' : gmap string Glyph) : Prop :=
  ∀ k, option_Forall2 glyph_extends (gs !! k) (gs' !! k).

(** The facts every call and every loop satisfy: anchors are only
    appended, the processed set only grows and holds the name of the glyph
    the call was made on, and a glyph whose name was in the processed set
    at entry is returned as it was. *)
Definition call_frame (gs : gmap string Glyph) (key : string) (p : gset string)
    (gs' : gmap string Glyph) (p' : gset string) : Prop :=
  extends gs gs' ∧ p ⊆ p'
  ∧ (∀ g, gs !! key = Some g → name g ∈ p')
  ∧ (∀ k1 g1, gs !! k1 = Some g1 → name g1 ∈ p → gs' !! k1 = Some g1).

Definition loop_frame (st : collected) (l : list Component) (st' : collected) : Prop :=
  extends (c_glyphSet st) (c_glyphSet st') ∧ c_processed st ⊆ c_processed st'
  ∧ (∀ k1 g1, c_glyphSet st !! k1 = Some g1 → name g1 ∈ c_processed st →
              c_glyphSet st' !! k1 = Some g1).

(** The test of line 67 on the glyph a component names in [gs]. *)
Definition is_mark_at (gs : gmap string Glyph) (c : Component) : bool :=
  match gs !! baseGlyph c with
  | Some g => is_mark_glyph g
  | None => false
  end.

Definition bases_at (gs : gmap string Glyph) (l : list Component) : list Component :=
  List.filter (λ c, negb (is_mark_at gs c)) l.

Definition marks_at (gs : gmap string Glyph) (l : list Component) : list Component :=
  List.filter (is_mark_at gs) l.

(** The anchor names of the glyphs that the components [l] name in [gs]. *)
Definition collected_names (gs : gmap string Glyph) (l : list Component) : gset string :=
  ⋃ (map (λ c, match gs !! baseGlyph c with
               | Some g => anchor_name_set g
               | None => ∅
               end) l).

(** The anchors that [for name, (x, y) in sorted(to_add.items())] appends. *)
Definition staged_anchors (to_add : gmap string (Z * Z)) : list Anchor :=
  map (λ item, mkAnchor item.1 item.2.1 item.2.2) (sorted_items to_add).

(** The loop state with which lines 73-89 run, on the glyph set [gs]
    that the loop returned. *)
Definition final_state (gs : gmap string Glyph) (p : gset string) (l : list Component)
  : collected :=
  mkCollected gs p (bases_at gs l) (marks_at gs l) (collected_names gs (bases_at gs l)).

(** The pairs (anchor, component) that [_get_anchor_data] gathers. *)
Definition contributors (gs : gmap string Glyph) (comps : list Component)
    (anchor_name : string) : list (Anchor * Component) :=
  omap (λ c, g ← gs !! baseGlyph c;
             a ← first_anchor_named anchor_name (anchors g);
             Some (a, c)) comps.

(** What [_get_anchor_data] writes, given the gathered pairs. *)
Definition write_anchor_data (l : list (Anchor * Component))
    (anchor_data : gmap string (Z * Z)) : gmap string (Z * Z) :=
  if decide (1 < length l)%nat then ligature_data 0 l anchor_data
  else match l with
       | (anchor, component) :: _ =>
           <[a_name anchor := transformPoint (transformation component)
                                (a_x anchor, a_y anchor)]> anchor_data
       | [] => anchor_data
       end.

(** [staged_from gs composite bases k]: the name [k] can be staged for
    [composite]: it is an anchor name [n] of a glyph that a component of
    [bases] names, or [n] with a ligature suffix, and no anchor of
    [composite] starts with [n]. *)
Definition staged_from (gs : gmap string Glyph) (composite : Glyph)
    (bases : list Component) (k : string) : Prop :=
  ∃ n c g a,
    existsb (λ e, startswith (a_name e) n) (anchors composite) = false
    ∧ c ∈ bases ∧ gs !! baseGlyph c = Some g ∧ a ∈ anchors g ∧ a_name a = n
    ∧ (k = n ∨ ∃ i, k = ligature_name n i).

(** An appended anchor as it should be: a name, not starting with an
    underscore. *)
Definition good_anchor (a : Anchor) : Prop :=
  a_name a ≠ "" ∧ startswith (a_name a) "_" = false.

Definition no_empty_anchor_name (gs : gmap string Glyph) : Prop :=
  ∀ k g a, gs !! k = Some g → a ∈ anchors g → a_name a ≠ "".

(** [appends_good gs gs']: every glyph of [gs] is in [gs'] with good
    anchors appended and nothing else changed. *)
Definition appends_good (gs gs' : gmap string Glyph) : Prop :=
  ∀ k g, gs !! k = Some g →
    ∃ added, gs' !! k = Some (mkGlyph (name g) (components g) (anchors g ++ added))
             ∧ Forall good_anchor added.

(** The test of line 76. *)
Definition guarded (composite : Glyph) (anchor_name : string) : bool :=
  existsb (λ a, startswith (a_name a) anchor_name) (anchors composite).

(** The first loop of the staging, as the fold it is once every base
    component is known to be found. *)
Definition stage_bases (gs : gmap string Glyph) (composite : Glyph)
    (bases : list Component) (to_add : gmap string (Z * Z)) (names : list string)
  : gmap string (Z * Z) :=
  foldl (λ to_add n,
           if guarded composite n then to_add
           else write_anchor_data (contributors gs bases n) to_add)
        to_add names.

(** The body and the loop of [_adjust_anchors] over the anchors of the
    mark glyph. *)
Definition adjust_step (t : Transform) (all : list Anchor)
    (anchor_data : gmap string (Z * Z)) (anchor : Anchor) : gmap string (Z * Z) :=
  if bool_decide (is_Some (anchor_data !! a_name anchor))
     && existsb (λ a, bool_decide (a_name a = "_" +:+ a_name anchor)) all
  then <[a_name anchor := transformPoint t (a_x anchor, a_y anchor)]> anchor_data
  else anchor_data.

Definition adjust_with (t : Transform) (all : list Anchor)
    (to_add : gmap string (Z * Z)) (l : list Anchor) : gmap string (Z * Z) :=
  foldl (adjust_step t all) to_add l.

(** A candidate name that leaves the key [k] alone. *)
Definition leaves_key (gs : gmap string Glyph) (bases : list Component)
    (n k : string) : Prop :=
  ∀ acc, write_anchor_data (contributors gs bases n) acc !! k = acc !! k.

Definition anchor_at (n : string) (p : Z * Z) : Anchor := mkAnchor n p.1 p.2.

(** Where a component puts an anchor of the glyph it names. *)
Definition placed (c : Component) (a : Anchor) : Z * Z :=
  transformPoint (transformation c) (a_x a, a_y a).

(** The names of the glyphs of a glyph set. *)
Definition glyph_names (gs : gmap string Glyph) : gset string :=
  map_img (name <$> gs).

(** What holds of the loop state all along the loop of a call entered
    with glyph set [gs] and, after line 55, processed set [p0]. *)
Definition loop_invariant (gs : gmap string Glyph) (p0 : gset string)
    (st : collected) : Prop :=
  extends gs (c_glyphSet st) ∧ p0 ⊆ c_processed st.

(** Every glyph is held under its own name, as in a glyph set built from
    a font. *)
Definition store_wf (gs : gmap string Glyph) : Prop :=
  ∀ k g, gs !! k = Some g → name g = k.


(** [closed_since gs p p']: every glyph processed since [p] has all its
    components in the glyph set, and processed. *)
Definition closed_since (gs : gmap string Glyph) (p p' : gset string) : Prop :=
  ∀ k g, gs !! k = Some g → name g ∈ p' → name g ∉ p →
    ∀ c, c ∈ components g → ∃ g2, gs !! baseGlyph c = Some g2 ∧ name g2 ∈ p'.

Definition check_components (gs : gmap string Glyph)
    (P : string → Component → bool) : bool :=
  forallb (λ kg, forallb (P kg.1) (components kg.2)) (map_to_list gs).

Definition check_rank (rank : string → nat) (gs : gmap string Glyph) : bool :=
  check_components gs (λ k c, rank (baseGlyph c) <? rank k)%nat.

Definition check_resolvable (gs : gmap string Glyph) : bool :=
  check_components gs (λ _ c, bool_decide (is_Some (gs !! baseGlyph c))).

Definition check_store_wf (gs : gmap string Glyph) : bool :=
  forallb (λ kg, bool_decide (name kg.2 = kg.1)) (map_to_list gs).

Definition check_anchor_names (gs : gmap string Glyph) : bool :=
  forallb (λ kg, forallb (λ a, bool_decide (a_name a ≠ "")) (anchors kg.2))
          (map_to_list gs).

(** No anchor of the glyphs that the components [l] name in [gs] has one
    of the [names]. *)
Definition check_free (gs : gmap string Glyph) (names : list string)
    (l : list Component) : bool :=
  forallb (λ c, match gs !! baseGlyph c with
                | Some X => forallb (λ a, bool_decide (a_name a ∉ names)) (anchors X)
                | None => true
                end) l.

(** [flat_path gs c n T]: from the component [c], going down through
    nested components, the leaf glyph [n] is reached, and [T] is what
    line 49 makes of the transformations met on the way. *)
Inductive flat_path (gs : gmap string Glyph) : Component → string → Transform → Prop :=
  | flat_path_leaf c g :
      gs !! baseGlyph c = Some g → components g = [] →
      flat_path gs c (baseGlyph c) (transformation c)
  | flat_path_nested c g nested n T :
      gs !! baseGlyph c = Some g → nested ∈ components g →
      flat_path gs nested n T →
      flat_path gs c n (transform T (transformation c)).

(** [refs_unprocessed gs p a b]: the glyph held under [a], whose name is
    not in [p], has a component on [b]. *)
Definition refs_unprocessed (gs : gmap string Glyph) (p : gset string)
    (a b : string) : Prop :=
  refs gs a b ∧ a ∉ p.

(** The order of the names of two anchors. *)
Definition anchor_le (a b : Anchor) : Prop := String.le (a_name a) (a_name b).

(** * Sample fonts *)

Definition leaf (n : string) (a : list Anchor) : Glyph := mkGlyph n [] a.

Definition font (l : list Glyph) : gmap string Glyph :=
  list_to_map ((λ g, (name g, g)) <$> l).

Definition translate10 : Transform := mkTransform 1 0 0 1 10 0.
Definition scale2 : Transform := mkTransform 2 0 0 2 0 0.

(** A → B (moved by 10) → C (scaled by 2), C a leaf. *)
Definition chain_font : gmap string Glyph :=
  font [mkGlyph "A" [mkComponent "B" translate10] [];
        mkGlyph "B" [mkComponent "C" scale2] [];
        leaf "C" []].

Definition chain_ctx : context := mkContext chain_font ∅.

Definition moved (x y : Z) : Transform := mkTransform 1 0 0 1 x y.

(** A base glyph X with [top], a mark glyph M with [_top] and [top2], and
    a composite Y of both. *)
Definition mark_font_top2 : gmap string Glyph :=
  font [leaf "X" [mkAnchor "top" 100 500];
        leaf "M" [mkAnchor "_top" 0 400; mkAnchor "top2" 0 600];
        mkGlyph "Y" [mkComponent "X" Identity; mkComponent "M" (moved 100 100)] []].

(** The same, the mark glyph with [_top] and [top]. *)
Definition mark_font : gmap string Glyph :=
  font [leaf "X" [mkAnchor "top" 100 500];
        leaf "M" [mkAnchor "_top" 0 400; mkAnchor "top" 0 600];
        mkGlyph "Y" [mkComponent "X" Identity; mkComponent "M" (moved 100 100)] []].

(** A ligature of two base glyphs that both have [top]. *)
Definition ligature_font : gmap string Glyph :=
  font [leaf "f" [mkAnchor "top" 100 500];
        leaf "i" [mkAnchor "top" 50 500];
        mkGlyph "f_i" [mkComponent "f" Identity; mkComponent "i" (moved 200 0)] []].

(** The same ligature with a mark glyph that has [_top_1] and [top_1]. *)
Definition ligature_mark_font : gmap string Glyph :=
  font [leaf "f" [mkAnchor "top" 100 500];
        leaf "i" [mkAnchor "top" 50 500];
        leaf "m" [mkAnchor "_top_1" 0 0; mkAnchor "top_1" 7 7];
        mkGlyph "f_i" [mkComponent "f" Identity; mkComponent "i" (moved 200 0);
                       mkComponent "m" Identity] []].

(** A ligature of two base glyphs, the first of which has [top_1] too. *)
Definition ligature_own_top_1_font : gmap string Glyph :=
  font [leaf "f" [mkAnchor "top" 100 500; mkAnchor "top_1" 9 9];
        leaf "i" [mkAnchor "top" 50 500];
        mkGlyph "f_i" [mkComponent "f" Identity; mkComponent "i" (moved 200 0)] []].

(** One order in which a set of names may be visited: ascending. *)
Definition ascending (s : gset string) : list string :=
  merge_sort String.le (elements s).

(** Two components on a base glyph whose anchor has the empty name. *)
Definition empty_name_font : gmap string Glyph :=
  font [leaf "X" [mkAnchor "" 5 5];
        mkGlyph "Z" [mkComponent "X" Identity; mkComponent "X" (moved 10 0)] []].


(** A glyph with a component on a name that is not in the font. *)
Definition dangling_font : gmap string Glyph :=
  font [mkGlyph "A" [mkComponent "missing" Identity] []].


Definition chain_rank (k : string) : nat :=
  if decide (k = "A") then 2 else if decide (k = "B") then 1 else 0.

Definition pctx (gs : gmap string Glyph) (p : gset string)
  : PropagateAnchorsFilter.context :=
  PropagateAnchorsFilter.mkContext gs p.

Definition chain_A : Glyph := mkGlyph "A" [mkComponent "B" translate10] [].

Definition mark_Y : Glyph :=
  mkGlyph "Y" [mkComponent "X" Identity; mkComponent "M" (moved 100 100)] [].


Definition ligature_f_i : Glyph :=
  mkGlyph "f_i" [mkComponent "f" Identity; mkComponent "i" (moved 200 0)] [].


(** Two glyphs that have each other as a component. *)
Definition cyclic_font : gmap string Glyph :=
  font [mkGlyph "A" [mkComponent "B" Identity] [];
        mkGlyph "B" [mkComponent "A" (moved 5 0)] [mkAnchor "top" 1 2]].

Definition ligature_components : list Component :=
  [mkComponent "f" Identity; mkComponent "i" (moved 200 0)].

(** * The flattener *)

Lemma bind_Ok {A B} (m : result A) (f : A → result B) b :
  m ≫= f = Ok b ↔ ∃ a, m = Ok a ∧ f a = Ok b.
Proof.
  destruct m as [a| |]; simpl; split; try (intros [? [? ?]]); try done.
  - intros Hf. by exists a.
  - by simplify_eq.
Qed.

Lemma transformPoint_transform a b p :
  transformPoint (transform a b) p = transformPoint a (transformPoint b p).
Proof. destruct a, b, p. unfold transformPoint, transform. simpl. f_equal; lia. Qed.

Lemma flatten_nested_Ok rec outer l r :
  flatten_nested rec outer l = Ok r ↔
  ∃ rs, Forall2 (λ n rn, rec n = Ok rn) l rs
        ∧ r = concat (map (map (retransform outer)) rs).
Proof.
  revert r. induction l as [|n l IH]; intros r; simpl.
  - split.
    + intros [= <-]. exists []. split; [constructor | done].
    + intros (rs & Hrs & ->). by inversion Hrs.
  - rewrite bind_Ok. split.
    + intros (rn & Hn & Hrest). apply bind_Ok in Hrest as (all & Hall & [= <-]).
      apply IH in Hall as (rs & Hrs & ->). exists (rn :: rs). split; [by constructor | done].
    + intros (rs & Hrs & ->). inversion Hrs as [|? rn ? rs' Hn Hrs']; subst.
      exists rn. split; [done|]. apply bind_Ok. eexists. split; [|done].
      apply IH. by exists rs'.
Qed.

Lemma _flattenComponent_unfold fuel glyphSet component :
  _flattenComponent fuel glyphSet component =
  match glyphSet !! baseGlyph component with
  | None => Raise (KeyError (baseGlyph component))
  | Some glyph =>
      match components glyph with
      | [] => Ok [(baseGlyph component, transformation component)]
      | _ :: _ =>
          match fuel with
          | O => OutOfFuel
          | S fuel' =>
              flatten_nested (_flattenComponent fuel' glyphSet)
                (transformation component) (components glyph)
          end
      end
  end.
Proof. by destruct fuel. Qed.

(** More fuel never changes a result that was reached. *)
Lemma _flattenComponent_mono f f' gs c r :
  (f ≤ f')%nat → _flattenComponent f gs c = Ok r → _flattenComponent f' gs c = Ok r.
Proof.
  revert f' c r. induction f as [|f IH]; intros f' c r Hle;
    rewrite !_flattenComponent_unfold;
    destruct (gs !! baseGlyph c) as [g|]; try done;
    destruct (components g) as [|n l] eqn:Hc; try done.
  destruct f' as [|f']; [lia|].
  rewrite !flatten_nested_Ok. intros (rs & Hrs & ->). exists rs. split; [|done].
  eapply Forall2_impl; [exact Hrs|]. intros ? ? ?. eapply IH; [lia|done].
Qed.

(** A flattening that returns is never empty and names leaf glyphs only. *)
Lemma _flattenComponent_leaves f gs c r :
  _flattenComponent f gs c = Ok r → r ≠ [] ∧ Forall (λ t, is_leaf gs t.1) r.
Proof.
  revert c r. induction f as [|f IH]; intros c r;
    rewrite _flattenComponent_unfold;
    destruct (gs !! baseGlyph c) as [g|] eqn:Hg; try done;
    destruct (components g) as [|n l] eqn:Hc; try done;
    try (intros [= <-]; split; [done|]; constructor; [by exists g | constructor]).
  rewrite flatten_nested_Ok. intros (rs & Hrs & ->).
  inversion Hrs as [|? rn ? rs' Hn Hrs']; subst. split.
  - apply IH in Hn as [Hne _]. destruct rn; [done|]. done.
  - apply Forall_concat, Forall_forall. intros rm Hrm.
    apply list_elem_of_fmap in Hrm as (rk & -> & Hrk).
    apply list_elem_of_lookup in Hrk as [i Hi].
    destruct (Forall2_lookup_r _ _ _ _ _ Hrs Hi) as (m & _ & Hm).
    apply IH in Hm as [_ Hm]. apply Forall_fmap. by eapply Forall_impl.
Qed.

(** While a glyph is being filtered its own entry in the glyph set has the
    component under treatment at the head of its component list, so a
    flattening of that component that returns never came back to the
    glyph: it is the flattening in the glyph set as it was. *)
Section ignores_parent.
Context (gs : gmap string Glyph) (key : string) (g' : Glyph)
        (comp : Component) (rest : list Component).
Hypothesis Hhead : components g' = comp :: rest.

Lemma flatten_least_fuel f r :
  _flattenComponent f (<[key:=g']> gs) comp = Ok r →
  ∃ f0, (f0 ≤ f)%nat ∧ _flattenComponent f0 (<[key:=g']> gs) comp = Ok r
        ∧ ∀ f1 r1, (f1 < f0)%nat → _flattenComponent f1 (<[key:=g']> gs) comp ≠ Ok r1.
Proof.
  revert r. induction f as [|f IH]; intros r Hr.
  - exists O. split_and!; [lia | done | intros; lia].
  - destruct (_flattenComponent f (<[key:=g']> gs) comp) as [r0| |] eqn:Hf.
    + pose proof (_flattenComponent_mono f (S f) _ _ _ ltac:(lia) Hf) as Hm.
      assert (r0 = r) as -> by congruence.
      destruct (IH r eq_refl) as (f0 & ? & ? & ?). exists f0. split_and!; [lia|done..].
    + exists (S f). split_and!; [lia | done |]. intros f1 r1 Hlt H1.
      pose proof (_flattenComponent_mono f1 f _ _ _ ltac:(lia) H1). congruence.
    + exists (S f). split_and!; [lia | done |]. intros f1 r1 Hlt H1.
      pose proof (_flattenComponent_mono f1 f _ _ _ ltac:(lia) H1). congruence.
Qed.

Lemma flatten_below_least f :
  (∀ f1 r1, (f1 < f)%nat → _flattenComponent f1 (<[key:=g']> gs) comp ≠ Ok r1) →
  ∀ c r, _flattenComponent f (<[key:=g']> gs) c = Ok r →
         _flattenComponent f gs c = Ok r.
Proof.
  induction f as [|f IH]; intros Hmin c r; rewrite !_flattenComponent_unfold.
  - destruct (decide (baseGlyph c = key)) as [->|Hne].
    + rewrite lookup_insert_eq, Hhead. done.
    + rewrite lookup_insert_ne by done.
      destruct (gs !! baseGlyph c) as [g|]; [|done]. by destruct (components g).
  - destruct (decide (baseGlyph c = key)) as [->|Hne].
    + rewrite lookup_insert_eq, Hhead. simpl. rewrite bind_Ok.
      intros (r1 & H1 & _). by apply Hmin in H1; [|lia].
    + rewrite lookup_insert_ne by done.
      destruct (gs !! baseGlyph c) as [g|]; [|done].
      destruct (components g) as [|n l]; [done|].
      rewrite !flatten_nested_Ok. intros (rs & Hrs & ->). exists rs. split; [|done].
      eapply Forall2_impl; [exact Hrs|]. intros n' rn Hn. simpl in Hn.
      apply IH; [|done]. intros f1 r1 Hlt. apply Hmin. lia.
Qed.

Lemma flatten_ignores_parent f r :
  _flattenComponent f (<[key:=g']> gs) comp = Ok r → _flattenComponent f gs comp = Ok r.
Proof.
  intros Hr. destruct (flatten_least_fuel f r Hr) as (f0 & Hle & H0 & Hmin).
  apply (_flattenComponent_mono f0 f); [done|]. by apply flatten_below_least.
Qed.

End ignores_parent.

Lemma list_remove_first_head comp l : list_remove_first comp (comp :: l) = l.
Proof. simpl. by rewrite decide_True. Qed.

Lemma foldl_addComponent g l :
  foldl addComponent g l
  = mkGlyph (name g) (components g ++ as_components l) (anchors g).
Proof.
  revert g. induction l as [|t l IH]; intros g; simpl.
  - rewrite app_nil_r. by destruct g.
  - rewrite IH. simpl. by rewrite <- app_assoc.
Qed.

Lemma as_components_app l1 l2 :
  as_components (l1 ++ l2) = as_components l1 ++ as_components l2.
Proof. apply map_app. Qed.

(** The loop of [filter], read back from a run that returned: every
    component was flattened in the glyph set as it was at entry, the
    glyph's component list is the concatenation of the flattenings, and
    the flag records whether one of them failed the test of line 27. *)
Lemma filter_loop_Ok fuel key gs0 nm anc snapshot new flattened gs' flattened' :
  filter_loop fuel key snapshot (<[key := mkGlyph nm (snapshot ++ new) anc]> gs0) flattened
    = Ok (gs', flattened') →
  ∃ rs, Forall2 (λ c r, _flattenComponent fuel gs0 c = Ok r) snapshot rs
        ∧ gs' = <[key := mkGlyph nm (new ++ as_components (concat rs)) anc]> gs0
        ∧ flattened' = flattened || existsb first_differs (zip snapshot rs).
Proof.
  revert new flattened. induction snapshot as [|comp rest IH]; intros new flattened; simpl.
  - intros [= <- <-]. exists []. split_and!; [constructor | | by rewrite orb_false_r].
    simpl. by rewrite app_nil_r.
  - rewrite bind_Ok. intros (r & Hr & Hloop).
    apply flatten_ignores_parent with (rest := rest ++ new) in Hr; [|done].
    destruct r as [|t r]; [done|]. simpl in Hloop.
    rewrite alter_insert_eq in Hloop. unfold removeComponent in Hloop. simpl in Hloop.
    rewrite decide_True in Hloop by done.
    rewrite foldl_addComponent in Hloop. simpl in Hloop.
    rewrite <- !app_assoc in Hloop.
    change ([{| baseGlyph := t.1; transformation := t.2 |}] ++ as_components r)
      with (as_components (t :: r)) in Hloop.
    apply IH in Hloop as (rs & Hrs & -> & ->).
    exists ((t :: r) :: rs). split_and!; [by constructor | |].
    + simpl. by rewrite !as_components_app, <- !app_assoc.
    + simpl. unfold first_differs at 2. simpl.
      rewrite orb_assoc. f_equal.
      destruct (decide (t ≠ (baseGlyph comp, transformation comp))) as [Hd|Hd].
      * rewrite bool_decide_true; [by rewrite orb_true_r | congruence].
      * rewrite bool_decide_false; [by rewrite orb_false_r |].
        intros Hn. apply Hd. intros ->. done.
Qed.

Lemma filter_Ok fuel ctx key g ctx' b :
  glyphSet ctx !! key = Some g →
  filter fuel ctx key = Ok (ctx', b) →
  ∃ rs, Forall2 (λ c r, _flattenComponent fuel (glyphSet ctx) c = Ok r) (components g) rs
        ∧ glyphSet ctx'
          = <[key := mkGlyph (name g) (as_components (concat rs)) (anchors g)]> (glyphSet ctx)
        ∧ b = existsb first_differs (zip (components g) rs)
        ∧ modified ctx' = if b then modified ctx ∪ {[name g]} else modified ctx.
Proof.
  intros Hg. unfold filter. rewrite Hg.
  destruct (components g) as [|c l] eqn:Hc.
  - intros [= <- <-]. exists []. split_and!; [constructor | | done..].
    simpl. rewrite <- Hc. symmetry. apply insert_id. by destruct g.
  - rewrite bind_Ok. intros ([gs' fl] & Hloop & [= <- <-]). simpl.
    assert (glyphSet ctx = <[key := mkGlyph (name g) ((c :: l) ++ []) (anchors g)]> (glyphSet ctx))
      as Hins.
    { symmetry. apply insert_id. rewrite app_nil_r, <- Hc. by destruct g. }
    rewrite Hins in Hloop. apply filter_loop_Ok in Hloop as (rs & Hrs & -> & ->).
    exists rs. split_and!; done.
Qed.

(** The loop run forward, for components whose flattening does not depend
    on the entry of the glyph under treatment. *)
Lemma filter_loop_run fuel key gs0 nm anc snapshot rs new flattened :
  Forall2 (λ c r, r ≠ [] ∧ ∀ g', _flattenComponent fuel (<[key:=g']> gs0) c = Ok r)
          snapshot rs →
  filter_loop fuel key snapshot (<[key := mkGlyph nm (snapshot ++ new) anc]> gs0) flattened
  = Ok (<[key := mkGlyph nm (new ++ as_components (concat rs)) anc]> gs0,
        flattened || existsb first_differs (zip snapshot rs)).
Proof.
  intros Hrs. revert new flattened.
  induction Hrs as [|comp r rest rs [Hne Hr] Hrs IH]; intros new flattened; simpl.
  - by rewrite app_nil_r, orb_false_r.
  - rewrite Hr. simpl. destruct r as [|t r]; [done|]. simpl.
    rewrite alter_insert_eq. unfold removeComponent. simpl.
    rewrite decide_True by done. rewrite foldl_addComponent. simpl.
    rewrite <- !app_assoc.
    change ([{| baseGlyph := t.1; transformation := t.2 |}] ++ as_components r)
      with (as_components (t :: r)).
    rewrite IH. rewrite !as_components_app, <- !app_assoc. do 2 f_equal.
    unfold first_differs at 2. simpl. rewrite orb_assoc. f_equal.
    destruct (decide (t ≠ (baseGlyph comp, transformation comp))) as [Hd|Hd].
    + rewrite bool_decide_true; [by rewrite orb_true_r | congruence].
    + rewrite bool_decide_false; [by rewrite orb_false_r |].
      intros Hn. apply Hd. intros ->. done.
Qed.

Lemma filter_run fuel ctx key g rs :
  glyphSet ctx !! key = Some g →
  Forall2 (λ c r, r ≠ [] ∧ ∀ g', _flattenComponent fuel (<[key:=g']> (glyphSet ctx)) c = Ok r)
          (components g) rs →
  let b := existsb first_differs (zip (components g) rs) in
  filter fuel ctx key
  = Ok (mkContext
          (<[key := mkGlyph (name g) (as_components (concat rs)) (anchors g)]> (glyphSet ctx))
          (if b then modified ctx ∪ {[name g]} else modified ctx), b).
Proof.
  intros Hg Hrs b. unfold filter. rewrite Hg.
  destruct (components g) as [|c l] eqn:Hc.
  - inversion Hrs; subst. subst b. simpl. do 2 f_equal. destruct ctx as [gs m]. simpl in *.
    f_equal. symmetry. apply insert_id. rewrite Hg. f_equal. destruct g; simpl in *; congruence.
  - assert (glyphSet ctx = <[key := mkGlyph (name g) ((c :: l) ++ []) (anchors g)]> (glyphSet ctx))
      as Hins.
    { symmetry. apply insert_id. rewrite app_nil_r, <- Hc. by destruct g. }
    rewrite Hins at 1. rewrite (filter_loop_run _ _ _ _ _ _ rs); [|done]. done.
Qed.

(** A component on a leaf glyph is its own flattening, whatever the fuel. *)
Lemma _flattenComponent_leaf f gs c :
  is_leaf gs (baseGlyph c) →
  _flattenComponent f gs c = Ok [(baseGlyph c, transformation c)].
Proof.
  intros (g & Hg & Hl). rewrite _flattenComponent_unfold, Hg, Hl. done.
Qed.

Lemma as_components_id (l : list Component) :
  as_components (map (λ c, (baseGlyph c, transformation c)) l) = l.
Proof. induction l as [|[] l IH]; simpl; [done|]. by rewrite IH. Qed.

Lemma filter_leaves fuel ctx key g :
  glyphSet ctx !! key = Some g →
  (∀ c, c ∈ components g → is_leaf (glyphSet ctx) (baseGlyph c)) →
  filter fuel ctx key = Ok (ctx, false).
Proof.
  intros Hg Hleaf.
  destruct (components g) as [|c0 l0] eqn:Hc.
  { unfold filter. by rewrite Hg, Hc. }
  rewrite <- Hc in Hleaf.
  set (rs := map (λ c, [(baseGlyph c, transformation c)]) (components g)).
  assert (key_composite : ∀ n, is_leaf (glyphSet ctx) n → n ≠ key).
  { intros n (l & Hl & Hnil) ->. rewrite Hg in Hl. injection Hl as <-. congruence. }
  rewrite (filter_run fuel ctx key g rs Hg).
  - assert (concat rs = map (λ c, (baseGlyph c, transformation c)) (components g)) as ->.
    { unfold rs. clear. induction (components g); simpl; [done|]. by f_equal. }
    rewrite as_components_id.
    assert (existsb first_differs (zip (components g) rs) = false) as ->.
    { unfold rs. clear. induction (components g) as [|c l IH]; simpl; [done|].
      rewrite IH, orb_false_r. unfold first_differs. simpl.
      apply bool_decide_false. by intros []. }
    do 2 f_equal. destruct ctx as [gs m]. simpl in *. f_equal.
    apply insert_id. rewrite Hg. by destruct g.
  - unfold rs. apply Forall2_fmap_r, Forall_Forall2_diag, Forall_forall.
    intros c Hin. split; [done|]. intros g'. apply _flattenComponent_leaf.
    destruct (Hleaf c Hin) as (l & Hl & Hnil). exists l. split; [|done].
    rewrite lookup_insert_ne; [done|]. intros Heq.
    eapply key_composite; [|symmetry; exact Heq]. by exists l.
Qed.

(** ** The reference graph *)

Lemma flatten_nested_ext rec rec' outer l :
  (∀ n, n ∈ l → rec n = rec' n) →
  flatten_nested rec outer l = flatten_nested rec' outer l.
Proof.
  induction l as [|n l IH]; intros Hext; simpl; [done|].
  rewrite (Hext n) by apply list_elem_of_here.
  rewrite IH; [done|]. intros m Hm. apply Hext. by apply list_elem_of_further.
Qed.

Lemma flatten_nested_fails rec outer l res :
  flatten_nested rec outer l = res → (∀ r, res ≠ Ok r) →
  ∃ n, n ∈ l ∧ same_failure (rec n) res.
Proof.
  revert res. induction l as [|n l IH]; intros res; simpl.
  - intros <- Hno. by destruct (Hno []).
  - destruct (rec n) as [rn| |] eqn:Hn; simpl.
    + destruct (flatten_nested rec outer l) as [all| |] eqn:Hall; simpl.
      * intros <- Hno. by edestruct Hno.
      * intros <- _. destruct (IH _ eq_refl) as (m & Hm & Hf); [done|].
        exists m. split; [by apply list_elem_of_further | done].
      * intros <- _. destruct (IH _ eq_refl) as (m & Hm & Hf); [done|].
        exists m. split; [by apply list_elem_of_further | done].
    + intros <- _. exists n. rewrite Hn. split; [apply list_elem_of_here | done].
    + intros <- _. exists n. rewrite Hn. split; [apply list_elem_of_here | done].
Qed.

(** A flattening does not depend on the entry of a glyph it cannot reach. *)
Lemma flatten_indep gs key g' f c :
  ¬ rtc (refs gs) (baseGlyph c) key →
  _flattenComponent f (<[key:=g']> gs) c = _flattenComponent f gs c.
Proof.
  revert c. induction f as [|f IH]; intros c Hnot; rewrite !_flattenComponent_unfold;
    (rewrite lookup_insert_ne; [|by intros ->; apply Hnot]);
    destruct (gs !! baseGlyph c) as [g|] eqn:Hg; try done;
    destruct (components g) as [|n l] eqn:Hc; try done.
  apply flatten_nested_ext. intros m Hm. apply IH. intros Hr. apply Hnot.
  eapply rtc_l; [|exact Hr]. exists g, m. by rewrite Hc.
Qed.

(** On an acyclic graph the recursion ends: [V] holds the glyphs on the
    current chain of calls, none of which can come up again. *)
Lemma flatten_terminates gs f V c :
  acyclic gs →
  (∀ v, v ∈ V → v ∈ dom gs ∧ tc (refs gs) v (baseGlyph c)) →
  (size (dom gs ∖ V) ≤ f)%nat →
  _flattenComponent f gs c ≠ OutOfFuel.
Proof.
  intros Hac. revert V c. induction f as [|f IH]; intros V c HV Hsize;
    rewrite _flattenComponent_unfold;
    destruct (gs !! baseGlyph c) as [g|] eqn:Hg; try done;
    destruct (components g) as [|n l] eqn:Hc; try done.
  - assert (baseGlyph c ∈ dom gs ∖ V) as Hin.
    { apply elem_of_difference. split; [by apply elem_of_dom|].
      intros Hv. by apply HV in Hv as [_ ?%Hac]. }
    assert (size (dom gs ∖ V) ≠ 0%nat) as Hnz; [|lia].
    intros Hz%size_empty_inv. set_solver.
  - intros Hout. apply flatten_nested_fails in Hout as (m & Hm & Hf); [|done].
    destruct (_flattenComponent f gs m) eqn:Hfm; try done.
    revert Hfm. apply (IH (V ∪ {[baseGlyph c]})).
    + intros v [Hv| ->%elem_of_singleton]%elem_of_union.
      * destruct (HV v Hv) as [? Htc]. split; [done|].
        eapply tc_r; [exact Htc|]. exists g, m. by rewrite Hc.
      * split; [by apply elem_of_dom|]. apply tc_once. exists g, m. by rewrite Hc.
    + assert (baseGlyph c ∉ V) as Hnv.
      { intros Hv. by apply HV in Hv as [_ ?%Hac]. }
      assert (dom gs ∖ (V ∪ {[baseGlyph c]}) ⊂ dom gs ∖ V) as Hsub.
      { split; [set_solver|]. intros Hsub. 
        assert (baseGlyph c ∈ dom gs ∖ V) as Hin.
        { apply elem_of_difference. split; [by apply elem_of_dom|done]. }
        apply Hsub in Hin. set_solver. }
      apply subset_size in Hsub. lia.
Qed.

(** The flattener raises for one reason only: a glyph name, reached from
    the component, that the glyph set does not hold. *)
Lemma flatten_Raise f gs c e :
  _flattenComponent f gs c = Raise e →
  ∃ n, e = KeyError n ∧ gs !! n = None ∧ rtc (refs gs) (baseGlyph c) n.
Proof.
  revert c. induction f as [|f IH]; intros c; rewrite _flattenComponent_unfold;
    destruct (gs !! baseGlyph c) as [g|] eqn:Hg;
    try (intros [= <-]; by exists (baseGlyph c));
    destruct (components g) as [|n l] eqn:Hc; try done.
  intros Hr. apply flatten_nested_fails in Hr as (m & Hm & Hf); [|done].
  destruct (_flattenComponent f gs m) as [|e'|] eqn:Hfm; try done.
  simpl in Hf. subst e'. apply IH in Hfm as (k & -> & Hk & Hrtc).
  exists k. split_and!; [done..|]. eapply rtc_l; [|exact Hrtc].
  exists g, m. by rewrite Hc.
Qed.


(** ** Composition order *)

(** What the flattener does on a chain A → B → C: the one component left
    on A names C with the transform [Tc.transform(Tb)]. *)
Lemma flatten_chain fuel ctx A B C gA gB gC Tb Tc :
  glyphSet ctx !! A = Some gA → components gA = [mkComponent B Tb] →
  glyphSet ctx !! B = Some gB → components gB = [mkComponent C Tc] →
  glyphSet ctx !! C = Some gC → components gC = [] →
  filter (S fuel) ctx A
  = Ok (mkContext
          (<[A := mkGlyph (name gA) [mkComponent C (transform Tc Tb)] (anchors gA)]>
             (glyphSet ctx))
          (modified ctx ∪ {[name gA]}), true).
Proof.
  intros HA HcA HB HcB HC HcC.
  assert (C ≠ A) by (intros ->; congruence).
  assert (B ≠ A).
  { intros ->. rewrite HA in HB. injection HB as <-. congruence. }
  rewrite (filter_run (S fuel) ctx A gA [[(C, transform Tc Tb)]] HA).
  - rewrite HcA. simpl. unfold first_differs. simpl.
    rewrite bool_decide_true; [done|]. intros [= -> _]. congruence.
  - rewrite HcA. constructor; [|constructor]. split; [done|]. intros g'.
    rewrite _flattenComponent_unfold. simpl.
    rewrite lookup_insert_ne, HB, HcB by done. simpl.
    rewrite _flattenComponent_unfold. simpl.
    rewrite lookup_insert_ne, HC, HcC by done. done.
Qed.

(** C1: on the chain A → B (moved by 10) → C (scaled by 2) the flattener
    leaves on A the one component (C, Tc.transform(Tb)), which moves a
    point first and scales it afterwards: the origin of C lands on
    (20, 0).  The composition the claim asks for, Tb.transform(Tc), scales
    first and moves afterwards and sends the origin to (10, 0). *)
Theorem flatten_chain_applies_outer_first :
  ∃ ctx' T,
    filter 1 chain_ctx "A" = Ok (ctx', true)
    ∧ (components <$> glyphSet ctx' !! "A") = Some [mkComponent "C" T]
    ∧ T = transform scale2 translate10
    ∧ T ≠ transform translate10 scale2
    ∧ transformPoint T (0, 0) = (20, 0)
    ∧ transformPoint translate10 (transformPoint scale2 (0, 0)) = (10, 0).
Proof.
  eexists _, _. split_and!.
  - eapply (flatten_chain 0 chain_ctx "A" "B" "C"); reflexivity.
  - simpl. by rewrite lookup_insert_eq.
  - done.
  - done.
  - done.
  - done.
Qed.

(** ** Reporting a modification *)

(** C4: a call of [filter] that returns gives true exactly when the
    flattening of some component of the glyph is not that one component
    unchanged (same base glyph, same coefficients), and it records the
    glyph's name as modified exactly then; when every component is on a
    leaf glyph the call returns false and leaves the context as it was. *)
Theorem flatten_reports_modified fuel ctx key g :
  glyphSet ctx !! key = Some g →
  (∀ ctx' b, filter fuel ctx key = Ok (ctx', b) →
     (b = true ↔
        ∃ c r, c ∈ components g
               ∧ _flattenComponent fuel (glyphSet ctx) c = Ok r
               ∧ r ≠ [(baseGlyph c, transformation c)])
     ∧ modified ctx' = (if b then modified ctx ∪ {[name g]} else modified ctx))
  ∧ ((∀ c, c ∈ components g → is_leaf (glyphSet ctx) (baseGlyph c)) →
     filter fuel ctx key = Ok (ctx, false)).
Proof.
  intros Hg. split; [|by apply filter_leaves].
  intros ctx' b Hrun.
  destruct (filter_Ok _ _ _ _ _ _ Hg Hrun) as (rs & Hrs & _ & -> & Hmod).
  split; [|done]. rewrite existsb_exists. split.
  - intros ([c r] & Hin & Hd).
    apply list_elem_of_In, list_elem_of_lookup in Hin as [j Hj].
    apply lookup_zip_Some in Hj as [Hj Hrj].
    exists c, r. split; [by eapply list_elem_of_lookup_2|].
    apply bool_decide_eq_true in Hd. simpl in Hd.
    split; [by eapply (Forall2_lookup_lr _ _ _ _ _ _ Hrs)|]. intros ->. by apply Hd.
  - intros (c & r & Hc & Hr & Hne).
    apply list_elem_of_lookup in Hc as [i Hi].
    destruct (Forall2_lookup_l _ _ _ _ _ Hrs Hi) as (r' & Hri & Hr').
    assert (r' = r) as -> by congruence.
    exists (c, r). split.
    { apply list_elem_of_In. eapply list_elem_of_lookup_2. by apply lookup_zip_Some. }
    apply bool_decide_eq_true. simpl.
    destruct (_flattenComponent_leaves _ _ _ _ Hr) as [Hnil Hleaves].
    destruct r as [|t r]; [done|]. simpl. intros [= ->].
    apply Forall_cons in Hleaves as [(l & Hl & Hlc) _]. simpl in Hl.
    rewrite _flattenComponent_unfold, Hl, Hlc in Hr. by injection Hr as <-.
Qed.

(** ** Idempotence *)

Lemma elem_of_concat {A} (x : A) (ls : list (list A)) :
  x ∈ concat ls ↔ ∃ l, x ∈ l ∧ l ∈ ls.
Proof.
  rewrite list_elem_of_In, in_concat. split.
  - intros (l & Hl & Hx). exists l. by rewrite !list_elem_of_In.
  - intros (l & Hx & Hl). exists l. by rewrite <- !list_elem_of_In.
Qed.

Lemma refs_resolved gs a n :
  resolvable gs → is_Some (gs !! a) → rtc (refs gs) a n → is_Some (gs !! n).
Proof.
  intros Hres Ha Hrtc. induction Hrtc as [|a m n Hstep _ IH]; [done|].
  apply IH. by eapply Hres.
Qed.

Lemma flatten_total f gs c :
  acyclic gs → resolvable gs → is_Some (gs !! baseGlyph c) →
  (size (dom gs) ≤ f)%nat →
  ∃ r, _flattenComponent f gs c = Ok r.
Proof.
  intros Hac Hres Hc Hsize.
  destruct (_flattenComponent f gs c) as [r|e|] eqn:Hf; [by exists r| |].
  - apply flatten_Raise in Hf as (n & _ & Hn & Hrtc).
    apply (refs_resolved _ _ _ Hres Hc) in Hrtc. rewrite Hn in Hrtc. by destruct Hrtc.
  - exfalso. revert Hf. apply (flatten_terminates gs f ∅ c Hac); [set_solver|].
    by rewrite difference_empty_L.
Qed.

Lemma refs_component_not_back gs key g c :
  acyclic gs → gs !! key = Some g → c ∈ components g →
  ¬ rtc (refs gs) (baseGlyph c) key.
Proof.
  intros Hac Hg Hc Hrtc. apply (Hac key).
  eapply tc_rtc_r; [|exact Hrtc]. apply tc_once. by exists g, c.
Qed.

Lemma flattenings_run fuel gs key g :
  acyclic gs → resolvable gs → gs !! key = Some g →
  (size (dom gs) ≤ fuel)%nat →
  Forall2 (λ c r, r ≠ [] ∧ ∀ g', _flattenComponent fuel (<[key:=g']> gs) c = Ok r)
          (components g) (flattenings fuel gs (components g)).
Proof.
  intros Hac Hres Hg Hsize. unfold flattenings.
  apply Forall2_fmap_r, Forall_Forall2_diag, Forall_forall. intros c Hc.
  destruct (flatten_total fuel gs c Hac Hres) as [r Hr]; [|done|].
  { apply (Hres key). by exists g, c. }
  simpl. rewrite Hr. split; [by apply _flattenComponent_leaves in Hr as [? _]|].
  intros g'. rewrite flatten_indep; [done|]. by eapply refs_component_not_back.
Qed.

(** C5: on a glyph set whose reference graph is acyclic and resolvable,
    with fuel for the depth of the graph, [filter] returns on every glyph;
    run again on the same glyph it returns once more and leaves the
    glyph's component list, and the whole glyph set, as the first run
    left them. *)
Theorem flatten_idempotent fuel ctx key g :
  acyclic (glyphSet ctx) → resolvable (glyphSet ctx) →
  glyphSet ctx !! key = Some g →
  (size (dom (glyphSet ctx)) ≤ fuel)%nat →
  ∃ ctx1 b1, filter fuel ctx key = Ok (ctx1, b1)
   ∧ ∃ ctx2 b2, filter fuel ctx1 key = Ok (ctx2, b2)
      ∧ (components <$> glyphSet ctx2 !! key) = (components <$> glyphSet ctx1 !! key)
      ∧ glyphSet ctx2 = glyphSet ctx1.
Proof.
  intros Hac Hres Hg Hsize.
  pose proof (flattenings_run fuel _ key g Hac Hres Hg Hsize) as Hrs.
  set (rs := flattenings fuel (glyphSet ctx) (components g)) in *.
  pose proof (filter_run fuel ctx key g rs Hg Hrs) as Hrun. simpl in Hrun.
  eexists _, _. split; [exact Hrun|].
  set (g1 := mkGlyph (name g) (as_components (concat rs)) (anchors g)) in *.
  set (ctx1 := mkContext (<[key:=g1]> (glyphSet ctx)) _) in *.
  exists ctx1, false. split; [|done].
  apply (filter_leaves fuel ctx1 key g1); [apply lookup_insert_eq|].
  intros c' Hc'. simpl in Hc'. apply list_elem_of_fmap in Hc' as (t & -> & Ht). simpl.
  apply elem_of_concat in Ht as (r & Ht & Hr).
  apply list_elem_of_lookup in Hr as [i Hi].
  destruct (Forall2_lookup_r _ _ _ _ _ Hrs Hi) as (c & Hci & _ & Hc).
  specialize (Hc g). rewrite insert_id in Hc by done.
  apply _flattenComponent_leaves in Hc as [_ Hleaves].
  rewrite Forall_forall in Hleaves. destruct (Hleaves t Ht) as (l & Hl & Hnil).
  exists l. split; [|done]. simpl. rewrite lookup_insert_ne; [done|].
  intros Heq. rewrite <- Heq, Hg in Hl. injection Hl as <-.
  apply list_elem_of_lookup_2 in Hci. rewrite Hnil in Hci. by apply elem_of_nil in Hci.
Qed.

(** ** What the flattener leaves alone *)

Lemma flatten_frame fuel ctx key ctx' b :
  filter fuel ctx key = Ok (ctx', b) →
  dom (glyphSet ctx') = dom (glyphSet ctx)
  ∧ (∀ k, k ≠ key → glyphSet ctx' !! k = glyphSet ctx !! k)
  ∧ (∃ g g', glyphSet ctx !! key = Some g ∧ glyphSet ctx' !! key = Some g'
             ∧ name g' = name g ∧ anchors g' = anchors g).
Proof.
  intros Hrun. destruct (glyphSet ctx !! key) as [g|] eqn:Hg.
  - destruct (filter_Ok _ _ _ _ _ _ Hg Hrun) as (rs & _ & -> & _). split_and!.
    + rewrite dom_insert_L. apply elem_of_dom_2 in Hg. set_solver.
    + intros k Hk. by rewrite lookup_insert_ne.
    + eexists g, _. rewrite lookup_insert_eq. done.
  - unfold filter in Hrun. by rewrite Hg in Hrun.
Qed.

(** ** Dangling references in the flattener *)



(** * The anchor propagator *)

Section propagator.

Context (set_order : gset string → list string).

Lemma _propagate_glyph_anchors_unfold fuel glyphSet key processed :
  _propagate_glyph_anchors set_order fuel glyphSet key processed =
  match glyphSet !! key with
  | None => Raise (KeyError key)
  | Some composite =>
      if decide (name composite ∈ processed) then Ok (glyphSet, processed)
      else
        match components composite with
        | [] => Ok (glyphSet, processed ∪ {[name composite]})
        | _ :: _ =>
            match fuel with
            | O => OutOfFuel
            | S fuel' =>
                st ← foldM (component_step (_propagate_glyph_anchors set_order fuel'))
                           (mkCollected glyphSet (processed ∪ {[name composite]}) [] [] ∅)
                           (components composite);
                match c_glyphSet st !! key with
                | None => Raise (KeyError key)
                | Some composite' =>
                    to_add ← stage_anchors set_order (c_glyphSet st) composite' st;
                    Ok (alter (λ glyph, foldl appendAnchor glyph (sorted_items to_add))
                              key (c_glyphSet st),
                        c_processed st)
                end
            end
        end
  end.
Proof. by destruct fuel. Qed.

(** ** The calls of a run that returns *)

Lemma component_loop_sound rec l :
  (∀ gs k p gs' p', rec gs k p = Ok (gs', p') → propagates set_order gs k p gs' p') →
  ∀ st st', foldM (component_step rec) st l = Ok st' → collects set_order st l st'.
Proof.
  intros Hrec. induction l as [|c l IH]; intros st st'; simpl.
  - intros [= <-]. constructor.
  - rewrite bind_Ok. intros (st1 & Hstep & Hrest). unfold component_step in Hstep.
    destruct (c_glyphSet st !! baseGlyph c) as [g0|] eqn:Hg0; [|done].
    apply bind_Ok in Hstep as ([gs1 p1] & Hcall & Hstep). simpl in Hstep.
    destruct (gs1 !! baseGlyph c) as [glyph|] eqn:Hglyph; [|done].
    injection Hstep as <-. econstructor; eauto.
Qed.

Lemma propagate_sound fuel gs key p gs' p' :
  _propagate_glyph_anchors set_order fuel gs key p = Ok (gs', p') →
  propagates set_order gs key p gs' p'.
Proof.
  revert gs key p gs' p'. induction fuel as [|fuel IH]; intros gs key p gs' p';
    rewrite _propagate_glyph_anchors_unfold;
    destruct (gs !! key) as [composite|] eqn:Hk; try done;
    (destruct (decide (name composite ∈ p)); [intros [= <- <-]; by econstructor|]);
    destruct (components composite) as [|c l] eqn:Hc;
    try (intros [= <- <-]; by econstructor); try done.
  rewrite bind_Ok. intros (st & Hloop & Hrest).
  destruct (c_glyphSet st !! key) as [composite'|] eqn:Hk'; [|done].
  apply bind_Ok in Hrest as (to_add & Hstage & [= <- <-]).
  eapply propagates_composite; eauto.
  - by rewrite Hc.
  - rewrite Hc. eapply component_loop_sound; eauto.
Qed.

(** ** What a call leaves alone *)

Lemma glyph_extends_refl g : glyph_extends g g.
Proof. by split_and!. Qed.

Lemma glyph_extends_trans g1 g2 g3 :
  glyph_extends g1 g2 → glyph_extends g2 g3 → glyph_extends g1 g3.
Proof.
  intros (? & ? & ?) (? & ? & ?). split_and!; [congruence..|]. by etrans.
Qed.

Lemma extends_refl gs : extends gs gs.
Proof.
  intros k. destruct (gs !! k); constructor. apply glyph_extends_refl.
Qed.

Lemma extends_trans gs1 gs2 gs3 :
  extends gs1 gs2 → extends gs2 gs3 → extends gs1 gs3.
Proof.
  intros H12 H23 k. specialize (H12 k). specialize (H23 k).
  destruct H12 as [g1 g2 H12|]; inversion H23 as [? g3 H23'|]; subst; constructor.
  by eapply glyph_extends_trans.
Qed.

Lemma extends_lookup gs gs' k g :
  extends gs gs' → gs !! k = Some g →
  ∃ g', gs' !! k = Some g' ∧ glyph_extends g g'.
Proof.
  intros Hext Hg. specialize (Hext k). rewrite Hg in Hext.
  inversion Hext as [? g' Hgg|]; subst. by exists g'.
Qed.

Lemma extends_lookup_r gs gs' k g' :
  extends gs gs' → gs' !! k = Some g' →
  ∃ g, gs !! k = Some g ∧ glyph_extends g g'.
Proof.
  intros Hext Hg. specialize (Hext k). rewrite Hg in Hext.
  inversion Hext as [g ? Hgg|]; subst. by exists g.
Qed.

Lemma extends_lookup_None gs gs' k :
  extends gs gs' → gs !! k = None ↔ gs' !! k = None.
Proof.
  intros Hext. specialize (Hext k). split; intros Hk; rewrite Hk in Hext;
    by inversion Hext.
Qed.

Lemma extends_dom gs gs' : extends gs gs' → dom gs' = dom gs.
Proof.
  intros Hext. apply set_eq. intros k. rewrite !elem_of_dom.
  rewrite <- !not_eq_None_Some. by rewrite (extends_lookup_None _ _ k Hext).
Qed.

Lemma foldl_appendAnchor g items :
  foldl appendAnchor g items
  = mkGlyph (name g) (components g)
            (anchors g ++ map (λ item, mkAnchor item.1 item.2.1 item.2.2) items).
Proof.
  revert g. induction items as [|item items IH]; intros g; simpl.
  - rewrite app_nil_r. by destruct g.
  - rewrite IH. simpl. by rewrite <- app_assoc.
Qed.

Lemma extends_append gs key items :
  extends gs (alter (λ glyph, foldl appendAnchor glyph items) key gs).
Proof.
  intros k. destruct (decide (k = key)) as [->|Hne].
  - rewrite lookup_alter_eq. destruct (gs !! key) as [g|]; constructor.
    rewrite foldl_appendAnchor. split_and!; [done..|]. by apply prefix_app_r.
  - rewrite lookup_alter_ne by done. destruct (gs !! k); constructor.
    apply glyph_extends_refl.
Qed.

Lemma classify_glyphSet st gs p c g : c_glyphSet (classify st gs p c g) = gs.
Proof. unfold classify. by destruct (is_mark_glyph g). Qed.

Lemma classify_processed st gs p c g : c_processed (classify st gs p c g) = p.
Proof. unfold classify. by destruct (is_mark_glyph g). Qed.

Lemma propagates_frame_both :
  (∀ gs key p gs' p', propagates set_order gs key p gs' p' → call_frame gs key p gs' p')
  ∧ (∀ st l st', collects set_order st l st' → loop_frame st l st').
Proof.
  apply propagates_collects_ind.
  - intros gs key p composite Hk Hin. split_and!; [apply extends_refl|done| |done].
    intros g Hg. congruence.
  - intros gs key p composite Hk Hin Hc. split_and!; [apply extends_refl|set_solver| |done].
    intros g Hg. assert (g = composite) as -> by congruence. set_solver.
  - intros gs key p composite st composite' to_add Hk Hnin Hc _ (Hext & Hsub & Hstable)
      Hk' Hstage. simpl in *. split_and!.
    + eapply extends_trans; [exact Hext|]. apply extends_append.
    + set_solver.
    + intros g Hg. assert (g = composite) as -> by congruence. set_solver.
    + intros k1 g1 Hg1 Hp. rewrite lookup_alter_ne.
      * apply Hstable; [done|set_solver].
      * intros <-. congruence.
  - intros st. split_and!; [apply extends_refl|done..].
  - intros st c rest gs1 p1 glyph st' Hsome _ (Hext1 & Hsub1 & Hin1 & Hst1) Hglyph _
      (Hext2 & Hsub2 & Hst2).
    rewrite classify_glyphSet in Hext2, Hst2. rewrite classify_processed in Hsub2, Hst2.
    split_and!.
    + by eapply extends_trans.
    + set_solver.
    + intros k1 g1 Hg1 Hp. apply Hst2; [by apply Hst1|set_solver].
Qed.

Lemma propagates_frame gs key p gs' p' :
  propagates set_order gs key p gs' p' → call_frame gs key p gs' p'.
Proof. apply propagates_frame_both. Qed.

Lemma collects_frame st l st' : collects set_order st l st' → loop_frame st l st'.
Proof. apply propagates_frame_both. Qed.

(** ** The loop over the components, read on the glyph set it returns *)

Lemma alter_lookup_insert {A} (f : A → A) (m : gmap string A) k x :
  m !! k = Some x → alter f k m = <[k := f x]> m.
Proof.
  intros Hk. rewrite <- (insert_id m k x Hk) at 1. by rewrite alter_insert_eq.
Qed.

Lemma collects_classified st l st' :
  collects set_order st l st' →
  base_components st' = base_components st ++ bases_at (c_glyphSet st') l
  ∧ mark_components st' = mark_components st ++ marks_at (c_glyphSet st') l
  ∧ anchor_names st'
    = anchor_names st ∪ collected_names (c_glyphSet st') (bases_at (c_glyphSet st') l)
  ∧ Forall (λ c, is_Some (c_glyphSet st' !! baseGlyph c)) l.
Proof.
  induction 1 as [st|st c rest gs1 p1 glyph st' [g0 Hg0] Hcall Hglyph Hrest IH].
  - unfold bases_at, marks_at, collected_names. simpl.
    rewrite !app_nil_r. split_and!; [done..|set_solver|constructor].
  - destruct IH as (Hb & Hm & Hn & Hres).
    destruct (propagates_frame _ _ _ _ _ Hcall) as (Hext1 & _ & Hin1 & _).
    destruct (collects_frame _ _ _ Hrest) as (_ & _ & Hst).
    rewrite classify_glyphSet, classify_processed in Hst.
    assert (c_glyphSet st' !! baseGlyph c = Some glyph) as Hfinal.
    { apply Hst; [done|].
      destruct (extends_lookup _ _ _ _ Hext1 Hg0) as (g' & Hg' & Hn' & _).
      assert (g' = glyph) as -> by congruence. rewrite Hn'. by apply Hin1. }
    assert (is_mark_at (c_glyphSet st') c = is_mark_glyph glyph) as Hmark.
    { unfold is_mark_at. by rewrite Hfinal. }
    unfold bases_at, marks_at in *. simpl. rewrite Hmark.
    unfold classify in Hb, Hm, Hn.
    destruct (is_mark_glyph glyph) eqn:Hmg; simpl in *.
    + rewrite Hb, Hm, Hn, <- app_assoc. split_and!; [done..|].
      constructor; [by rewrite Hfinal | done].
    + rewrite Hb, Hm, Hn, <- app_assoc. split_and!; [done..| |].
      * unfold collected_names. simpl. rewrite Hfinal. set_solver.
      * constructor; [by rewrite Hfinal | done].
Qed.

(** A call on a composite glyph that is not yet processed, taken apart:
    the loop returns a glyph set [gs1] in which the glyph itself is as it
    was and every component is found; the anchors are staged from [gs1]
    and appended to the glyph. *)
Lemma propagates_composite_inv gs key p gs' p' g :
  propagates set_order gs key p gs' p' →
  gs !! key = Some g → name g ∉ p → components g ≠ [] →
  ∃ gs1 to_add,
    extends gs gs1 ∧ gs1 !! key = Some g
    ∧ Forall (λ c, is_Some (gs1 !! baseGlyph c)) (components g)
    ∧ collects set_order (mkCollected gs (p ∪ {[name g]}) [] [] ∅) (components g)
               (final_state gs1 p' (components g))
    ∧ stage_anchors set_order gs1 g (final_state gs1 p' (components g)) = Ok to_add
    ∧ gs' = <[key := mkGlyph (name g) (components g) (anchors g ++ staged_anchors to_add)]> gs1.
Proof.
  intros Hcall Hg Hnin Hne.
  inversion Hcall as [? ? ? composite Hk Hin|? ? ? composite Hk _ Hc
                     |? ? ? composite st composite' to_add Hk _ _ Hloop Hk' Hstage];
    subst; rewrite Hg in Hk; injection Hk as <-; try done.
  destruct (collects_frame _ _ _ Hloop) as (Hext & _ & Hst). simpl in *.
  assert (composite' = g) as ->.
  { specialize (Hst key g Hg ltac:(set_solver)). congruence. }
  destruct (collects_classified _ _ _ Hloop) as (Hb & Hm & Hn & Hres). simpl in *.
  assert (st = final_state (c_glyphSet st) (c_processed st) (components g)) as Hst_eq.
  { unfold final_state. rewrite (left_id_L ∅ (∪)) in Hn. rewrite <- Hn, <- Hb, <- Hm.
    by destruct st. }
  exists (c_glyphSet st), to_add. split_and!; [done..| | |].
  - by rewrite <- Hst_eq.
  - by rewrite <- Hst_eq.
  - rewrite (alter_lookup_insert _ _ _ _ Hk'), foldl_appendAnchor. done.
Qed.

(** [filter], read back from a call that returns. *)
Lemma propagate_filter_Ok fuel ctx key ctx' b g :
  PropagateAnchorsFilter.glyphSet ctx !! key = Some g →
  PropagateAnchorsFilter.filter set_order fuel ctx key = Ok (ctx', b) →
  (components g = [] ∧ ctx' = ctx ∧ b = false)
  ∨ (components g ≠ [] ∧ b = true
     ∧ propagates set_order (PropagateAnchorsFilter.glyphSet ctx) key
         (PropagateAnchorsFilter.processed ctx)
         (PropagateAnchorsFilter.glyphSet ctx') (PropagateAnchorsFilter.processed ctx')).
Proof.
  intros Hg. unfold PropagateAnchorsFilter.filter. rewrite Hg.
  destruct (components g) as [|c l] eqn:Hc.
  - intros [= <- <-]. by left.
  - rewrite bind_Ok. intros ([gs' p'] & Hcall & [= <- <-]). right.
    split_and!; [done..|]. by apply propagate_sound in Hcall.
Qed.

Lemma refs_extends gs gs' k b : extends gs gs' → refs gs k b ↔ refs gs' k b.
Proof.
  intros Hext. split.
  - intros (g & c & Hg & Hc & Hb).
    destruct (extends_lookup _ _ _ _ Hext Hg) as (g' & Hg' & _ & Hcs & _).
    exists g', c. by rewrite Hcs.
  - intros (g' & c & Hg' & Hc & Hb).
    destruct (extends_lookup_r _ _ _ _ Hext Hg') as (g & Hg & _ & Hcs & _).
    exists g, c. by rewrite <- Hcs.
Qed.

Lemma rtc_refs_extends gs gs' k b :
  extends gs gs' → rtc (refs gs') k b → rtc (refs gs) k b.
Proof.
  intros Hext. apply rtc_subrel. intros x y. by apply refs_extends.
Qed.

(** A call changes no glyph that the glyph it is made on cannot reach. *)
Lemma propagates_reach_both :
  (∀ gs key p gs' p', propagates set_order gs key p gs' p' →
     ∀ k1, rtc (refs gs) key k1 ∨ gs' !! k1 = gs !! k1)
  ∧ (∀ st l st', collects set_order st l st' →
     ∀ k1, (∃ c, c ∈ l ∧ rtc (refs (c_glyphSet st)) (baseGlyph c) k1)
           ∨ c_glyphSet st' !! k1 = c_glyphSet st !! k1).
Proof.
  apply propagates_collects_ind.
  - intros. by right.
  - intros. by right.
  - intros gs key p composite st composite' to_add Hk _ _ _ IH _ _ k1. simpl in IH.
    destruct (decide (k1 = key)) as [->|Hne]; [by left|].
    rewrite lookup_alter_ne by done.
    destruct (IH k1) as [(c & Hc & Hrtc)|Heq]; [left|by right].
    eapply rtc_l; [|exact Hrtc]. by exists composite, c.
  - intros. by right.
  - intros st c rest gs1 p1 glyph st' _ Hcall IH1 _ _ IH2 k1.
    rewrite classify_glyphSet in IH2.
    destruct (propagates_frame _ _ _ _ _ Hcall) as (Hext & _).
    destruct (IH2 k1) as [(c' & Hc' & Hrtc)|Heq2].
    + left. exists c'. split; [by apply list_elem_of_further|].
      by eapply rtc_refs_extends.
    + destruct (IH1 k1) as [Hrtc|Heq1].
      * left. exists c. split; [apply list_elem_of_here | done].
      * right. congruence.
Qed.

End propagator.

(** ** Calling again *)

(** C6: a call of [filter] on a glyph whose name is in the processed set
    returns the context it was given, so no glyph has changed; and once
    a call on a glyph has returned, calling again on the same glyph with
    the processed set it returned is such a call. *)
Theorem propagate_again_is_noop set_order fuel ctx key g :
  PropagateAnchorsFilter.glyphSet ctx !! key = Some g →
  (name g ∈ PropagateAnchorsFilter.processed ctx →
   PropagateAnchorsFilter.filter set_order fuel ctx key
   = Ok (ctx, bool_decide (components g ≠ [])))
  ∧ (∀ fuel1 ctx1 b,
       PropagateAnchorsFilter.filter set_order fuel1 ctx key = Ok (ctx1, b) →
       PropagateAnchorsFilter.filter set_order fuel ctx1 key = Ok (ctx1, b)).
Proof.
  intros Hg. split.
  - intros Hin. unfold PropagateAnchorsFilter.filter. rewrite Hg.
    destruct (components g) as [|c l] eqn:Hc; [done|].
    rewrite _propagate_glyph_anchors_unfold, Hg, decide_True by done.
    simpl. by destruct ctx.
  - intros fuel1 ctx1 b Hrun.
    destruct (propagate_filter_Ok _ _ _ _ _ _ _ Hg Hrun)
      as [(Hc & -> & ->)|(Hc & -> & Hcall)].
    + unfold PropagateAnchorsFilter.filter. by rewrite Hg, Hc.
    + destruct (propagates_frame _ _ _ _ _ _ Hcall) as (Hext & _ & Hin & _).
      destruct (extends_lookup _ _ _ _ Hext Hg) as (g' & Hg' & Hn & Hcs & _).
      unfold PropagateAnchorsFilter.filter. rewrite Hg', Hcs.
      destruct (components g) as [|c l] eqn:Hc'; [done|].
      rewrite _propagate_glyph_anchors_unfold, Hg', decide_True.
      * simpl. by destruct ctx1.
      * rewrite Hn. by apply Hin.
Qed.

(** ** What each pass touches *)

(** C9: [filter] of the flattener keeps the keys of the glyph set, every
    glyph's name and anchors, and the component list of every glyph but
    the one it is called on; [filter] of the propagator keeps the keys,
    every glyph's name and component list, only appends to anchor lists,
    and appends nothing to a glyph that the one it is called on does not
    reach through components. *)
Theorem passes_frame set_order fuel fctx pctx key :
  (∀ fctx' b, FlattenComponentsFilter.filter fuel fctx key = Ok (fctx', b) →
     dom (glyphSet fctx') = dom (glyphSet fctx)
     ∧ ∀ k g, glyphSet fctx !! k = Some g →
         ∃ g', glyphSet fctx' !! k = Some g'
               ∧ name g' = name g ∧ anchors g' = anchors g
               ∧ (k ≠ key → components g' = components g))
  ∧ (∀ pctx' b, PropagateAnchorsFilter.filter set_order fuel pctx key = Ok (pctx', b) →
     dom (PropagateAnchorsFilter.glyphSet pctx') = dom (PropagateAnchorsFilter.glyphSet pctx)
     ∧ ∀ k g, PropagateAnchorsFilter.glyphSet pctx !! k = Some g →
         ∃ g' added, PropagateAnchorsFilter.glyphSet pctx' !! k = Some g'
               ∧ name g' = name g ∧ components g' = components g
               ∧ anchors g' = anchors g ++ added
               ∧ (¬ rtc (refs (PropagateAnchorsFilter.glyphSet pctx)) key k → added = [])).
Proof.
  split.
  - intros fctx' b Hrun.
    destruct (flatten_frame _ _ _ _ _ Hrun) as (Hdom & Hother & g0 & g0' & Hg0 & Hg0' & Hn & Ha).
    split; [done|]. intros k g Hg. destruct (decide (k = key)) as [->|Hne].
    + exists g0'. assert (g = g0) as -> by congruence. done.
    + exists g. by rewrite Hother.
  - intros pctx' b Hrun.
    destruct (PropagateAnchorsFilter.glyphSet pctx !! key) as [g0|] eqn:Hg0.
    2:{ unfold PropagateAnchorsFilter.filter in Hrun. by rewrite Hg0 in Hrun. }
    destruct (propagate_filter_Ok _ _ _ _ _ _ _ Hg0 Hrun)
      as [(Hc & -> & ->)|(Hc & -> & Hcall)].
    + split; [done|]. intros k g Hg. exists g, []. by rewrite app_nil_r.
    + destruct (propagates_frame _ _ _ _ _ _ Hcall) as (Hext & _).
      split; [by apply extends_dom|]. intros k g Hg.
      destruct (extends_lookup _ _ _ _ Hext Hg) as (g' & Hg' & Hn & Hcs & added & Ha).
      exists g', added. split_and!; [done..|]. intros Hnot.
      destruct (proj1 (propagates_reach_both set_order) _ _ _ _ _ Hcall k) as [Hr|Heq]; [done|].
      rewrite Hg, Hg' in Heq. injection Heq as ->.
      rewrite <- (app_nil_r (anchors g)) in Ha at 1. by apply app_inv_head in Ha.
Qed.

(** ** Strings *)


Lemma append_cons a p s : String a p +:+ s = String a (p +:+ s).
Proof. reflexivity. Qed.

Lemma append_nil s : "" +:+ s = s.
Proof. reflexivity. Qed.

Lemma prefix_nil s : String.prefix "" s = true.
Proof. by destruct s. Qed.

Lemma startswith_app p s : startswith (p +:+ s) p = true.
Proof.
  unfold startswith. induction p as [|a p IH]; [rewrite append_nil; by destruct s|].
  rewrite append_cons. simpl. by destruct (Ascii.ascii_dec a a).
Qed.


(** A name that does not start with an underscore, and is not empty,
    keeps its first character when something is appended. *)
Lemma startswith_underscore_app n s :
  n ≠ "" → startswith (n +:+ s) "_" = startswith n "_".
Proof.
  unfold startswith. intros Hn. destruct n as [|c n]; [done|].
  rewrite append_cons. simpl. case_match; [|done]. by rewrite !prefix_nil.
Qed.

Lemma ligature_name_startswith n i : startswith (ligature_name n i) n = true.
Proof. apply startswith_app. Qed.

Lemma ligature_name_nonempty n i : ligature_name n i ≠ "".
Proof.
  unfold ligature_name. destruct n as [|c n]; [|by rewrite append_cons].
  by rewrite append_nil, append_cons.
Qed.

(** ** Staging the anchors *)

Lemma foldM_invariant {A B} (I : B → Prop) (f : B → A → result B) l b b' :
  (∀ b a b', I b → a ∈ l → f b a = Ok b' → I b') →
  I b → foldM f b l = Ok b' → I b'.
Proof.
  revert b. induction l as [|a l IH]; intros b Hstep Hb; simpl.
  - by intros [= <-].
  - rewrite bind_Ok. intros (b1 & H1 & Hrest). eapply (IH b1); [|eauto|done].
    + intros ? ? ? ? ?. apply Hstep; [done|]. by apply list_elem_of_further.
    + eapply Hstep; [done| |done]. apply list_elem_of_here.
Qed.

Lemma first_anchor_named_Some n l a :
  first_anchor_named n l = Some a → a ∈ l ∧ a_name a = n.
Proof.
  unfold first_anchor_named. intros [Hin Hn]%find_some.
  split; [by apply list_elem_of_In|]. by apply bool_decide_eq_true in Hn.
Qed.

Lemma first_anchor_named_None n l :
  first_anchor_named n l = None ↔ ∀ a, a ∈ l → a_name a ≠ n.
Proof.
  unfold first_anchor_named. split.
  - intros Hnone a Hin Hn. apply list_elem_of_In in Hin.
    pose proof (find_none _ _ Hnone a Hin) as Hf. simpl in Hf.
    by apply bool_decide_eq_false in Hf.
  - intros Hall. destruct (List.find _ l) as [a|] eqn:Hf; [|done].
    apply find_some in Hf as [Hin Hn%bool_decide_eq_true].
    apply list_elem_of_In in Hin. by destruct (Hall a Hin).
Qed.

Lemma collect_anchors_Ok gs comps n l :
  collect_anchors gs comps n = Ok l → l = contributors gs comps n.
Proof.
  revert l. induction comps as [|c comps IH]; intros l; simpl.
  - by intros [= <-].
  - destruct (gs !! baseGlyph c) as [g|] eqn:Hg; [|done].
    rewrite bind_Ok. intros (l' & Hl' & [= <-]).
    rewrite (IH l' Hl'). simpl.
    by destruct (first_anchor_named n (anchors g)).
Qed.

Lemma collect_anchors_run gs comps n :
  Forall (λ c, is_Some (gs !! baseGlyph c)) comps →
  collect_anchors gs comps n = Ok (contributors gs comps n).
Proof.
  induction 1 as [|c comps [g Hg] _ IH]; simpl; [done|].
  rewrite !Hg, IH. simpl.
  by destruct (first_anchor_named n (anchors g)).
Qed.

Lemma _get_anchor_data_Ok acc gs comps n acc' :
  _get_anchor_data acc gs comps n = Ok acc' →
  acc' = write_anchor_data (contributors gs comps n) acc.
Proof.
  unfold _get_anchor_data. rewrite bind_Ok. intros (l & Hl & Hw).
  apply collect_anchors_Ok in Hl as ->. unfold write_anchor_data.
  destruct (decide _); [by injection Hw|].
  destruct (contributors gs comps n) as [|[a c] l]; by injection Hw.
Qed.

Lemma _get_anchor_data_run acc gs comps n :
  Forall (λ c, is_Some (gs !! baseGlyph c)) comps →
  _get_anchor_data acc gs comps n = Ok (write_anchor_data (contributors gs comps n) acc).
Proof.
  intros Hres. unfold _get_anchor_data. rewrite (collect_anchors_run _ _ _ Hres). simpl.
  unfold write_anchor_data. destruct (decide _); [done|].
  by destruct (contributors gs comps n) as [|[a c] l].
Qed.

Lemma contributors_elem gs comps n a c :
  (a, c) ∈ contributors gs comps n →
  c ∈ comps ∧ ∃ g, gs !! baseGlyph c = Some g ∧ a ∈ anchors g ∧ a_name a = n.
Proof.
  unfold contributors. rewrite list_elem_of_omap. intros (c' & Hc' & Hsome).
  destruct (gs !! baseGlyph c') as [g|] eqn:Hg; [|done]. simpl in Hsome.
  destruct (first_anchor_named n (anchors g)) as [a'|] eqn:Ha; [|done].
  injection Hsome as <- <-. split; [done|]. exists g.
  apply first_anchor_named_Some in Ha as [? ?]. done.
Qed.

Lemma ligature_data_lookup i l acc k v :
  ligature_data i l acc !! k = Some v →
  acc !! k = Some v ∨ ∃ j a c, (a, c) ∈ l ∧ k = ligature_name (a_name a) j.
Proof.
  revert i acc. induction l as [|[a c] l IH]; intros i acc; simpl; [by left|].
  intros [Hacc|(j & a' & c' & Hin & ->)]%IH.
  - destruct (decide (k = ligature_name (a_name a) i)) as [->|Hne].
    + right. exists i, a, c. split; [apply list_elem_of_here | done].
    + left. by rewrite lookup_insert_ne in Hacc.
  - right. exists j, a', c'. split; [by apply list_elem_of_further | done].
Qed.

Lemma write_anchor_data_lookup gs comps n acc k v :
  write_anchor_data (contributors gs comps n) acc !! k = Some v →
  acc !! k = Some v
  ∨ (∃ c g a, c ∈ comps ∧ gs !! baseGlyph c = Some g ∧ a ∈ anchors g ∧ a_name a = n
              ∧ (k = n ∨ ∃ i, k = ligature_name n i)).
Proof.
  unfold write_anchor_data. destruct (decide _) as [Hlen|Hlen].
  - intros [Hacc|(j & a & c & Hin & ->)]%ligature_data_lookup; [by left|]. right.
    apply contributors_elem in Hin as (Hc & g & Hg & Ha & Hn).
    exists c, g, a. rewrite Hn. eauto 10.
  - destruct (contributors gs comps n) as [|[a c] l] eqn:Hl; [by left|].
    assert ((a, c) ∈ contributors gs comps n) as Hin by (rewrite Hl; apply list_elem_of_here).
    apply contributors_elem in Hin as (Hc & g & Hg & Ha & Hn).
    destruct (decide (k = a_name a)) as [->|Hne].
    + intros _. right. exists c, g, a. rewrite Hn. eauto 10.
    + rewrite lookup_insert_ne by done. by left.
Qed.

Lemma _adjust_anchors_keys acc gs c acc' :
  _adjust_anchors acc gs c = Ok acc' →
  ∀ k, is_Some (acc' !! k) ↔ is_Some (acc !! k).
Proof.
  unfold _adjust_anchors. destruct (gs !! baseGlyph c) as [g|]; [|done].
  intros [= <-]. generalize (anchors g) at 1. intros all. revert acc.
  induction (anchors g) as [|a l IH]; intros acc k; simpl; [done|].
  rewrite IH. destruct (bool_decide _ && _) eqn:Hcond; [|done].
  apply andb_true_iff in Hcond as [Hin%bool_decide_eq_true _].
  destruct (decide (k = a_name a)) as [->|Hne].
  - rewrite lookup_insert_eq. split; [done|]. by eexists.
  - by rewrite lookup_insert_ne.
Qed.

Section staging.

Context (set_order : gset string → list string).

Lemma stage_anchors_keys gs composite st to_add :
  stage_anchors set_order gs composite st = Ok to_add →
  ∀ k, is_Some (to_add !! k) → staged_from gs composite (base_components st) k.
Proof.
  unfold stage_anchors. rewrite bind_Ok. intros (to_add1 & H1 & H2).
  assert (∀ k, is_Some (to_add1 !! k) → staged_from gs composite (base_components st) k)
    as Hkeys1.
  { eapply (foldM_invariant
              (λ acc, ∀ k, is_Some (acc !! k) →
                           staged_from gs composite (base_components st) k));
      [| |exact H1].
    - intros acc n acc' Hacc _ Hstep k [v Hk]. simpl in Hstep.
      destruct (existsb _ (anchors composite)) eqn:Hguard.
      + injection Hstep as <-. apply Hacc. by exists v.
      + apply _get_anchor_data_Ok in Hstep as ->.
        apply write_anchor_data_lookup in Hk as [Hk|(c & g & a & Hc & Hg & Ha & Hn & Hkn)].
        * apply Hacc. by exists v.
        * exists n, c, g, a. done.
    - intros k [v Hk]. by rewrite lookup_empty in Hk. }
  eapply (foldM_invariant
            (λ acc, ∀ k, is_Some (acc !! k) →
                         staged_from gs composite (base_components st) k));
    [|exact Hkeys1|exact H2].
  intros acc c acc' Hacc _ Hstep k Hk. apply Hacc.
  by apply (_adjust_anchors_keys _ _ _ _ Hstep).
Qed.

End staging.

Lemma elem_of_staged_anchors to_add a :
  a ∈ staged_anchors to_add ↔ to_add !! a_name a = Some (a_x a, a_y a).
Proof.
  unfold staged_anchors, sorted_items. rewrite list_elem_of_fmap. split.
  - intros ([k [x y]] & -> & Hin). rewrite merge_sort_Permutation in Hin.
    by apply elem_of_map_to_list in Hin.
  - intros Hk. exists (a_name a, (a_x a, a_y a)). split; [by destruct a|].
    rewrite merge_sort_Permutation. by apply elem_of_map_to_list.
Qed.

Lemma staged_anchors_NoDup to_add : NoDup (a_name <$> staged_anchors to_add).
Proof.
  unfold staged_anchors, sorted_items.
  assert (a_name <$> map (λ item : string * (Z * Z), mkAnchor item.1 item.2.1 item.2.2)
                         (merge_sort item_le (map_to_list to_add))
          = (merge_sort item_le (map_to_list to_add)).*1) as ->.
  { rewrite <- list_fmap_compose. done. }
  rewrite merge_sort_Permutation. apply NoDup_fst_map_to_list.
Qed.

(** ** Anchors the glyph already defines *)

Section guard.

Context (set_order : gset string → list string).

Lemma propagates_processed_inv gs key p gs' p' g :
  propagates set_order gs key p gs' p' →
  gs !! key = Some g → name g ∈ p → gs' = gs ∧ p' = p.
Proof.
  intros Hcall Hg Hin.
  inversion Hcall as [|? ? ? composite Hk Hnin|? ? ? composite ? ? ? Hk Hnin]; subst;
    [done|..]; rewrite Hg in Hk; by injection Hk as <-.
Qed.

Lemma propagates_leaf_inv gs key p gs' p' g :
  propagates set_order gs key p gs' p' →
  gs !! key = Some g → components g = [] → gs' = gs.
Proof.
  intros Hcall Hg Hc.
  inversion Hcall as [| |? ? ? composite ? ? ? Hk _ Hne]; subst; [done..|].
  rewrite Hg in Hk. by injection Hk as <-.
Qed.

(** The anchors a call appends to the glyph it is made on: none, or the
    staged ones. *)
Lemma propagates_appended gs key p gs' p' g :
  propagates set_order gs key p gs' p' → gs !! key = Some g →
  (gs' = gs)
  ∨ (∃ gs1 to_add,
       extends gs gs1 ∧ gs1 !! key = Some g
       ∧ stage_anchors set_order gs1 g (final_state gs1 p' (components g)) = Ok to_add
       ∧ gs' = <[key := mkGlyph (name g) (components g)
                          (anchors g ++ staged_anchors to_add)]> gs1).
Proof.
  intros Hcall Hg.
  destruct (decide (name g ∈ p)) as [Hin|Hnin].
  { left. by destruct (propagates_processed_inv _ _ _ _ _ _ Hcall Hg Hin). }
  destruct (components g) as [|c l] eqn:Hc.
  { left. by eapply propagates_leaf_inv. }
  right. destruct (propagates_composite_inv set_order _ _ _ _ _ _ Hcall Hg Hnin)
    as (gs1 & to_add & Hext & Hk1 & _ & _ & Hstage & ->); [by rewrite Hc|].
  rewrite <- Hc. by exists gs1, to_add.
Qed.



End guard.


(** ** Mark anchors stay where they are *)

Lemma appends_good_refl gs : appends_good gs gs.
Proof.
  intros k g Hg. exists []. rewrite app_nil_r. split; [|done]. rewrite Hg. by destruct g.
Qed.

Lemma appends_good_trans gs1 gs2 gs3 :
  appends_good gs1 gs2 → appends_good gs2 gs3 → appends_good gs1 gs3.
Proof.
  intros H12 H23 k g Hg. destruct (H12 k g Hg) as (a1 & Hg2 & Hgood1).
  destruct (H23 k _ Hg2) as (a2 & Hg3 & Hgood2). simpl in Hg3.
  exists (a1 ++ a2). rewrite app_assoc. split; [done|]. by apply Forall_app.
Qed.

Lemma appends_good_no_empty gs gs' :
  extends gs gs' → appends_good gs gs' → no_empty_anchor_name gs →
  no_empty_anchor_name gs'.
Proof.
  intros Hext Happ Hne k g' a Hg' Ha.
  destruct (extends_lookup_r _ _ _ _ Hext Hg') as (g & Hg & _).
  destruct (Happ k g Hg) as (added & Hg2 & Hgood).
  rewrite Hg' in Hg2. injection Hg2 as ->. simpl in Ha.
  apply elem_of_app in Ha as [Ha|Ha]; [by eapply Hne|].
  rewrite Forall_forall in Hgood. by destruct (Hgood a Ha).
Qed.

Lemma is_mark_glyph_false g a :
  is_mark_glyph g = false → a ∈ anchors g → startswith (a_name a) "_" = false.
Proof.
  unfold is_mark_glyph. intros Hex Hin. apply list_elem_of_In in Hin.
  destruct (startswith (a_name a) "_") eqn:Hs; [|done].
  assert (existsb (λ a, startswith (a_name a) "_") (anchors g) = true) as Ht; [|congruence].
  apply existsb_exists. by exists a.
Qed.

Lemma elem_of_bases_at gs l c :
  c ∈ bases_at gs l ↔ c ∈ l ∧ is_mark_at gs c = false.
Proof.
  unfold bases_at. rewrite !list_elem_of_In, filter_In, negb_true_iff. done.
Qed.

Lemma elem_of_marks_at gs l c :
  c ∈ marks_at gs l ↔ c ∈ l ∧ is_mark_at gs c = true.
Proof. unfold marks_at. rewrite !list_elem_of_In, filter_In. done. Qed.

(** Names staged from base components are good. *)
Lemma staged_from_good gs composite l k :
  no_empty_anchor_name gs → staged_from gs composite (bases_at gs l) k →
  k ≠ "" ∧ startswith k "_" = false.
Proof.
  intros Hne (n & c & g & a & _ & [_ Hbase]%elem_of_bases_at & Hg & Ha & Hn & Hk).
  unfold is_mark_at in Hbase. rewrite Hg in Hbase.
  pose proof (is_mark_glyph_false _ _ Hbase Ha) as Hs. rewrite Hn in Hs.
  assert (n ≠ "") as Hnn by (rewrite <- Hn; by eapply Hne).
  destruct Hk as [->|[i ->]]; [done|]. split; [apply ligature_name_nonempty|].
  unfold ligature_name. by rewrite startswith_underscore_app.
Qed.

Section no_mark_anchor.

Context (set_order : gset string → list string).

Lemma propagates_good_both :
  (∀ gs key p gs' p', propagates set_order gs key p gs' p' →
     no_empty_anchor_name gs → appends_good gs gs')
  ∧ (∀ st l st', collects set_order st l st' →
     no_empty_anchor_name (c_glyphSet st) → appends_good (c_glyphSet st) (c_glyphSet st')).
Proof.
  apply propagates_collects_ind.
  - intros. apply appends_good_refl.
  - intros. apply appends_good_refl.
  - intros gs key p composite st composite' to_add Hk Hnin Hc Hloop IH Hk' Hstage Hne.
    simpl in IH. specialize (IH Hne).
    destruct (collects_frame _ _ _ _ Hloop) as (Hext & _ & Hst). simpl in *.
    pose proof (appends_good_no_empty _ _ Hext IH Hne) as Hne1.
    destruct (collects_classified _ _ _ _ Hloop) as (Hb & _). simpl in Hb.
    eapply appends_good_trans; [exact IH|]. intros k g Hg.
    destruct (decide (k = key)) as [->|Hneq].
    + rewrite (alter_lookup_insert _ _ _ _ Hk'), lookup_insert_eq, foldl_appendAnchor.
      assert (g = composite') as -> by congruence.
      eexists. split; [done|]. apply Forall_forall. intros a Ha.
      change (a ∈ staged_anchors to_add) in Ha. apply elem_of_staged_anchors in Ha.
      eapply staged_from_good; [exact Hne1|]. rewrite <- Hb.
      eapply stage_anchors_keys; [exact Hstage|]. by eexists.
    + rewrite lookup_alter_ne by done. exists []. rewrite app_nil_r.
      split; [|done]. rewrite Hg. by destruct g.
  - intros. apply appends_good_refl.
  - intros st c rest gs1 p1 glyph st' _ Hcall IH1 _ Hrest IH2 Hne.
    rewrite classify_glyphSet in IH2. specialize (IH1 Hne).
    destruct (propagates_frame _ _ _ _ _ _ Hcall) as (Hext & _).
    eapply appends_good_trans; [exact IH1|]. apply IH2.
    by eapply appends_good_no_empty.
Qed.

End no_mark_anchor.

(** C10, amended: when no anchor of the glyph set has the empty name, a
    call of [filter] gives every glyph back with anchors appended whose
    names do not start with an underscore. *)
Theorem propagate_appends_no_mark_anchor set_order fuel ctx key ctx' b :
  no_empty_anchor_name (PropagateAnchorsFilter.glyphSet ctx) →
  PropagateAnchorsFilter.filter set_order fuel ctx key = Ok (ctx', b) →
  ∀ k g, PropagateAnchorsFilter.glyphSet ctx !! k = Some g →
    ∃ added,
      PropagateAnchorsFilter.glyphSet ctx' !! k
      = Some (mkGlyph (name g) (components g) (anchors g ++ added))
      ∧ ∀ a, a ∈ added → startswith (a_name a) "_" = false.
Proof.
  intros Hne Hrun k g Hg.
  destruct (PropagateAnchorsFilter.glyphSet ctx !! key) as [g0|] eqn:Hg0.
  2:{ unfold PropagateAnchorsFilter.filter in Hrun. by rewrite Hg0 in Hrun. }
  assert (appends_good (PropagateAnchorsFilter.glyphSet ctx)
                       (PropagateAnchorsFilter.glyphSet ctx')) as Happ.
  { destruct (propagate_filter_Ok _ _ _ _ _ _ _ Hg0 Hrun)
      as [(Hc & -> & ->)|(Hc & -> & Hcall)]; [apply appends_good_refl|].
    by eapply (proj1 (propagates_good_both set_order)). }
  destruct (Happ k g Hg) as (added & Hk & Hgood). exists added. split; [done|].
  intros a Ha. rewrite Forall_forall in Hgood. by destruct (Hgood a Ha).
Qed.

(** ** The staged positions *)

Lemma adjust_with_cons t all acc a l :
  adjust_with t all acc (a :: l) = adjust_with t all (adjust_step t all acc a) l.
Proof. done. Qed.

Lemma stage_bases_Ok gs composite bases names acc acc' :
  foldM (λ to_add anchor_name,
           if existsb (λ a, startswith (a_name a) anchor_name) (anchors composite)
           then Ok to_add
           else _get_anchor_data to_add gs bases anchor_name) acc names = Ok acc' →
  acc' = stage_bases gs composite bases acc names.
Proof.
  revert acc. induction names as [|n names IH]; intros acc; simpl.
  - by intros [= <-].
  - rewrite bind_Ok. intros (acc1 & H1 & Hrest). apply IH in Hrest as ->.
    unfold guarded. destruct (existsb _ (anchors composite)).
    + by injection H1 as <-.
    + by apply _get_anchor_data_Ok in H1 as ->.
Qed.

Lemma _adjust_anchors_Ok acc gs c acc' :
  _adjust_anchors acc gs c = Ok acc' →
  ∃ g, gs !! baseGlyph c = Some g
       ∧ acc' = adjust_with (transformation c) (anchors g) acc (anchors g).
Proof.
  unfold _adjust_anchors. destruct (gs !! baseGlyph c) as [g|]; [|done].
  intros [= <-]. by exists g.
Qed.

Lemma stage_bases_untouched gs composite bases names acc k :
  (∀ n, n ∈ names → leaves_key gs bases n k) →
  stage_bases gs composite bases acc names !! k = acc !! k.
Proof.
  revert acc. induction names as [|n names IH]; intros acc Hall; simpl; [done|].
  rewrite IH by (intros; apply Hall; by apply list_elem_of_further).
  destruct (guarded composite n); [done|]. apply Hall, list_elem_of_here.
Qed.

Lemma stage_bases_written gs composite bases names acc n k v :
  n ∈ names → guarded composite n = false →
  (∀ acc, write_anchor_data (contributors gs bases n) acc !! k = Some v) →
  (∀ n', n' ∈ names → n' ≠ n → leaves_key gs bases n' k) →
  stage_bases gs composite bases acc names !! k = Some v.
Proof.
  intros Hin Hguard Hwrite Hothers.
  assert (∀ names acc, (∀ n', n' ∈ names → n' ≠ n → leaves_key gs bases n' k) →
            acc !! k = Some v →
            stage_bases gs composite bases acc names !! k = Some v) as Hkeep.
  { clear -Hwrite. intros names. induction names as [|n0 names IH]; intros acc Hall Hacc; [done|].
    simpl. apply IH; [intros; apply Hall; [by apply list_elem_of_further|done]|].
    destruct (guarded composite n0) eqn:Hg0; [done|].
    destruct (decide (n0 = n)) as [->|Hne]; [apply Hwrite|].
    rewrite (Hall n0); [done|apply list_elem_of_here|done]. }
  revert acc Hin Hothers. induction names as [|n0 names IH]; intros acc Hin Hothers.
  { by apply elem_of_nil in Hin. }
  simpl. destruct (decide (n0 = n)) as [->|Hne].
  - rewrite Hguard. apply Hkeep; [|apply Hwrite].
    intros; apply Hothers; [by apply list_elem_of_further|done].
  - apply IH.
    + apply elem_of_cons in Hin as [->|Hin]; done.
    + intros; apply Hothers; [by apply list_elem_of_further|done].
Qed.

Lemma adjust_with_untouched t all l acc k :
  (∀ a, a ∈ l → a_name a ≠ k) → adjust_with t all acc l !! k = acc !! k.
Proof.
  revert acc. induction l as [|a l IH]; intros acc Hall; [done|].
  rewrite adjust_with_cons, IH by (intros; apply Hall; by apply list_elem_of_further).
  unfold adjust_step. destruct (_ && _); [|done]. rewrite lookup_insert_ne; [done|].
  apply Hall, list_elem_of_here.
Qed.

Lemma adjust_with_None t all l acc k :
  acc !! k = None → adjust_with t all acc l !! k = None.
Proof.
  revert acc. induction l as [|a l IH]; intros acc Hacc; [done|].
  rewrite adjust_with_cons. apply IH. unfold adjust_step.
  destruct (bool_decide _ && _) eqn:Hcond; [|done].
  apply andb_true_iff in Hcond as [[v Hv]%bool_decide_eq_true _].
  rewrite lookup_insert_ne; [done|]. intros Heq. rewrite Heq in Hv. congruence.
Qed.

(** A mark glyph that has [k] and [_k], every [k] of it at the same
    place, moves a staged [k] to that place. *)
Lemma adjust_with_moved t all l acc k v0 x y :
  acc !! k = Some v0 →
  existsb (λ a, bool_decide (a_name a = "_" +:+ k)) all = true →
  (∃ a, a ∈ l ∧ a_name a = k) →
  (∀ a, a ∈ l → a_name a = k → (a_x a, a_y a) = (x, y)) →
  adjust_with t all acc l !! k = Some (transformPoint t (x, y)).
Proof.
  intros Hacc Hmark Hex Hpos.
  assert (∀ l acc, (∀ a, a ∈ l → a_name a = k → (a_x a, a_y a) = (x, y)) →
            acc !! k = Some (transformPoint t (x, y)) →
            adjust_with t all acc l !! k = Some (transformPoint t (x, y))) as Hkeep.
  { clear -Hmark. intros l. induction l as [|a l IH]; intros acc Hpos Hacc; [done|].
    rewrite adjust_with_cons.
    apply IH; [intros; apply Hpos; [by apply list_elem_of_further|done]|].
    unfold adjust_step. destruct (_ && _); [|done].
    destruct (decide (a_name a = k)) as [Hk|Hk].
    - rewrite Hk, lookup_insert_eq. f_equal. f_equal. apply Hpos; [apply list_elem_of_here|done].
    - by rewrite lookup_insert_ne. }
  revert acc v0 Hacc. induction l as [|a l IH]; intros acc v0 Hacc.
  { destruct Hex as (a & []%elem_of_nil & _). }
  rewrite adjust_with_cons. destruct (decide (a_name a = k)) as [Hk|Hk].
  - apply Hkeep; [intros; apply Hpos; [by apply list_elem_of_further|done]|].
    unfold adjust_step. rewrite Hk, Hmark, andb_true_r, bool_decide_true by (by eexists).
    rewrite lookup_insert_eq. f_equal. f_equal. apply Hpos; [apply list_elem_of_here|done].
  - destruct Hex as (a' & [->|Hin]%elem_of_cons & Hk'); [done|].
    assert (adjust_step t all acc a !! k = Some v0) as Hstep.
    { unfold adjust_step. destruct (_ && _); [|done]. by rewrite lookup_insert_ne. }
    eapply IH; [eauto | intros; apply Hpos; [by apply list_elem_of_further|done] | exact Hstep].
Qed.

(** Every pair gathered for [n] has an anchor named [n]. *)
Lemma contributors_names gs bases n :
  Forall (λ ac, a_name ac.1 = n) (contributors gs bases n).
Proof.
  apply Forall_forall. intros [a c] Hin.
  by apply contributors_elem in Hin as (_ & g & _ & _ & Hn).
Qed.

Lemma ligature_data_untouched i l acc k :
  (∀ j a c, (a, c) ∈ l → ligature_name (a_name a) j ≠ k) →
  ligature_data i l acc !! k = acc !! k.
Proof.
  revert i acc. induction l as [|[a c] l IH]; intros i acc Hall; simpl; [done|].
  rewrite IH by (intros; eapply Hall; by apply list_elem_of_further).
  rewrite lookup_insert_ne; [done|]. eapply Hall, list_elem_of_here.
Qed.

Lemma leaves_key_intro gs bases n k :
  (n = k → contributors gs bases n = []) →
  (∀ j, ligature_name n j ≠ k) →
  leaves_key gs bases n k.
Proof.
  intros Hsingle Hlig acc. unfold write_anchor_data.
  pose proof (contributors_names gs bases n) as Hnames.
  destruct (decide _) as [Hlen|Hlen].
  - apply ligature_data_untouched. intros j a c Hin.
    rewrite Forall_forall in Hnames. specialize (Hnames _ Hin). simpl in Hnames.
    rewrite Hnames. apply Hlig.
  - destruct (contributors gs bases n) as [|[a c] l] eqn:Hl; [done|].
    apply Forall_cons in Hnames as [Hn _]. simpl in Hn.
    rewrite lookup_insert_ne; [done|]. rewrite Hn. intros ->. by specialize (Hsingle eq_refl).
Qed.

(** ** The names [top], [top_1] and [top_2] *)

Lemma ligature_name_top_0 : ligature_name "top" 0 = "top_1".
Proof. reflexivity. Qed.

Lemma ligature_name_top_1 : ligature_name "top" 1 = "top_2".
Proof. reflexivity. Qed.

Lemma ligature_name_eq_top_1 n j : ligature_name n j = "top_1" → n = "top".
Proof.
  unfold ligature_name.
  destruct n as [|a1 [|a2 [|a3 [|a4 [|a5 [|a6 n]]]]]];
    rewrite ?append_cons, ?append_nil; intros H; simplify_eq; try done.
  all: destruct (pretty (j + 1)%nat); simplify_eq.
Qed.

Lemma ligature_name_eq_top_2 n j : ligature_name n j = "top_2" → n = "top".
Proof.
  unfold ligature_name.
  destruct n as [|a1 [|a2 [|a3 [|a4 [|a5 [|a6 n]]]]]];
    rewrite ?append_cons, ?append_nil; intros H; simplify_eq; try done.
  all: destruct (pretty (j + 1)%nat); simplify_eq.
Qed.

Lemma ligature_name_ne_top n j : ligature_name n j ≠ "top".
Proof.
  unfold ligature_name.
  destruct n as [|a1 [|a2 [|a3 [|a4 n]]]];
    rewrite ?append_cons, ?append_nil; intros H; simplify_eq.
Qed.

(** ** A call on a composite glyph, read on the glyph set it returns *)

Section view.

Context (set_order : gset string → list string).

(** [view]: the glyph set the call returns, with the glyph itself as it
    was before its anchors were appended; this is the glyph set from which
    lines 73-89 read the components' glyphs. *)
Lemma propagate_filter_view fuel ctx key g ctx' b :
  PropagateAnchorsFilter.glyphSet ctx !! key = Some g →
  name g ∉ PropagateAnchorsFilter.processed ctx →
  components g ≠ [] →
  PropagateAnchorsFilter.filter set_order fuel ctx key = Ok (ctx', b) →
  let view := <[key := g]> (PropagateAnchorsFilter.glyphSet ctx') in
  ∃ to_add,
    Forall (λ c, is_Some (view !! baseGlyph c)) (components g)
    ∧ stage_anchors set_order view g
        (final_state view (PropagateAnchorsFilter.processed ctx') (components g)) = Ok to_add
    ∧ PropagateAnchorsFilter.glyphSet ctx' !! key
      = Some (mkGlyph (name g) (components g) (anchors g ++ staged_anchors to_add)).
Proof.
  intros Hg Hnin Hne Hrun view.
  destruct (propagate_filter_Ok _ _ _ _ _ _ _ Hg Hrun)
    as [(Hc & _)|(_ & -> & Hcall)]; [done|].
  destruct (propagates_composite_inv _ _ _ _ _ _ _ Hcall Hg Hnin Hne)
    as (gs1 & to_add & _ & Hk1 & Hres & _ & Hstage & Heq).
  assert (view = gs1) as ->.
  { unfold view. rewrite Heq, insert_insert_eq. by apply insert_id. }
  exists to_add. split_and!; [done..|]. rewrite Heq. apply lookup_insert_eq.
Qed.

(** The staging, as two folds, once every component is found. *)
Lemma stage_anchors_Ok gs composite st to_add :
  stage_anchors set_order gs composite st = Ok to_add →
  foldM (λ to_add component, _adjust_anchors to_add gs component)
        (stage_bases gs composite (base_components st) ∅ (set_order (anchor_names st)))
        (mark_components st) = Ok to_add.
Proof.
  unfold stage_anchors. rewrite bind_Ok. intros (to_add1 & H1 & H2).
  by apply stage_bases_Ok in H1 as ->.
Qed.

End view.

Lemma adjust_marks_untouched gs marks acc acc' k :
  foldM (λ to_add component, _adjust_anchors to_add gs component) acc marks = Ok acc' →
  (∀ c g a, c ∈ marks → gs !! baseGlyph c = Some g → a ∈ anchors g → a_name a ≠ k) →
  acc' !! k = acc !! k.
Proof.
  revert acc. induction marks as [|c marks IH]; intros acc; simpl.
  - by intros [= <-].
  - rewrite bind_Ok. intros (acc1 & H1 & Hrest) Hall.
    rewrite (IH _ Hrest) by (intros; eapply Hall; [by apply list_elem_of_further|done..]).
    apply _adjust_anchors_Ok in H1 as (g & Hg & ->).
    apply adjust_with_untouched. intros a Ha. eapply Hall; [apply list_elem_of_here|done..].
Qed.

Lemma adjust_marks_None gs marks acc acc' k :
  foldM (λ to_add component, _adjust_anchors to_add gs component) acc marks = Ok acc' →
  acc !! k = None → acc' !! k = None.
Proof.
  revert acc. induction marks as [|c marks IH]; intros acc; simpl.
  - by intros [= <-].
  - rewrite bind_Ok. intros (acc1 & H1 & Hrest) Hacc. apply (IH _ Hrest).
    apply _adjust_anchors_Ok in H1 as (g & Hg & ->). by apply adjust_with_None.
Qed.

Lemma elem_of_anchor_name_set g n :
  n ∈ anchor_name_set g ↔ ∃ a, a ∈ anchors g ∧ a_name a = n.
Proof.
  unfold anchor_name_set. rewrite elem_of_list_to_set, list_elem_of_fmap. naive_solver.
Qed.

Lemma elem_of_collected_names gs l n :
  n ∈ collected_names gs l ↔
  ∃ c g a, c ∈ l ∧ gs !! baseGlyph c = Some g ∧ a ∈ anchors g ∧ a_name a = n.
Proof.
  unfold collected_names. rewrite elem_of_union_list. split.
  - intros (X & HX & Hn). apply list_elem_of_fmap in HX as (c & -> & Hc).
    destruct (gs !! baseGlyph c) as [g|] eqn:Hg; [|set_solver].
    apply elem_of_anchor_name_set in Hn as (a & Ha & Hna). by exists c, g, a.
  - intros (c & g & a & Hc & Hg & Ha & Hn). eexists. split.
    + apply list_elem_of_fmap. by exists c.
    + simpl. rewrite Hg. apply elem_of_anchor_name_set. by exists a.
Qed.

(** ** Ligatures and marks *)

Section ligature.

Context (set_order : gset string → list string).
Hypothesis set_order_perm : ∀ s, set_order s ≡ₚ elements s.

Lemma guarded_false composite n :
  (∀ e, e ∈ anchors composite → startswith (a_name e) n = false) →
  guarded composite n = false.
Proof.
  intros Hall. unfold guarded. destruct (existsb _ _) eqn:Hex; [|done].
  apply existsb_exists in Hex as (e & Hin%list_elem_of_In & Hs).
  by rewrite (Hall e Hin) in Hs.
Qed.

Lemma stage_ligature_top gs g p comps c1 c2 X1 X2 a1 a2 to_add :
  bases_at gs comps = [c1; c2] →
  gs !! baseGlyph c1 = Some X1 → first_anchor_named "top" (anchors X1) = Some a1 →
  gs !! baseGlyph c2 = Some X2 → first_anchor_named "top" (anchors X2) = Some a2 →
  (∀ c X a, c ∈ comps → gs !! baseGlyph c = Some X → a ∈ anchors X →
            a_name a ≠ "top_1" ∧ a_name a ≠ "top_2") →
  (∀ e, e ∈ anchors g → startswith (a_name e) "top" = false) →
  stage_anchors set_order gs g (final_state gs p comps) = Ok to_add →
  to_add !! "top_1" = Some (placed c1 a1)
  ∧ to_add !! "top_2" = Some (placed c2 a2)
  ∧ to_add !! "top" = None.
Proof.
  intros Hbases HX1 Ha1 HX2 Ha2 Hfree Hown Hstage.
  apply stage_anchors_Ok in Hstage. simpl in Hstage. rewrite Hbases in Hstage.
  destruct (first_anchor_named_Some _ _ _ Ha1) as [Hin1 Hn1].
  destruct (first_anchor_named_Some _ _ _ Ha2) as [Hin2 Hn2].
  assert (contributors gs [c1; c2] "top" = [(a1, c1); (a2, c2)]) as Hcontr.
  { unfold contributors. simpl. rewrite HX1, HX2. simpl. by rewrite Ha1, Ha2. }
  assert (∀ c, c ∈ [c1; c2] → c ∈ comps) as Hsub.
  { intros c Hc. rewrite <- Hbases in Hc. by apply elem_of_bases_at in Hc as [? _]. }
  assert ("top" ∈ set_order (collected_names gs [c1; c2])) as Htop.
  { rewrite set_order_perm, elem_of_elements. apply elem_of_collected_names.
    exists c1, X1, a1. split_and!; [apply list_elem_of_here|done..]. }
  pose proof (guarded_false _ _ Hown) as Hguard.
  assert (∀ k, k = "top_1" ∨ k = "top_2" →
            ∀ n', n' ≠ "top" → leaves_key gs [c1; c2] n' k) as Hothers.
  { intros k Hk n' Hn'. apply leaves_key_intro.
    - intros ->. destruct (contributors gs [c1; c2] k) as [|[a c] l] eqn:Hl; [done|].
      assert ((a, c) ∈ contributors gs [c1; c2] k) as Hin by (rewrite Hl; apply list_elem_of_here).
      apply contributors_elem in Hin as (Hc & X & HX & Ha & Hn).
      destruct (Hfree c X a (Hsub c Hc) HX Ha). destruct Hk; congruence.
    - intros j Hj. apply Hn'. destruct Hk as [-> | ->];
        [by eapply ligature_name_eq_top_1 | by eapply ligature_name_eq_top_2]. }
  assert (∀ acc, write_anchor_data (contributors gs [c1; c2] "top") acc
                 = <["top_2" := placed c2 a2]> (<["top_1" := placed c1 a1]> acc)) as Hwrite.
  { intros acc. rewrite Hcontr. unfold write_anchor_data. simpl.
    rewrite Hn1, Hn2. done. }
  split_and!.
  - rewrite (adjust_marks_untouched _ _ _ _ _ Hstage).
    + apply stage_bases_written with (n := "top"); [done..| |].
      * intros acc. rewrite Hwrite. rewrite lookup_insert_ne by done.
        apply lookup_insert_eq.
      * intros n' _ Hn'. apply Hothers; [by left | done].
    + intros c X a [Hc _]%elem_of_marks_at HX Ha. by destruct (Hfree c X a Hc HX Ha).
  - rewrite (adjust_marks_untouched _ _ _ _ _ Hstage).
    + apply stage_bases_written with (n := "top"); [done..| |].
      * intros acc. rewrite Hwrite. apply lookup_insert_eq.
      * intros n' _ Hn'. apply Hothers; [by right | done].
    + intros c X a [Hc _]%elem_of_marks_at HX Ha. by destruct (Hfree c X a Hc HX Ha).
  - apply (adjust_marks_None _ _ _ _ _ Hstage).
    rewrite stage_bases_untouched; [apply lookup_empty|].
    intros n _. destruct (decide (n = "top")) as [->|Hn].
    + intros acc. rewrite Hwrite. by rewrite !lookup_insert_ne.
    + apply leaves_key_intro; [done|]. intros j. apply ligature_name_ne_top.
Qed.

Lemma stage_mark_top gs g p comps cX cM X M aX aM to_add :
  bases_at gs comps = [cX] → marks_at gs comps = [cM] →
  gs !! baseGlyph cX = Some X → first_anchor_named "top" (anchors X) = Some aX →
  gs !! baseGlyph cM = Some M →
  (∃ a, a ∈ anchors M ∧ a_name a = "_top") →
  aM ∈ anchors M → a_name aM = "top" →
  (∀ a, a ∈ anchors M → a_name a = "top" → (a_x a, a_y a) = (a_x aM, a_y aM)) →
  (∀ e, e ∈ anchors g → startswith (a_name e) "top" = false) →
  stage_anchors set_order gs g (final_state gs p comps) = Ok to_add →
  to_add !! "top" = Some (placed cM aM).
Proof.
  intros Hbases Hmarks HX HaX HM (aU & HaU & HnU) HaM HnM Hpos Hown Hstage.
  apply stage_anchors_Ok in Hstage. simpl in Hstage. rewrite Hbases, Hmarks in Hstage.
  simpl in Hstage. apply bind_Ok in Hstage as (to_add' & Hadj & [= <-]).
  apply _adjust_anchors_Ok in Hadj as (M' & HM' & ->).
  rewrite HM in HM'. injection HM' as <-.
  destruct (first_anchor_named_Some _ _ _ HaX) as [HinX HnX].
  assert (contributors gs [cX] "top" = [(aX, cX)]) as Hcontr.
  { unfold contributors. simpl. rewrite HX. simpl. by rewrite HaX. }
  assert ("top" ∈ set_order (collected_names gs [cX])) as Htop.
  { rewrite set_order_perm, elem_of_elements. apply elem_of_collected_names.
    exists cX, X, aX. split_and!; [apply list_elem_of_here|done..]. }
  eapply adjust_with_moved.
  - apply stage_bases_written with (n := "top"); [done|by apply guarded_false| |].
    + intros acc. rewrite Hcontr. unfold write_anchor_data. simpl. rewrite HnX.
      apply lookup_insert_eq.
    + intros n' _ Hn'. apply leaves_key_intro; [done|]. intros j. apply ligature_name_ne_top.
  - apply existsb_exists. exists aU. split; [by apply list_elem_of_In|].
    apply bool_decide_eq_true. by rewrite HnU.
  - by exists aM.
  - done.
Qed.

End ligature.

(** ** Failures of the propagator *)

Lemma elem_of_glyph_names gs n :
  n ∈ glyph_names gs ↔ ∃ k g, gs !! k = Some g ∧ name g = n.
Proof.
  unfold glyph_names. rewrite elem_of_map_img. split.
  - intros (k & Hk). rewrite lookup_fmap in Hk.
    destruct (gs !! k) as [g|] eqn:Hg; [|done]. injection Hk as <-. by exists k, g.
  - intros (k & g & Hg & <-). exists k. by rewrite lookup_fmap, Hg.
Qed.

Lemma glyph_names_extends gs gs' : extends gs gs' → glyph_names gs' = glyph_names gs.
Proof.
  intros Hext. apply set_eq. intros n. rewrite !elem_of_glyph_names. split.
  - intros (k & g' & Hg' & <-).
    destruct (extends_lookup_r _ _ _ _ Hext Hg') as (g & Hg & Hn & _). by exists k, g.
  - intros (k & g & Hg & <-).
    destruct (extends_lookup _ _ _ _ Hext Hg) as (g' & Hg' & Hn & _). by exists k, g'.
Qed.

Lemma foldM_fails {A B} (I : B → Prop) (f : B → A → result B) l b res :
  foldM f b l = res → (∀ x, res ≠ Ok x) → I b →
  (∀ b a b', I b → a ∈ l → f b a = Ok b' → I b') →
  ∃ b0 a, I b0 ∧ a ∈ l ∧ same_failure (f b0 a) res.
Proof.
  revert b. induction l as [|a l IH]; intros b; simpl.
  - intros <- Hno. by edestruct Hno.
  - destruct (f b a) as [b1| |] eqn:Hf; simpl.
    + intros Hres Hno Hb Hstep.
      destruct (IH b1 Hres Hno) as (b0 & a0 & Hb0 & Ha0 & Hfail).
      * eapply Hstep; [done|apply list_elem_of_here|done].
      * intros ? ? ? ? ?. apply Hstep; [done|]. by apply list_elem_of_further.
      * exists b0, a0. split_and!; [done| by apply list_elem_of_further | done].
    + intros <- _ Hb _. exists b, a. rewrite Hf. split_and!; [done|apply list_elem_of_here|done].
    + intros <- _ Hb _. exists b, a. rewrite Hf. split_and!; [done|apply list_elem_of_here|done].
Qed.

(** The staging fails for one reason only: a component whose glyph the
    glyph set does not hold. *)
Lemma collect_anchors_fails gs comps n res :
  collect_anchors gs comps n = res → (∀ x, res ≠ Ok x) →
  ∃ c, c ∈ comps ∧ gs !! baseGlyph c = None ∧ res = Raise (KeyError (baseGlyph c)).
Proof.
  revert res. induction comps as [|c comps IH]; intros res; simpl.
  - intros <- Hno. by edestruct Hno.
  - destruct (gs !! baseGlyph c) as [g|] eqn:Hg.
    + destruct (collect_anchors gs comps n) as [l| |] eqn:Hl; simpl.
      * intros <- Hno. by edestruct Hno.
      * intros <- _. destruct (IH _ eq_refl) as (c' & Hc' & Hn' & Heq); [done|].
        exists c'. split_and!; [by apply list_elem_of_further|done..].
      * intros <- _. destruct (IH _ eq_refl) as (c' & Hc' & Hn' & Heq); [done|]. done.
    + intros <- _. exists c. split_and!; [apply list_elem_of_here|done..].
Qed.

Lemma _get_anchor_data_fails acc gs comps n res :
  _get_anchor_data acc gs comps n = res → (∀ x, res ≠ Ok x) →
  ∃ c, c ∈ comps ∧ gs !! baseGlyph c = None ∧ res = Raise (KeyError (baseGlyph c)).
Proof.
  unfold _get_anchor_data.
  destruct (collect_anchors gs comps n) as [l| |] eqn:Hl; simpl.
  - intros <- Hno. exfalso. destruct (decide _); [by edestruct Hno|].
    destruct l as [|[a c] l]; by edestruct Hno.
  - intros <- _. destruct (collect_anchors_fails _ _ _ _ Hl) as (c & ? & ? & [= ->]); [done|].
    by exists c.
  - intros <- _. by destruct (collect_anchors_fails _ _ _ _ Hl) as (c & ? & ? & ?).
Qed.

Lemma _adjust_anchors_fails acc gs c res :
  _adjust_anchors acc gs c = res → (∀ x, res ≠ Ok x) →
  gs !! baseGlyph c = None ∧ res = Raise (KeyError (baseGlyph c)).
Proof.
  unfold _adjust_anchors. destruct (gs !! baseGlyph c) as [g|]; [|by intros <-].
  intros <- Hno. by edestruct Hno.
Qed.

Lemma stage_anchors_fails set_order gs composite st res :
  stage_anchors set_order gs composite st = res → (∀ x, res ≠ Ok x) →
  ∃ c, (c ∈ base_components st ∨ c ∈ mark_components st)
       ∧ gs !! baseGlyph c = None ∧ res = Raise (KeyError (baseGlyph c)).
Proof.
  unfold stage_anchors.
  destruct (foldM _ ∅ (set_order (anchor_names st))) as [to_add1| |] eqn:H1; simpl.
  - intros H2 Hno.
    destruct (foldM_fails (λ _, True) _ _ _ _ H2 Hno I ltac:(done)) as (acc & c & _ & Hc & Hf).
    destruct (_adjust_anchors acc gs c) as [| |] eqn:Hadj; try done;
      destruct (_adjust_anchors_fails _ _ _ _ Hadj ltac:(done)) as [Hn Heq]; [|done].
    injection Heq as ->. destruct res; try done. simpl in Hf. subst.
    exists c. split_and!; [by right|done..].
  - intros <- _.
    destruct (foldM_fails (λ _, True) _ _ _ _ H1 ltac:(done) I ltac:(done))
      as (acc & n & _ & _ & Hf).
    simpl in Hf. destruct (existsb _ (anchors composite)); [done|].
    destruct (_get_anchor_data acc gs (base_components st) n) as [| |] eqn:Hget; try done.
    destruct (_get_anchor_data_fails _ _ _ _ _ Hget ltac:(done)) as (c & Hc & Hn & Heq).
    injection Heq as ->. simpl in Hf. subst. exists c. split_and!; [by left|done..].
  - intros <- _.
    destruct (foldM_fails (λ _, True) _ _ _ _ H1 ltac:(done) I ltac:(done))
      as (acc & n & _ & _ & Hf).
    simpl in Hf. destruct (existsb _ (anchors composite)); [done|].
    destruct (_get_anchor_data acc gs (base_components st) n) as [| |] eqn:Hget; try done.
    by destruct (_get_anchor_data_fails _ _ _ _ _ Hget ltac:(done)) as (c & Hc & Hn & Heq).
Qed.

Section propagate_fails.

Context (set_order : gset string → list string).

Lemma component_step_Ok rec st c st' :
  component_step rec st c = Ok st' →
  ∃ gs1 p1 glyph,
    is_Some (c_glyphSet st !! baseGlyph c)
    ∧ rec (c_glyphSet st) (baseGlyph c) (c_processed st) = Ok (gs1, p1)
    ∧ gs1 !! baseGlyph c = Some glyph
    ∧ st' = classify st gs1 p1 c glyph.
Proof.
  unfold component_step. destruct (c_glyphSet st !! baseGlyph c) as [g0|] eqn:Hg0; [|done].
  rewrite bind_Ok. intros ([gs1 p1] & Hcall & Hrest). simpl in Hrest.
  destruct (gs1 !! baseGlyph c) as [glyph|] eqn:Hglyph; [|done].
  injection Hrest as <-. by exists gs1, p1, glyph.
Qed.

Lemma component_step_fails rec st c res :
  component_step rec st c = res → (∀ x, res ≠ Ok x) →
  (c_glyphSet st !! baseGlyph c = None ∧ res = Raise (KeyError (baseGlyph c)))
  ∨ same_failure (rec (c_glyphSet st) (baseGlyph c) (c_processed st)) res
  ∨ (∃ gs1 p1, rec (c_glyphSet st) (baseGlyph c) (c_processed st) = Ok (gs1, p1)
               ∧ gs1 !! baseGlyph c = None ∧ res = Raise (KeyError (baseGlyph c))).
Proof.
  unfold component_step. destruct (c_glyphSet st !! baseGlyph c) as [g0|] eqn:Hg0.
  2:{ intros <- _. by left. }
  destruct (rec _ _ _) as [[gs1 p1]| |] eqn:Hcall; simpl.
  - destruct (gs1 !! baseGlyph c) as [glyph|] eqn:Hglyph.
    + intros <- Hno. by edestruct Hno.
    + intros <- _. right. right. by exists gs1, p1.
  - intros <- _. right. by left.
  - intros <- _. right. by left.
Qed.

Lemma loop_invariant_step fuel gs p0 st c st' :
  loop_invariant gs p0 st →
  component_step (_propagate_glyph_anchors set_order fuel) st c = Ok st' →
  loop_invariant gs p0 st'.
Proof.
  intros [Hext Hsub] (gs1 & p1 & glyph & _ & Hcall & _ & ->)%component_step_Ok.
  apply propagate_sound, propagates_frame in Hcall as (Hext1 & Hsub1 & _).
  unfold loop_invariant. rewrite classify_glyphSet, classify_processed.
  split; [by eapply extends_trans | set_solver].
Qed.

Lemma unprocessed_size (names p p' : gset string) n f :
  n ∈ names → n ∉ p → p ∪ {[n]} ⊆ p' →
  (size (names ∖ p) ≤ S f)%nat → (size (names ∖ p') ≤ f)%nat.
Proof.
  intros Hn Hnp Hsub Hsize.
  assert (names ∖ p' ⊂ names ∖ p) as Hlt.
  { split.
    - intros x [Hx Hxp]%elem_of_difference. apply elem_of_difference. split; [done|].
      intros Hp. apply Hxp, Hsub, elem_of_union. by left.
    - intros Hback.
      assert (n ∈ names ∖ p) as Hin by (by apply elem_of_difference).
      apply Hback, elem_of_difference in Hin as [_ Hin]. apply Hin, Hsub, elem_of_union.
      right. by apply elem_of_singleton. }
  apply subset_size in Hlt. lia.
Qed.

(** With fuel for the glyphs not yet processed, a call never runs out. *)
Lemma propagate_terminates fuel gs key p :
  (size (glyph_names gs ∖ p) ≤ fuel)%nat →
  _propagate_glyph_anchors set_order fuel gs key p ≠ OutOfFuel.
Proof.
  revert gs key p. induction fuel as [|fuel IH]; intros gs key p Hsize;
    rewrite _propagate_glyph_anchors_unfold;
    destruct (gs !! key) as [composite|] eqn:Hk; try done;
    (destruct (decide (name composite ∈ p)) as [|Hnin]; [done|]);
    destruct (components composite) as [|c0 l0] eqn:Hc; try done.
  - intros _. assert (name composite ∈ glyph_names gs ∖ p) as Hin.
    { apply elem_of_difference. split; [|done]. apply elem_of_glyph_names. by exists key, composite. }
    assert (size (glyph_names gs ∖ p) ≠ 0%nat) as Hnz; [|lia].
    intros Hz%size_empty_inv. by apply Hz in Hin.
  - destruct (foldM _ _ (c0 :: l0)) as [st| |] eqn:Hloop; simpl; [|done|].
    + destruct (c_glyphSet st !! key) as [composite'|]; [|done].
      destruct (stage_anchors _ _ _ _) as [| |] eqn:Hstage; simpl; [done..|].
      by destruct (stage_anchors_fails _ _ _ _ _ Hstage ltac:(done)) as (? & _ & _ & ?).
    + intros _.
      destruct (foldM_fails (loop_invariant gs (p ∪ {[name composite]})) _ _ _ _
                  Hloop ltac:(done))
        as (st & c & [Hext Hsub] & _ & Hf);
        [split; [apply extends_refl|done] | intros; by eapply loop_invariant_step |].
      destruct (component_step _ st c) as [| |] eqn:Hstep; try done.
      destruct (component_step_fails _ _ _ _ Hstep ltac:(done))
        as [[_ ?]|[Hcall|(? & ? & _ & _ & ?)]]; [done| |done].
      destruct (_propagate_glyph_anchors set_order fuel _ _ _) eqn:Hrec; try done.
      revert Hrec. apply IH. rewrite (glyph_names_extends _ _ Hext).
      eapply (unprocessed_size _ p _ (name composite)); [|done..].
      apply elem_of_glyph_names. by exists key, composite.
Qed.

(** A call raises for one reason only: the name it was called on, or the
    name of a component of some glyph, that the glyph set does not hold. *)
Lemma propagate_Raise fuel gs key p e :
  _propagate_glyph_anchors set_order fuel gs key p = Raise e →
  ∃ n, e = KeyError n ∧ gs !! n = None ∧ (n = key ∨ ∃ k, refs gs k n).
Proof.
  revert gs key p e. induction fuel as [|fuel IH]; intros gs key p e;
    rewrite _propagate_glyph_anchors_unfold;
    destruct (gs !! key) as [composite|] eqn:Hk;
    try (intros [= <-]; exists key; by eauto);
    (destruct (decide (name composite ∈ p)) as [|Hnin]; [done|]);
    destruct (components composite) as [|c0 l0] eqn:Hc; try done.
  rewrite <- Hc.
  destruct (foldM _ _ (components composite)) as [st| |] eqn:Hloop; simpl; [| |done].
  - pose proof (component_loop_sound set_order _ _ (propagate_sound set_order fuel) _ _ Hloop)
      as Hcollects.
    destruct (collects_frame _ _ _ _ Hcollects) as (Hext & _). simpl in Hext.
    destruct (collects_classified _ _ _ _ Hcollects) as (Hb & Hm & _). simpl in Hb, Hm.
    destruct (extends_lookup _ _ _ _ Hext Hk) as (composite' & -> & _).
    destruct (stage_anchors _ _ _ _) as [| |] eqn:Hstage; simpl; [done| |done].
    intros [= ->].
    destruct (stage_anchors_fails _ _ _ _ _ Hstage ltac:(done)) as (c & Hin & Hn & [= ->]).
    exists (baseGlyph c). split_and!; [done|by eapply extends_lookup_None|].
    right. exists key, composite, c. split_and!; [done| |done].
    rewrite Hb, Hm in Hin.
    destruct Hin as [[? _]%elem_of_bases_at|[? _]%elem_of_marks_at]; done.
  - intros [= ->].
    destruct (foldM_fails (loop_invariant gs (p ∪ {[name composite]})) _ _ _ _
                Hloop ltac:(done))
      as (st & c & [Hext Hsub] & Hc' & Hf);
      [split; [apply extends_refl|done] | intros; by eapply loop_invariant_step |].
    assert (refs gs key (baseGlyph c)) as Hrefs by (by exists composite, c).
    destruct (component_step _ st c) as [|e'|] eqn:Hstep; try done. simpl in Hf. subst e'.
    destruct (component_step_fails _ _ _ _ Hstep ltac:(done))
      as [[Hn [= ->]]|[Hcall|(gs1 & p1 & Hcall & Hn & [= ->])]].
    + exists (baseGlyph c). split_and!; [done|by eapply extends_lookup_None|eauto].
    + destruct (_propagate_glyph_anchors set_order fuel _ _ _) as [|e'|] eqn:Hrec; try done.
      simpl in Hcall. subst e'. apply IH in Hrec as (n & -> & Hn & Hwhere).
      exists n. split_and!; [done|by eapply extends_lookup_None|]. right.
      destruct Hwhere as [->|(k & Hkn)]; [by exists key|].
      exists k. by eapply refs_extends.
    + apply propagate_sound, propagates_frame in Hcall as (Hext1 & _).
      exists (baseGlyph c). split_and!; [done| |eauto].
      eapply extends_lookup_None; [exact Hext|]. by eapply extends_lookup_None.
Qed.

(** On a resolvable glyph set, with fuel for the glyphs not yet
    processed, a call on a glyph of the set returns. *)
Lemma propagate_total fuel gs key p :
  resolvable gs → is_Some (gs !! key) →
  (size (glyph_names gs ∖ p) ≤ fuel)%nat →
  ∃ gs' p', _propagate_glyph_anchors set_order fuel gs key p = Ok (gs', p').
Proof.
  intros Hres Hkey Hsize.
  destruct (_propagate_glyph_anchors set_order fuel gs key p) as [[gs' p']|e|] eqn:Hrun.
  - by exists gs', p'.
  - apply propagate_Raise in Hrun as (n & _ & Hn & [->|(k & Hk)]).
    + rewrite Hn in Hkey. by destruct Hkey.
    + apply Hres in Hk. rewrite Hn in Hk. by destruct Hk.
  - by apply propagate_terminates in Hrun.
Qed.

Lemma propagate_filter_total fuel ctx key :
  resolvable (PropagateAnchorsFilter.glyphSet ctx) →
  is_Some (PropagateAnchorsFilter.glyphSet ctx !! key) →
  (size (glyph_names (PropagateAnchorsFilter.glyphSet ctx)
         ∖ PropagateAnchorsFilter.processed ctx) ≤ fuel)%nat →
  ∃ ctx' b, PropagateAnchorsFilter.filter set_order fuel ctx key = Ok (ctx', b).
Proof.
  intros Hres [g Hg] Hsize. unfold PropagateAnchorsFilter.filter. rewrite Hg.
  destruct (components g); [by eexists _, _|].
  destruct (propagate_total fuel _ key _ Hres ltac:(by eexists) Hsize) as (gs' & p' & ->).
  by eexists _, _.
Qed.

End propagate_fails.

(** ** Dangling references in the propagator *)

Lemma store_wf_extends gs gs' : extends gs gs' → store_wf gs → store_wf gs'.
Proof.
  intros Hext Hwf k g' Hg'.
  destruct (extends_lookup_r _ _ _ _ Hext Hg') as (g & Hg & Hn & _).
  rewrite Hn. by apply Hwf.
Qed.


Section closure.

Context (set_order : gset string → list string).

Lemma propagates_closed_both :
  (∀ gs key p gs' p', propagates set_order gs key p gs' p' →
     store_wf gs → closed_since gs p p')
  ∧ (∀ st l st', collects set_order st l st' →
     store_wf (c_glyphSet st) →
     closed_since (c_glyphSet st) (c_processed st) (c_processed st')
     ∧ ∀ c, c ∈ l → ∃ g2, c_glyphSet st !! baseGlyph c = Some g2
                          ∧ name g2 ∈ c_processed st').
Proof.
  apply propagates_collects_ind.
  - intros gs key p composite _ _ _ k g _ Hin Hnin. done.
  - intros gs key p composite Hk Hnin Hc Hwf k g Hg Hin Hnp c Hcin.
    apply elem_of_union in Hin as [?|Hin%elem_of_singleton]; [done|].
    assert (k = key) as -> by (rewrite <- (Hwf _ _ Hg), Hin; by apply Hwf).
    rewrite Hk in Hg. injection Hg as <-. rewrite Hc in Hcin. by apply elem_of_nil in Hcin.
  - intros gs key p composite st composite' to_add Hk Hnin Hc _ IH _ _ Hwf.
    simpl in IH. destruct (IH Hwf) as [Hclosed Hcomps].
    intros k g Hg Hin Hnp c Hcin.
    destruct (decide (name g = name composite)) as [Heq|Hne].
    + assert (k = key) as -> by (rewrite <- (Hwf _ _ Hg), Heq; by apply Hwf).
      rewrite Hk in Hg. injection Hg as <-. by apply Hcomps.
    + eapply Hclosed; [done..| |done]. set_solver.
  - intros st _. split; [intros k g _ Hin Hnin; done|]. by intros c ?%elem_of_nil.
  - intros st c rest gs1 p1 glyph st' [g0 Hg0] Hcall IH1 Hglyph Hrest IH2 Hwf.
    rewrite classify_glyphSet, classify_processed in IH2.
    destruct (propagates_frame _ _ _ _ _ _ Hcall) as (Hext1 & Hsub1 & Hin1 & _).
    destruct (collects_frame _ _ _ _ Hrest) as (_ & Hsub2 & _).
    rewrite classify_processed in Hsub2.
    destruct (IH2 (store_wf_extends _ _ Hext1 Hwf)) as [Hclosed2 Hcomps2].
    specialize (IH1 Hwf).
    assert (∀ b g2, gs1 !! b = Some g2 → ∃ g2', c_glyphSet st !! b = Some g2'
                                               ∧ name g2' = name g2) as Hback.
    { intros b g2 Hg2. destruct (extends_lookup_r _ _ _ _ Hext1 Hg2) as (g2' & ? & Hn & _).
      by exists g2'. }
    split.
    + intros k g Hg Hin Hnp c' Hc'.
      destruct (decide (name g ∈ p1)) as [Hp1|Hp1].
      * destruct (IH1 k g Hg Hp1 Hnp c' Hc') as (g2 & Hg2 & Hn2). exists g2. split; [done|].
        by apply Hsub2.
      * destruct (extends_lookup _ _ _ _ Hext1 Hg) as (g' & Hg' & Hn' & Hcs' & _).
        destruct (Hclosed2 k g' Hg' ltac:(by rewrite Hn') ltac:(by rewrite Hn') c')
          as (g2 & Hg2 & Hn2); [by rewrite Hcs'|].
        destruct (Hback _ _ Hg2) as (g2' & Hg2' & Hn2'). exists g2'. by rewrite Hn2'.
    + intros c' [->|Hc']%elem_of_cons.
      * exists g0. split; [done|]. by apply Hsub2, Hin1.
      * destruct (Hcomps2 c' Hc') as (g2 & Hg2 & Hn2).
        destruct (Hback _ _ Hg2) as (g2' & Hg2' & Hn2'). exists g2'. by rewrite Hn2'.
Qed.


End closure.



(** C3, amended: take a glyph that is not yet processed and has no anchor
    whose name starts with [top]; let [filter] return, and read the
    components' glyphs in the glyph set it returns (the glyph itself as it
    was).  If exactly two components, [c1] before [c2], are base
    components, both their glyphs define [top], and no component's glyph
    defines [top_1] or [top_2], then among the appended anchors, whose
    names are all different, are [top_1] at the place [c1] gives to its
    glyph's [top] and [top_2] at the place [c2] gives to its glyph's
    [top], and none is named [top].  On a resolvable glyph set the call
    returns. *)
Theorem propagate_ligature_anchors set_order fuel ctx key g :
  (∀ s, set_order s ≡ₚ elements s) →
  PropagateAnchorsFilter.glyphSet ctx !! key = Some g →
  name g ∉ PropagateAnchorsFilter.processed ctx →
  (∀ ctx' b, PropagateAnchorsFilter.filter set_order fuel ctx key = Ok (ctx', b) →
     let view := <[key := g]> (PropagateAnchorsFilter.glyphSet ctx') in
     ∀ c1 c2 X1 X2 a1 a2,
       bases_at view (components g) = [c1; c2] →
       view !! baseGlyph c1 = Some X1 → first_anchor_named "top" (anchors X1) = Some a1 →
       view !! baseGlyph c2 = Some X2 → first_anchor_named "top" (anchors X2) = Some a2 →
       (∀ c X a, c ∈ components g → view !! baseGlyph c = Some X → a ∈ anchors X →
                 a_name a ≠ "top_1" ∧ a_name a ≠ "top_2") →
       (∀ e, e ∈ anchors g → startswith (a_name e) "top" = false) →
       ∃ added,
         PropagateAnchorsFilter.glyphSet ctx' !! key
         = Some (mkGlyph (name g) (components g) (anchors g ++ added))
         ∧ NoDup (a_name <$> added)
         ∧ anchor_at "top_1" (placed c1 a1) ∈ added
         ∧ anchor_at "top_2" (placed c2 a2) ∈ added
         ∧ ∀ a, a ∈ added → a_name a ≠ "top")
  ∧ (resolvable (PropagateAnchorsFilter.glyphSet ctx) →
     (size (glyph_names (PropagateAnchorsFilter.glyphSet ctx)
            ∖ PropagateAnchorsFilter.processed ctx) ≤ fuel)%nat →
     ∃ ctx' b, PropagateAnchorsFilter.filter set_order fuel ctx key = Ok (ctx', b)).
Proof.
  intros Hperm Hg Hnin. split.
  - intros ctx' b Hrun view c1 c2 X1 X2 a1 a2 Hbases HX1 Ha1 HX2 Ha2 Hfree Hown.
    assert (components g ≠ []) as Hne.
    { intros Hnil. by rewrite Hnil in Hbases. }
    destruct (propagate_filter_view _ _ _ _ _ _ _ Hg Hnin Hne Hrun)
      as (to_add & _ & Hstage & Hk).
    destruct (stage_ligature_top _ Hperm _ _ _ _ _ _ _ _ _ _ _
                Hbases HX1 Ha1 HX2 Ha2 Hfree Hown Hstage) as (H1 & H2 & H0).
    exists (staged_anchors to_add). split_and!; [done|apply staged_anchors_NoDup|..].
    + apply elem_of_staged_anchors. unfold anchor_at. cbn [a_name a_x a_y].
      rewrite H1. by destruct (placed c1 a1).
    + apply elem_of_staged_anchors. unfold anchor_at. cbn [a_name a_x a_y].
      rewrite H2. by destruct (placed c2 a2).
    + intros a Ha%elem_of_staged_anchors Hn. rewrite Hn in Ha. congruence.
  - intros Hres Hsize. apply propagate_filter_total; [done|by eexists|done].
Qed.

(** C2, amended: take a glyph that is not yet processed and has no anchor
    whose name starts with [top]; let [filter] return, and read the
    components' glyphs in the glyph set it returns.  If the one base
    component's glyph X defines [top] and the one mark component's glyph M
    defines [_top] and [top], then the appended anchors, whose names are
    all different, hold [top] at the place the mark component gives to
    M's [top].  On a resolvable glyph set the call returns. *)
Theorem propagate_mark_moves_top set_order fuel ctx key g :
  (∀ s, set_order s ≡ₚ elements s) →
  PropagateAnchorsFilter.glyphSet ctx !! key = Some g →
  name g ∉ PropagateAnchorsFilter.processed ctx →
  (∀ ctx' b, PropagateAnchorsFilter.filter set_order fuel ctx key = Ok (ctx', b) →
     let view := <[key := g]> (PropagateAnchorsFilter.glyphSet ctx') in
     ∀ cX cM X M aX aM,
       bases_at view (components g) = [cX] → marks_at view (components g) = [cM] →
       view !! baseGlyph cX = Some X → first_anchor_named "top" (anchors X) = Some aX →
       view !! baseGlyph cM = Some M →
       (∃ a, a ∈ anchors M ∧ a_name a = "_top") →
       aM ∈ anchors M → a_name aM = "top" →
       (∀ a, a ∈ anchors M → a_name a = "top" → (a_x a, a_y a) = (a_x aM, a_y aM)) →
       (∀ e, e ∈ anchors g → startswith (a_name e) "top" = false) →
       ∃ added,
         PropagateAnchorsFilter.glyphSet ctx' !! key
         = Some (mkGlyph (name g) (components g) (anchors g ++ added))
         ∧ NoDup (a_name <$> added)
         ∧ anchor_at "top" (placed cM aM) ∈ added)
  ∧ (resolvable (PropagateAnchorsFilter.glyphSet ctx) →
     (size (glyph_names (PropagateAnchorsFilter.glyphSet ctx)
            ∖ PropagateAnchorsFilter.processed ctx) ≤ fuel)%nat →
     ∃ ctx' b, PropagateAnchorsFilter.filter set_order fuel ctx key = Ok (ctx', b)).
Proof.
  intros Hperm Hg Hnin. split.
  - intros ctx' b Hrun view cX cM X M aX aM Hbases Hmarks HX HaX HM HU HaM HnM Hpos Hown.
    assert (components g ≠ []) as Hne.
    { intros Hnil. by rewrite Hnil in Hbases. }
    destruct (propagate_filter_view _ _ _ _ _ _ _ Hg Hnin Hne Hrun)
      as (to_add & _ & Hstage & Hk).
    pose proof (stage_mark_top _ Hperm _ _ _ _ _ _ _ _ _ _ _
                  Hbases Hmarks HX HaX HM HU HaM HnM Hpos Hown Hstage) as Htop.
    exists (staged_anchors to_add). split_and!; [done|apply staged_anchors_NoDup|].
    apply elem_of_staged_anchors. unfold anchor_at. cbn [a_name a_x a_y].
    rewrite Htop. by destruct (placed cM aM).
  - intros Hres Hsize. apply propagate_filter_total; [done|by eexists|done].
Qed.

(** ** Checking a sample font *)

Lemma check_components_refs gs P k b :
  check_components gs P = true → refs gs k b →
  ∃ c, baseGlyph c = b ∧ P k c = true.
Proof.
  unfold check_components. rewrite forallb_forall. intros Hall (g & c & Hg & Hc & Hb).
  apply elem_of_map_to_list, list_elem_of_In in Hg. specialize (Hall _ Hg). simpl in Hall.
  rewrite forallb_forall in Hall. exists c. split; [done|].
  by apply Hall, list_elem_of_In.
Qed.

Lemma check_rank_acyclic rank gs : check_rank rank gs = true → acyclic gs.
Proof.
  intros Hcheck.
  assert (∀ k b, tc (refs gs) k b → (rank b < rank k)%nat) as Hdown.
  { intros k b Htc. induction Htc as [k b Hr|k m b Hr _ IH].
    - destruct (check_components_refs _ _ _ _ Hcheck Hr) as (c & <- & Hlt).
      by apply Nat.ltb_lt in Hlt.
    - destruct (check_components_refs _ _ _ _ Hcheck Hr) as (c & <- & Hlt).
      apply Nat.ltb_lt in Hlt. lia. }
  intros k Hk. apply Hdown in Hk. lia.
Qed.

Lemma check_resolvable_sound gs : check_resolvable gs = true → resolvable gs.
Proof.
  intros Hcheck k b Hr.
  destruct (check_components_refs _ _ _ _ Hcheck Hr) as (c & <- & Hc).
  by apply bool_decide_eq_true in Hc.
Qed.

Lemma check_store_wf_sound gs : check_store_wf gs = true → store_wf gs.
Proof.
  unfold check_store_wf. rewrite forallb_forall. intros Hall k g Hg.
  apply elem_of_map_to_list, list_elem_of_In in Hg.
  by apply Hall, bool_decide_eq_true in Hg.
Qed.

Lemma check_anchor_names_sound gs :
  check_anchor_names gs = true → no_empty_anchor_name gs.
Proof.
  unfold check_anchor_names. rewrite forallb_forall. intros Hall k g a Hg Ha.
  apply elem_of_map_to_list, list_elem_of_In in Hg. specialize (Hall _ Hg). simpl in Hall.
  rewrite forallb_forall in Hall. apply list_elem_of_In in Ha.
  by apply Hall, bool_decide_eq_true in Ha.
Qed.

(** ** Where the claims as stated fail *)

(** C2 as stated fails: with [_top] and [top2] on the mark glyph, the
    composite gets [top] where the base component puts the base glyph's
    [top], (100, 500), not where the mark component puts the mark glyph's
    [top2], (100, 700). *)
Lemma mark_top2_does_not_move_top :
  ∃ ctx',
    PropagateAnchorsFilter.filter elements 1 (pctx mark_font_top2 ∅) "Y" = Ok (ctx', true)
    ∧ (anchors <$> PropagateAnchorsFilter.glyphSet ctx' !! "Y")
      = Some [mkAnchor "top" 100 500]
    ∧ placed (mkComponent "X" Identity) (mkAnchor "top" 100 500) = (100, 500)
    ∧ placed (mkComponent "M" (moved 100 100)) (mkAnchor "top2" 0 600) = (100, 700).
Proof.
  eexists. split_and!; [vm_compute; reflexivity | vm_compute; reflexivity | done..].
Qed.

(** C3 as stated fails: the ligature has exactly two base components,
    both with [top], and no anchor of its own; the mark component, whose
    glyph has [_top_1] and [top_1], moves [top_1] to (7, 7), which is not
    where the first component puts its glyph's [top], (100, 500).  And a
    ligature of two base components only, the first glyph having a
    [top_1] of its own at (9, 9), gets [top_1] there when the set of
    anchor names is visited in ascending order. *)
Lemma ligature_mark_moves_top_1 :
  (∃ ctx',
     PropagateAnchorsFilter.filter elements 1 (pctx ligature_mark_font ∅) "f_i"
       = Ok (ctx', true)
     ∧ bases_at ligature_mark_font
         [mkComponent "f" Identity; mkComponent "i" (moved 200 0); mkComponent "m" Identity]
       = [mkComponent "f" Identity; mkComponent "i" (moved 200 0)]
     ∧ (anchors <$> PropagateAnchorsFilter.glyphSet ctx' !! "f_i")
       = Some [mkAnchor "top_1" 7 7; mkAnchor "top_2" 250 500]
     ∧ placed (mkComponent "f" Identity) (mkAnchor "top" 100 500) = (100, 500))
  ∧ (∀ s, ascending s ≡ₚ elements s)
  ∧ (∃ ctx',
       PropagateAnchorsFilter.filter ascending 1 (pctx ligature_own_top_1_font ∅) "f_i"
         = Ok (ctx', true)
       ∧ (anchors <$> PropagateAnchorsFilter.glyphSet ctx' !! "f_i")
         = Some [mkAnchor "top_1" 9 9; mkAnchor "top_2" 250 500]).
Proof.
  split_and!.
  - eexists. split_and!; [vm_compute; reflexivity | vm_compute; reflexivity
                         | vm_compute; reflexivity | done].
  - intros s. apply merge_sort_Permutation.
  - eexists. split; vm_compute; reflexivity.
Qed.

(** C10 as stated fails: two base components on a glyph whose anchor has
    the empty name give the composite the anchors [_1] and [_2]. *)
Lemma empty_name_gives_underscore :
  ∃ ctx',
    PropagateAnchorsFilter.filter elements 1 (pctx empty_name_font ∅) "Z" = Ok (ctx', true)
    ∧ (anchors <$> PropagateAnchorsFilter.glyphSet ctx' !! "Z")
      = Some [mkAnchor "_1" 5 5; mkAnchor "_2" 15 5]
    ∧ startswith "_1" "_" = true ∧ startswith "_2" "_" = true.
Proof.
  eexists. split_and!; [vm_compute; reflexivity | vm_compute; reflexivity | done..].
Qed.



(** ** The theorems at work on the sample fonts *)

Lemma forallb_elem_of {A} (f : A → bool) (l : list A) x :
  forallb f l = true → x ∈ l → f x = true.
Proof. rewrite forallb_forall. intros Hall Hx. by apply Hall, list_elem_of_In. Qed.

Lemma check_free_sound gs l :
  check_free gs ["top_1"; "top_2"] l = true →
  ∀ c X a, c ∈ l → gs !! baseGlyph c = Some X → a ∈ anchors X →
           a_name a ≠ "top_1" ∧ a_name a ≠ "top_2".
Proof.
  intros Hcheck c X a Hc HX Ha.
  pose proof (forallb_elem_of _ _ _ Hcheck Hc) as HcX. simpl in HcX. rewrite HX in HcX.
  pose proof (forallb_elem_of _ _ _ HcX Ha) as Hn. apply bool_decide_eq_true in Hn.
  split; intros Heq; apply Hn; rewrite Heq; set_solver.
Qed.

Lemma flatten_reports_modified_witness :
  glyphSet chain_ctx !! "A" = Some chain_A
  ∧ (true = true ↔
     ∃ c r, c ∈ components chain_A
            ∧ _flattenComponent 1 (glyphSet chain_ctx) c = Ok r
            ∧ r ≠ [(baseGlyph c, transformation c)]).
Proof.
  split; [reflexivity|].
  destruct (flatten_reports_modified 1 chain_ctx "A" chain_A eq_refl) as [Hrun _].
  edestruct Hrun as [Hiff _]; [vm_compute; reflexivity|]. exact Hiff.
Defined.

Lemma flatten_idempotent_witness :
  ∃ ctx1 b1, FlattenComponentsFilter.filter 3 chain_ctx "A" = Ok (ctx1, b1)
   ∧ ∃ ctx2 b2, FlattenComponentsFilter.filter 3 ctx1 "A" = Ok (ctx2, b2)
      ∧ (components <$> glyphSet ctx2 !! "A") = (components <$> glyphSet ctx1 !! "A")
      ∧ glyphSet ctx2 = glyphSet ctx1.
Proof.
  apply (flatten_idempotent 3 chain_ctx "A" chain_A).
  - apply (check_rank_acyclic chain_rank). vm_compute. reflexivity.
  - apply check_resolvable_sound. vm_compute. reflexivity.
  - reflexivity.
  - vm_compute. lia.
Defined.

Lemma propagate_again_is_noop_witness :
  mark_font !! "Y" = Some mark_Y
  ∧ "Y" ∈ ({["Y"]} : gset string)
  ∧ PropagateAnchorsFilter.filter elements 1 (pctx mark_font {["Y"]}) "Y"
    = Ok (pctx mark_font {["Y"]}, true).
Proof.
  split_and!; [reflexivity | by apply elem_of_singleton |].
  apply (proj1 (propagate_again_is_noop elements 1 (pctx mark_font {["Y"]}) "Y" mark_Y
                  eq_refl)).
  change ("Y" ∈ ({["Y"]} : gset string)). by apply elem_of_singleton.
Defined.


Lemma passes_frame_witness :
  ∃ fctx' pctx',
    FlattenComponentsFilter.filter 1 (FlattenComponentsFilter.mkContext mark_font ∅) "Y"
      = Ok (fctx', false)
    ∧ PropagateAnchorsFilter.filter elements 1 (pctx mark_font ∅) "Y" = Ok (pctx', true)
    ∧ dom (glyphSet fctx') = dom mark_font
    ∧ dom (PropagateAnchorsFilter.glyphSet pctx') = dom mark_font.
Proof.
  destruct (passes_frame elements 1 (FlattenComponentsFilter.mkContext mark_font ∅)
              (pctx mark_font ∅) "Y") as [Hflat Hprop].
  eexists _, _. split; [vm_compute; reflexivity|]. split; [vm_compute; reflexivity|].
  split.
  - edestruct Hflat as [Hdom _]; [vm_compute; reflexivity|]. exact Hdom.
  - edestruct Hprop as [Hdom _]; [vm_compute; reflexivity|]. exact Hdom.
Defined.

Lemma propagate_appends_no_mark_anchor_witness :
  ∃ ctx',
    PropagateAnchorsFilter.filter elements 1 (pctx ligature_font ∅) "f_i" = Ok (ctx', true)
    ∧ ∃ added,
        PropagateAnchorsFilter.glyphSet ctx' !! "f_i"
        = Some (mkGlyph (name ligature_f_i) (components ligature_f_i)
                        (anchors ligature_f_i ++ added))
        ∧ ∀ a, a ∈ added → startswith (a_name a) "_" = false.
Proof.
  eexists. split; [vm_compute; reflexivity|].
  apply (propagate_appends_no_mark_anchor elements 1 (pctx ligature_font ∅) "f_i" _ true).
  - apply check_anchor_names_sound. vm_compute. reflexivity.
  - vm_compute. reflexivity.
  - reflexivity.
Defined.


Lemma propagate_ligature_anchors_witness :
  ∃ ctx' added,
    PropagateAnchorsFilter.filter elements 1 (pctx ligature_font ∅) "f_i" = Ok (ctx', true)
    ∧ PropagateAnchorsFilter.glyphSet ctx' !! "f_i"
      = Some (mkGlyph (name ligature_f_i) (components ligature_f_i)
                      (anchors ligature_f_i ++ added))
    ∧ NoDup (a_name <$> added)
    ∧ mkAnchor "top_1" 100 500 ∈ added
    ∧ mkAnchor "top_2" 250 500 ∈ added
    ∧ ∀ a, a ∈ added → a_name a ≠ "top".
Proof.
  destruct (propagate_ligature_anchors elements 1 (pctx ligature_font ∅) "f_i" ligature_f_i)
    as [Hpart _].
  - intros s. reflexivity.
  - reflexivity.
  - apply not_elem_of_empty.
  - eexists.
    edestruct (Hpart _ true ltac:(vm_compute; reflexivity)
                 (mkComponent "f" Identity) (mkComponent "i" (moved 200 0))
                 (leaf "f" [mkAnchor "top" 100 500]) (leaf "i" [mkAnchor "top" 50 500])
                 (mkAnchor "top" 100 500) (mkAnchor "top" 50 500))
      as (added & Hk & Hnodup & H1 & H2 & H0).
    + vm_compute. reflexivity.
    + vm_compute. reflexivity.
    + reflexivity.
    + vm_compute. reflexivity.
    + reflexivity.
    + apply check_free_sound. vm_compute. reflexivity.
    + intros e He. by apply elem_of_nil in He.
    + exists added. split; [vm_compute; reflexivity|]. split_and!; done.
Defined.

Lemma propagate_mark_moves_top_witness :
  ∃ ctx' added,
    PropagateAnchorsFilter.filter elements 1 (pctx mark_font ∅) "Y" = Ok (ctx', true)
    ∧ PropagateAnchorsFilter.glyphSet ctx' !! "Y"
      = Some (mkGlyph (name mark_Y) (components mark_Y) (anchors mark_Y ++ added))
    ∧ NoDup (a_name <$> added)
    ∧ mkAnchor "top" 100 700 ∈ added.
Proof.
  destruct (propagate_mark_moves_top elements 1 (pctx mark_font ∅) "Y" mark_Y)
    as [Hpart _].
  - intros s. reflexivity.
  - reflexivity.
  - apply not_elem_of_empty.
  - eexists.
    edestruct (Hpart _ true ltac:(vm_compute; reflexivity)
                 (mkComponent "X" Identity) (mkComponent "M" (moved 100 100))
                 (leaf "X" [mkAnchor "top" 100 500])
                 (leaf "M" [mkAnchor "_top" 0 400; mkAnchor "top" 0 600])
                 (mkAnchor "top" 100 500) (mkAnchor "top" 0 600))
      as (added & Hk & Hnodup & Htop).
    + vm_compute. reflexivity.
    + vm_compute. reflexivity.
    + vm_compute. reflexivity.
    + reflexivity.
    + vm_compute. reflexivity.
    + exists (mkAnchor "_top" 0 400). split; [apply list_elem_of_here | reflexivity].
    + apply list_elem_of_further, list_elem_of_here.
    + reflexivity.
    + intros a Ha Hn. simpl in Ha.
      apply elem_of_cons in Ha as [->|Ha]; [discriminate Hn|].
      apply elem_of_cons in Ha as [->|Ha]; [reflexivity|]. by apply elem_of_nil in Ha.
    + intros e He. by apply elem_of_nil in He.
    + exists added. split; [vm_compute; reflexivity|]. split_and!; done.
Defined.

(** * Further properties of the flattener *)

(** ** What a flattening consists of *)

(** The tuples of a flattening name glyphs reached from the component. *)
Lemma flatten_Ok_reach f gs c r t :
  _flattenComponent f gs c = Ok r → t ∈ r → rtc (refs gs) (baseGlyph c) t.1.
Proof.
  revert c r t. induction f as [|f IH]; intros c r t; rewrite _flattenComponent_unfold;
    destruct (gs !! baseGlyph c) as [g|] eqn:Hg; try done;
    destruct (components g) as [|n0 l] eqn:Hc; try done;
    try (intros [= <-] ->%list_elem_of_singleton; done).
  rewrite flatten_nested_Ok. intros (rs & Hrs & ->) (rm & Hn & Hrm)%elem_of_concat.
  rewrite <- Hc in Hrs.
  apply list_elem_of_fmap in Hrm as (rk & -> & Hrk).
  apply list_elem_of_fmap in Hn as (t' & -> & Ht).
  apply list_elem_of_lookup in Hrk as [i Hi].
  destruct (Forall2_lookup_r _ _ _ _ _ Hrs Hi) as (m & Hm & Hfm).
  unfold retransform. simpl.
  eapply rtc_l; [|by eapply IH]. exists g, m. split_and!; [done| |done].
  by eapply list_elem_of_lookup_2.
Qed.

(** X1: the tuples a flattening returns are exactly the ways down from
    the component to a leaf glyph: [(n, T)] is among them if and only if
    [n] is a glyph without components reached from the component through
    nested components, [T] being the component's own transformation when
    it names [n] itself and otherwise [T'.transform(component.transformation)]
    for the tuple [(n, T')] of the nested component gone through. *)
Theorem flatten_tuples_are_paths f gs c r :
  _flattenComponent f gs c = Ok r →
  ∀ n T, (n, T) ∈ r ↔ flat_path gs c n T.
Proof.
  revert c r. induction f as [|f IH]; intros c r; rewrite _flattenComponent_unfold;
    destruct (gs !! baseGlyph c) as [g|] eqn:Hg; try done;
    destruct (components g) as [|n0 l] eqn:Hc; try done.
  - intros [= <-] n T. split.
    + intros [= -> ->]%list_elem_of_singleton. by eapply flat_path_leaf.
    + intros Hp. inversion Hp as [? g' Hg' Hc'|? g' nested ? T' Hg' Hin Hrest]; subst;
        rewrite Hg in Hg'; injection Hg' as <-.
      * apply list_elem_of_here.
      * rewrite Hc in Hin. by apply elem_of_nil in Hin.
  - intros [= <-] n T. split.
    + intros [= -> ->]%list_elem_of_singleton. by eapply flat_path_leaf.
    + intros Hp. inversion Hp as [? g' Hg' Hc'|? g' nested ? T' Hg' Hin Hrest]; subst;
        rewrite Hg in Hg'; injection Hg' as <-.
      * apply list_elem_of_here.
      * rewrite Hc in Hin. by apply elem_of_nil in Hin.
  - rewrite flatten_nested_Ok. intros (rs & Hrs & ->) n T. rewrite <- Hc in Hrs. split.
    + intros (rm & Hn & Hrm)%elem_of_concat.
      apply list_elem_of_fmap in Hrm as (rk & -> & Hrk).
      apply list_elem_of_fmap in Hn as ([n' T'] & [= -> ->] & Ht).
      apply list_elem_of_lookup in Hrk as [i Hi].
      destruct (Forall2_lookup_r _ _ _ _ _ Hrs Hi) as (m & Hm & Hfm).
      eapply flat_path_nested; [done|by eapply list_elem_of_lookup_2|].
      by apply (IH _ _ Hfm).
    + intros Hp. inversion Hp as [? g' Hg' Hc'|? g' nested ? T' Hg' Hin Hrest]; subst;
        rewrite Hg in Hg'; injection Hg' as <-; [congruence|].
      apply list_elem_of_lookup in Hin as [i Hi].
      destruct (Forall2_lookup_l _ _ _ _ _ Hrs Hi) as (rn & Hrn & Hfn).
      apply elem_of_concat. exists (map (retransform (transformation c)) rn). split.
      * apply list_elem_of_fmap. exists (n, T'). split; [done|]. by apply (IH _ _ Hfn).
      * apply list_elem_of_fmap. exists rn. split; [done|]. by eapply list_elem_of_lookup_2.
Qed.

(** ** The glyph after the flattener *)

(** X2: when [filter] returns, every component of the glyph it was called
    on names a glyph without components: nothing is left to flatten. *)
Theorem flatten_leaves_only_leaf_components fuel ctx key ctx' b :
  filter fuel ctx key = Ok (ctx', b) →
  ∃ g', glyphSet ctx' !! key = Some g'
        ∧ ∀ c, c ∈ components g' → is_leaf (glyphSet ctx') (baseGlyph c).
Proof.
  intros Hrun. destruct (glyphSet ctx !! key) as [g|] eqn:Hg.
  2:{ unfold filter in Hrun. by rewrite Hg in Hrun. }
  destruct (filter_Ok _ _ _ _ _ _ Hg Hrun) as (rs & Hrs & -> & _).
  eexists. split; [apply lookup_insert_eq|]. simpl. intros c' Hc'.
  apply list_elem_of_fmap in Hc' as (t & -> & Ht). simpl.
  apply elem_of_concat in Ht as (r & Ht & Hr).
  apply list_elem_of_lookup in Hr as [i Hi].
  destruct (Forall2_lookup_r _ _ _ _ _ Hrs Hi) as (c & Hci & Hc).
  apply _flattenComponent_leaves in Hc as [_ Hleaves].
  rewrite Forall_forall in Hleaves. destruct (Hleaves t Ht) as (l & Hl & Hnil).
  exists l. split; [|done]. rewrite lookup_insert_ne; [done|].
  intros Heq. rewrite <- Heq, Hg in Hl. injection Hl as <-.
  apply list_elem_of_lookup_2 in Hci. rewrite Hnil in Hci. by apply elem_of_nil in Hci.
Qed.

(** ** The value [filter] returns *)

Lemma flattenings_unchanged fuel gs comps rs :
  Forall2 (λ c r, _flattenComponent fuel gs c = Ok r) comps rs →
  existsb first_differs (zip comps rs) = false →
  rs = map (λ c, [(baseGlyph c, transformation c)]) comps.
Proof.
  induction 1 as [|c r comps rs Hr _ IH]; simpl; [done|].
  intros [Hd Hrest]%orb_false_iff. rewrite (IH Hrest). f_equal.
  apply bool_decide_eq_false in Hd. simpl in Hd.
  destruct (_flattenComponent_leaves _ _ _ _ Hr) as [Hne Hleaves].
  destruct r as [|t r]; [done|]. simpl in Hd.
  assert (t = (baseGlyph c, transformation c)) as ->.
  { destruct (decide (t = (baseGlyph c, transformation c))) as [|Hneq]; [done|].
    destruct Hd. congruence. }
  apply Forall_cons in Hleaves as [(l & Hl & Hlc) _]. simpl in Hl.
  rewrite _flattenComponent_unfold, Hl, Hlc in Hr. by injection Hr as <-.
Qed.

Lemma concat_length_ge {A} (ls : list (list A)) :
  Forall (λ l, l ≠ []) ls → (length ls ≤ length (concat ls))%nat.
Proof.
  induction 1 as [|l ls Hl _ IH]; simpl; [done|].
  rewrite length_app. destruct l; [done|]. simpl. lia.
Qed.

Lemma flattenings_same_components (comps : list Component) rs :
  Forall2 (λ c r, r ≠ []) comps rs →
  as_components (concat rs) = comps →
  existsb first_differs (zip comps rs) = false.
Proof.
  induction 1 as [|c r comps rs Hr Hrs IH]; simpl; [done|].
  destruct r as [|t r]; [done|]. simpl. intros [= Ht Hrest].
  assert (r = []) as ->.
  { apply (f_equal length) in Hrest. unfold as_components in Hrest.
    rewrite length_map, length_app in Hrest.
    pose proof (Forall2_length _ _ _ Hrs) as Hlen.
    assert (length rs ≤ length (concat rs))%nat as Hge.
    { apply concat_length_ge. eapply Forall2_Forall_r; [exact Hrs|].
      apply Forall_forall. by intros ? _ ? ?. }
    destruct r; [done|]. simpl in Hrest. lia. }
  simpl in Hrest. rewrite (IH Hrest), orb_false_r.
  apply bool_decide_eq_false. simpl. intros Hd. apply Hd. f_equal.
  rewrite <- Ht. by destruct t.
Qed.

(** X3: the value [filter] returns tells whether it changed anything:
    when it returns false the context (the glyph set and the set of
    modified names) is the one it was given, and when it returns true the
    component list of the glyph is no longer the one it was. *)
Theorem flatten_flag_tells_change fuel ctx key g ctx' b :
  glyphSet ctx !! key = Some g →
  filter fuel ctx key = Ok (ctx', b) →
  (b = false → ctx' = ctx)
  ∧ (b = true → ∃ g', glyphSet ctx' !! key = Some g' ∧ components g' ≠ components g).
Proof.
  intros Hg Hrun.
  destruct (filter_Ok _ _ _ _ _ _ Hg Hrun) as (rs & Hrs & Hgs & Hb & Hmod). split.
  - intros ->. symmetry in Hb. rewrite (flattenings_unchanged _ _ _ _ Hrs Hb) in Hgs.
    assert (concat (map (λ c, [(baseGlyph c, transformation c)]) (components g))
            = map (λ c, (baseGlyph c, transformation c)) (components g)) as Hcat.
    { clear. induction (components g); simpl; [done|]. by f_equal. }
    rewrite Hcat, as_components_id in Hgs.
    destruct ctx' as [gs' m'], ctx as [gs m]. simpl in *. subst. f_equal.
    apply insert_id. rewrite Hg. by destruct g.
  - intros ->. rewrite Hgs. eexists. split; [apply lookup_insert_eq|]. simpl.
    intros Heq. apply flattenings_same_components in Heq; [congruence|].
    eapply Forall2_impl; [exact Hrs|]. intros c r Hr.
    by apply _flattenComponent_leaves in Hr as [? _].
Qed.

(** ** The one exception of the flattener *)

(** Replacing the entry of [key] by a glyph whose components [key]
    already reached adds nothing to what can be reached. *)
Lemma refs_insert_reach gs key g' x n :
  (∀ c, c ∈ components g' → tc (refs gs) key (baseGlyph c)) →
  rtc (refs (<[key:=g']> gs)) x n → rtc (refs gs) x n.
Proof.
  intros Hg'. induction 1 as [|x y n (g2 & c & Hg2 & Hc & <-) _ IH]; [done|].
  etrans; [|exact IH]. destruct (decide (x = key)) as [->|Hne].
  - rewrite lookup_insert_eq in Hg2. injection Hg2 as <-. by apply tc_rtc, Hg'.
  - rewrite lookup_insert_ne in Hg2 by done. apply rtc_once. by exists g2, c.
Qed.

Lemma filter_loop_fails_reach fuel key gs nm anc snapshot new flattened res :
  (∀ c, c ∈ snapshot ++ new → tc (refs gs) key (baseGlyph c)) →
  filter_loop fuel key snapshot (<[key := mkGlyph nm (snapshot ++ new) anc]> gs) flattened
    = res →
  (∀ x, res ≠ Ok x) →
  ∃ c g', c ∈ snapshot
          ∧ (∀ c2, c2 ∈ components g' → tc (refs gs) key (baseGlyph c2))
          ∧ same_failure (_flattenComponent fuel (<[key:=g']> gs) c) res.
Proof.
  revert new flattened. induction snapshot as [|comp rest IH]; intros new flattened Hreach; simpl.
  - intros <- Hno. by edestruct Hno.
  - destruct (_flattenComponent fuel _ comp) as [r| |] eqn:Hr; simpl.
    + pose proof (_flattenComponent_leaves _ _ _ _ Hr) as [Hne _].
      pose proof Hr as Hr0.
      apply flatten_ignores_parent with (rest := rest ++ new) in Hr0; [|done].
      destruct r as [|t r]; [done|]. simpl.
      rewrite alter_insert_eq. unfold removeComponent. simpl.
      rewrite decide_True by done. rewrite foldl_addComponent. simpl.
      rewrite <- !app_assoc. intros Hres Hno.
      assert (∀ c, c ∈ rest ++ new ++ as_components (t :: r) →
                tc (refs gs) key (baseGlyph c)) as Hreach'.
      { intros c Hc. rewrite !elem_of_app in Hc.
        destruct Hc as [Hc|[Hc|Hc]].
        - apply Hreach. apply elem_of_cons. right. apply elem_of_app. by left.
        - apply Hreach. apply elem_of_cons. right. apply elem_of_app. by right.
        - apply list_elem_of_fmap in Hc as (t' & -> & Ht'). simpl.
          eapply tc_rtc_r; [|by eapply flatten_Ok_reach].
          apply Hreach, list_elem_of_here. }
      destruct (IH _ _ Hreach' Hres Hno) as (c & g' & Hc & Hg' & Hf).
      exists c, g'. split_and!; [by apply list_elem_of_further | done..].
    + intros <- _. eexists comp, _. rewrite Hr.
      split_and!; [apply list_elem_of_here | | done]. done.
    + intros <- _. eexists comp, _. rewrite Hr.
      split_and!; [apply list_elem_of_here | | done]. done.
Qed.

(** X4: [filter] raises for one reason only, the lookup of a glyph name
    that the glyph set does not hold: the name it was called on, or the
    base glyph of a component of a glyph reached from it through
    components.  In particular [flattened_tuples[0]] never fails. *)
Theorem flatten_raises_only_missing_glyph fuel ctx key e :
  filter fuel ctx key = Raise e →
  ∃ n, e = KeyError n ∧ glyphSet ctx !! n = None ∧ rtc (refs (glyphSet ctx)) key n.
Proof.
  unfold filter. destruct (glyphSet ctx !! key) as [g|] eqn:Hg.
  2:{ intros [= <-]. by exists key. }
  destruct (components g) as [|c0 l0] eqn:Hcs; [done|]. rewrite <- Hcs in *.
  destruct (filter_loop fuel key (components g) (glyphSet ctx) false) as [|e'|] eqn:Hloop;
    try done. simpl. intros [= ->].
  assert (glyphSet ctx = <[key := mkGlyph (name g) (components g ++ []) (anchors g)]> (glyphSet ctx))
    as Hins.
  { symmetry. apply insert_id. rewrite app_nil_r. by destruct g. }
  rewrite Hins in Hloop.
  apply filter_loop_fails_reach in Hloop as (c & g' & Hc & Hg' & Hf); [|  |done].
  2:{ intros c Hc. rewrite app_nil_r in Hc. apply tc_once. by exists g, c. }
  destruct (_flattenComponent fuel _ c) as [|e'|] eqn:Hfc; try done.
  simpl in Hf. subst e'. apply flatten_Raise in Hfc as (n & -> & Hn & Hrtc).
  exists n. split; [done|].
  assert (n ≠ key) as Hne by (intros ->; by rewrite lookup_insert_eq in Hn).
  rewrite lookup_insert_ne in Hn by done. split; [done|].
  eapply rtc_l; [by exists g, c|]. by eapply refs_insert_reach.
Qed.

(** ** Cyclic references *)

(** A flattening that returned with fuel [f] went down every chain of
    references from the component, none of which is longer than [f]. *)
Lemma flatten_Ok_depth f gs c r :
  _flattenComponent f gs c = Ok r →
  ∀ n k, nsteps (refs gs) n (baseGlyph c) k → (n ≤ f)%nat.
Proof.
  revert c r. induction f as [|f IH]; intros c r; rewrite _flattenComponent_unfold;
    destruct (gs !! baseGlyph c) as [g|] eqn:Hg; try done;
    destruct (components g) as [|n0 l] eqn:Hc; try done;
    intros Hr n k Hsteps;
    (destruct Hsteps as [|n ? m ? (g2 & c2 & Hg2 & Hc2 & <-) Hrest]; [lia|]);
    rewrite Hg in Hg2; injection Hg2 as <-; rewrite Hc in Hc2.
  - by apply elem_of_nil in Hc2.
  - by apply elem_of_nil in Hc2.
  - apply flatten_nested_Ok in Hr as (rs & Hrs & _).
    apply list_elem_of_lookup in Hc2 as [i Hi].
    destruct (Forall2_lookup_l _ _ _ _ _ Hrs Hi) as (rn & _ & Hn).
    specialize (IH _ _ Hn _ _ Hrest). lia.
Qed.

Lemma cycle_long_chains {A} (R : relation A) x k :
  rtc R x k → tc R k k → ∀ N, ∃ n, (N ≤ n)%nat ∧ nsteps R n x k.
Proof.
  intros [a Ha]%rtc_nsteps (m & Hm & Hcycle)%tc_nsteps N.
  induction N as [|N (n & Hn & Hsteps)].
  - exists a. split; [lia|done].
  - exists (n + m)%nat. split; [lia|]. by eapply nsteps_trans.
Qed.

Lemma tc_first_step {A} (R : relation A) x z :
  tc R x z → ∃ y, R x y ∧ rtc R y z.
Proof.
  destruct 1 as [x z Hxz|x y z Hxy Hyz].
  - by exists z.
  - exists y. split; [done|]. by apply tc_rtc.
Qed.

Lemma flatten_Ok_acyclic f gs c r k :
  _flattenComponent f gs c = Ok r →
  rtc (refs gs) (baseGlyph c) k → ¬ tc (refs gs) k k.
Proof.
  intros Hr Hrtc Hcycle.
  destruct (cycle_long_chains _ _ _ Hrtc Hcycle (S f)) as (n & Hn & Hsteps).
  pose proof (flatten_Ok_depth _ _ _ _ Hr _ _ Hsteps). lia.
Qed.

(** X5: the flattener does not detect cycles.  When the glyph reaches,
    through components, a glyph that reaches itself, [filter] returns for
    no bound on the depth of the recursion. *)
Theorem flatten_cycle_never_returns fuel ctx key k ctx' b :
  rtc (refs (glyphSet ctx)) key k → tc (refs (glyphSet ctx)) k k →
  filter fuel ctx key ≠ Ok (ctx', b).
Proof.
  intros Hrtc Hcycle Hrun.
  destruct (glyphSet ctx !! key) as [g|] eqn:Hg.
  2:{ unfold filter in Hrun. by rewrite Hg in Hrun. }
  destruct (filter_Ok _ _ _ _ _ _ Hg Hrun) as (rs & Hrs & _).
  assert (∃ c, c ∈ components g ∧ rtc (refs (glyphSet ctx)) (baseGlyph c) k)
    as (c & Hc & Hck).
  { destruct (rtc_inv _ _ Hrtc) as [<-|(m & (g2 & c & Hg2 & Hc & <-) & Hrest)].
    - destruct (tc_first_step _ _ _ Hcycle) as (m & (g2 & c & Hg2 & Hc & <-) & Hrest).
      rewrite Hg in Hg2. injection Hg2 as <-. by exists c.
    - rewrite Hg in Hg2. injection Hg2 as <-. by exists c. }
  apply list_elem_of_lookup in Hc as [i Hi].
  destruct (Forall2_lookup_l _ _ _ _ _ Hrs Hi) as (r & _ & Hr).
  by eapply flatten_Ok_acyclic.
Qed.

(** ** Flattening one glyph after another *)

Lemma flatten_Ok_unique f f' gs c r r' :
  _flattenComponent f gs c = Ok r → _flattenComponent f' gs c = Ok r' → r = r'.
Proof.
  intros Hr Hr'.
  apply (_flattenComponent_mono f (f `max` f')%nat) in Hr; [|lia].
  apply (_flattenComponent_mono f' (f `max` f')%nat) in Hr'; [|lia]. congruence.
Qed.

Lemma flatten_nested_leaves rec outer (l : list (string * Transform)) :
  (∀ t, t ∈ l → rec (mkComponent t.1 t.2) = Ok [t]) →
  flatten_nested rec outer (as_components l) = Ok (map (retransform outer) l).
Proof.
  induction l as [|t l IH]; intros Hrec; simpl; [done|].
  rewrite (Hrec t) by apply list_elem_of_here. simpl.
  rewrite IH; [done|]. intros t' Ht'. apply Hrec. by apply list_elem_of_further.
Qed.

(** Once a glyph is flattened, a component flattens as it did before. *)
Lemma flatten_after_flatten f0 gs B gB rs :
  gs !! B = Some gB →
  Forall2 (λ c r, _flattenComponent f0 gs c = Ok r) (components gB) rs →
  ∀ f c r,
    _flattenComponent f gs c = Ok r →
    _flattenComponent f
      (<[B := mkGlyph (name gB) (as_components (concat rs)) (anchors gB)]> gs) c = Ok r.
Proof.
  intros HB Hrs. induction f as [|f IH]; intros c r; rewrite !_flattenComponent_unfold.
  - destruct (decide (baseGlyph c = B)) as [Heq|Hne].
    + rewrite Heq, lookup_insert_eq, HB. simpl.
      destruct (components gB) as [|n0 l] eqn:Hc; [|done].
      inversion Hrs; subst. done.
    + rewrite lookup_insert_ne by done.
      destruct (gs !! baseGlyph c) as [g|]; [|done]. by destruct (components g).
  - destruct (decide (baseGlyph c = B)) as [Heq|Hne].
    + rewrite Heq, lookup_insert_eq, HB. simpl.
      destruct (components gB) as [|n0 l] eqn:Hc.
      { inversion Hrs; subst. done. }
      rewrite <- Hc in *. rewrite flatten_nested_Ok. intros (rs' & Hrs' & ->).
      assert (rs' = rs) as ->.
      { clear -Hrs Hrs'. revert rs' Hrs'.
        induction Hrs as [|c0 r0 comps rs Hr0 _ IH]; intros rs' Hrs';
          inversion Hrs' as [|? r0' ? rs0' Hr0' Hrest]; subst; [done|].
        f_equal; [by eapply flatten_Ok_unique | by apply IH]. }
      assert (as_components (concat rs) ≠ []) as Hne.
      { rewrite Hc in Hrs. inversion Hrs as [|? r0 ? rs0 Hr0 _]; subst.
        apply _flattenComponent_leaves in Hr0 as [Hr0 _]. by destruct r0. }
      destruct (as_components (concat rs)) as [|c1 l1] eqn:Hcs; [done|].
      rewrite <- Hcs. rewrite flatten_nested_leaves; [by rewrite concat_map|].
      intros t Ht. apply elem_of_concat in Ht as (r0 & Ht & Hr0).
      apply list_elem_of_lookup in Hr0 as [i Hi].
      destruct (Forall2_lookup_r _ _ _ _ _ Hrs Hi) as (c0 & Hc0 & Hf0).
      apply _flattenComponent_leaves in Hf0 as [_ Hleaves].
      rewrite Forall_forall in Hleaves. destruct (Hleaves t Ht) as (lf & Hlf & Hnil).
      rewrite (_flattenComponent_leaf f _ (mkComponent t.1 t.2)); [by destruct t|].
      exists lf. split; [|done]. simpl. rewrite lookup_insert_ne; [done|].
      intros Hkey. rewrite <- Hkey, HB in Hlf. injection Hlf as <-.
      apply list_elem_of_lookup_2 in Hc0. rewrite Hnil in Hc0. by apply elem_of_nil in Hc0.
    + rewrite lookup_insert_ne by done.
      destruct (gs !! baseGlyph c) as [g|]; [|done].
      destruct (components g) as [|n0 l]; [done|].
      rewrite !flatten_nested_Ok. intros (rs' & Hrs' & ->). exists rs'. split; [|done].
      eapply Forall2_impl; [exact Hrs'|]. intros n' rn Hn. by apply IH.
Qed.

(** [filter] on [A], run forward in the glyph set that [filter] on
    another glyph [B] returned. *)
Lemma filter_after_filter fuel ctx A B gA ctxA bA ctxB bB :
  A ≠ B → glyphSet ctx !! A = Some gA →
  filter fuel ctx A = Ok (ctxA, bA) → filter fuel ctx B = Ok (ctxB, bB) →
  filter fuel ctxB A
  = Ok (mkContext (<[A := default gA (glyphSet ctxA !! A)]> (glyphSet ctxB))
                  (if bA then modified ctxB ∪ {[name gA]} else modified ctxB), bA).
Proof.
  intros Hne HA HrunA HrunB.
  destruct (glyphSet ctx !! B) as [gB|] eqn:HB.
  2:{ unfold filter in HrunB. by rewrite HB in HrunB. }
  destruct (filter_Ok _ _ _ _ _ _ HA HrunA) as (rsA & HrsA & HgsA & HbA & _).
  destruct (filter_Ok _ _ _ _ _ _ HB HrunB) as (rsB & HrsB & HgsB & _).
  assert (glyphSet ctxB !! A = Some gA) as HA'.
  { by rewrite HgsB, lookup_insert_ne. }
  rewrite HgsA, lookup_insert_eq. simpl. rewrite HbA.
  apply (filter_run fuel ctxB A gA rsA HA').
  apply Forall2_same_length_lookup. split; [by eapply Forall2_length|].
  intros i c r Hi Hri.
  pose proof (Forall2_lookup_lr _ _ _ _ _ _ HrsA Hi Hri) as Hr. simpl in Hr.
  split; [by apply _flattenComponent_leaves in Hr as [? _]|]. intros g'.
  assert (_flattenComponent fuel (glyphSet ctxB) c = Ok r) as HrB.
  { rewrite HgsB. by eapply flatten_after_flatten. }
  rewrite flatten_indep; [done|]. intros Hback.
  eapply (flatten_Ok_acyclic _ _ _ _ A HrB); [done|].
  eapply tc_rtc_r; [|exact Hback]. apply tc_once. exists gA, c.
  split_and!; [done| |done]. by eapply list_elem_of_lookup_2.
Qed.

(** X6: the order in which two glyphs are flattened does not matter.
    When [filter] returns on [A] and on [B] from the same context, it
    returns on each of them from the context the other call left, with
    the same value as before, and both orders end in the same context. *)
Theorem flatten_calls_commute fuel ctx A B ctxA bA ctxB bB :
  A ≠ B →
  filter fuel ctx A = Ok (ctxA, bA) → filter fuel ctx B = Ok (ctxB, bB) →
  ∃ ctx2, filter fuel ctxB A = Ok (ctx2, bA) ∧ filter fuel ctxA B = Ok (ctx2, bB).
Proof.
  intros Hne HrunA HrunB.
  destruct (glyphSet ctx !! A) as [gA|] eqn:HA.
  2:{ unfold filter in HrunA. by rewrite HA in HrunA. }
  destruct (glyphSet ctx !! B) as [gB|] eqn:HB.
  2:{ unfold filter in HrunB. by rewrite HB in HrunB. }
  eexists. split; [by eapply filter_after_filter|].
  rewrite (filter_after_filter fuel ctx B A gB ctxB bB ctxA bA); [|done..].
  destruct (filter_Ok _ _ _ _ _ _ HA HrunA) as (rsA & _ & HgsA & _ & HmA).
  destruct (filter_Ok _ _ _ _ _ _ HB HrunB) as (rsB & _ & HgsB & _ & HmB).
  do 2 f_equal. f_equal.
  - rewrite HgsA, HgsB, !lookup_insert_eq. simpl. by apply insert_insert_ne.
  - rewrite HmA, HmB. destruct bA, bB; set_solver.
Qed.

(** * Further properties of the anchor propagator *)

Section propagator_runs.

Context (set_order : gset string → list string).

(** ** How a call ends *)

(** A call raises on a name that the glyph set does not hold and that is
    reached from the glyph through components. *)
Lemma propagate_Raise_reach fuel gs key p e :
  _propagate_glyph_anchors set_order fuel gs key p = Raise e →
  ∃ n, e = KeyError n ∧ gs !! n = None ∧ rtc (refs gs) key n.
Proof.
  revert gs key p e. induction fuel as [|fuel IH]; intros gs key p e;
    rewrite _propagate_glyph_anchors_unfold;
    destruct (gs !! key) as [composite|] eqn:Hk;
    try (intros [= <-]; exists key; by eauto);
    (destruct (decide (name composite ∈ p)) as [|Hnin]; [done|]);
    destruct (components composite) as [|c0 l0] eqn:Hc; try done.
  rewrite <- Hc.
  destruct (foldM _ _ (components composite)) as [st| |] eqn:Hloop; simpl; [| |done].
  - pose proof (component_loop_sound set_order _ _ (propagate_sound set_order fuel) _ _ Hloop)
      as Hcollects.
    destruct (collects_frame _ _ _ _ Hcollects) as (Hext & _). simpl in Hext.
    destruct (collects_classified _ _ _ _ Hcollects) as (Hb & Hm & _). simpl in Hb, Hm.
    destruct (extends_lookup _ _ _ _ Hext Hk) as (composite' & -> & _).
    destruct (stage_anchors _ _ _ _) as [| |] eqn:Hstage; simpl; [done| |done].
    intros [= ->].
    destruct (stage_anchors_fails _ _ _ _ _ Hstage ltac:(done)) as (c & Hin & Hn & [= ->]).
    exists (baseGlyph c). split_and!; [done|by eapply extends_lookup_None|].
    apply rtc_once. exists composite, c. split_and!; [done| |done].
    rewrite Hb, Hm in Hin.
    destruct Hin as [[? _]%elem_of_bases_at|[? _]%elem_of_marks_at]; done.
  - intros [= ->].
    destruct (foldM_fails (loop_invariant gs (p ∪ {[name composite]})) _ _ _ _
                Hloop ltac:(done))
      as (st & c & [Hext Hsub] & Hc' & Hf);
      [split; [apply extends_refl|done] | intros; by eapply loop_invariant_step |].
    assert (refs gs key (baseGlyph c)) as Hrefs by (by exists composite, c).
    destruct (component_step _ st c) as [|e'|] eqn:Hstep; try done. simpl in Hf. subst e'.
    destruct (component_step_fails _ _ _ _ Hstep ltac:(done))
      as [[Hn [= ->]]|[Hcall|(gs1 & p1 & Hcall & Hn & [= ->])]].
    + exists (baseGlyph c). split_and!; [done|by eapply extends_lookup_None|by apply rtc_once].
    + destruct (_propagate_glyph_anchors set_order fuel _ _ _) as [|e'|] eqn:Hrec; try done.
      simpl in Hcall. subst e'. apply IH in Hrec as (n & -> & Hn & Hreach).
      exists n. split_and!; [done|by eapply extends_lookup_None|].
      eapply rtc_l; [exact Hrefs|]. by eapply rtc_refs_extends.
    + apply propagate_sound, propagates_frame in Hcall as (Hext1 & _).
      exists (baseGlyph c). split_and!; [done| |by apply rtc_once].
      eapply extends_lookup_None; [exact Hext|]. by eapply extends_lookup_None.
Qed.

(** X7: cyclic references do not trap the propagator.  On any glyph set,
    with a depth bound of the number of glyph names not yet in the
    processed set, [filter] either returns or raises the lookup error on a
    name that the glyph set does not hold and that is reached from the
    glyph through components. *)
Theorem propagate_ends_on_any_graph fuel ctx key :
  (size (glyph_names (PropagateAnchorsFilter.glyphSet ctx)
         ∖ PropagateAnchorsFilter.processed ctx) ≤ fuel)%nat →
  (∃ ctx' b, PropagateAnchorsFilter.filter set_order fuel ctx key = Ok (ctx', b))
  ∨ (∃ n, PropagateAnchorsFilter.filter set_order fuel ctx key = Raise (KeyError n)
          ∧ PropagateAnchorsFilter.glyphSet ctx !! n = None
          ∧ rtc (refs (PropagateAnchorsFilter.glyphSet ctx)) key n).
Proof.
  intros Hsize. unfold PropagateAnchorsFilter.filter.
  destruct (PropagateAnchorsFilter.glyphSet ctx !! key) as [g|] eqn:Hg.
  2:{ right. by exists key. }
  destruct (components g) as [|c0 l0]; [left; by eexists _, _|].
  destruct (_propagate_glyph_anchors set_order fuel _ key _) as [[gs' p']|e|] eqn:Hrun; simpl.
  - left. by eexists _, _.
  - right. apply propagate_Raise_reach in Hrun as (n & -> & Hn & Hreach). by exists n.
  - by apply propagate_terminates in Hrun.
Qed.

(** ** Glyphs a call does not touch *)

Lemma propagates_leaves_both :
  (∀ gs key p gs' p', propagates set_order gs key p gs' p' →
     ∀ k g, gs !! k = Some g → components g = [] → gs' !! k = Some g)
  ∧ (∀ st l st', collects set_order st l st' →
     ∀ k g, c_glyphSet st !! k = Some g → components g = [] →
            c_glyphSet st' !! k = Some g).
Proof.
  apply propagates_collects_ind.
  - done.
  - done.
  - intros gs key p composite st composite' to_add Hk _ Hc _ IH _ _ k g Hg Hnil.
    simpl in IH. rewrite lookup_alter_ne; [by apply IH|].
    intros <-. rewrite Hk in Hg. injection Hg as <-. done.
  - done.
  - intros st c rest gs1 p1 glyph st' _ _ IH1 _ _ IH2 k g Hg Hnil.
    rewrite classify_glyphSet in IH2. apply IH2; [|done]. by apply IH1.
Qed.

(** X8: only glyphs with components are given anchors: whatever glyph
    [filter] is called on, a glyph without components is in the returned
    glyph set as it was. *)
Theorem propagate_leaves_untouched fuel ctx key ctx' b :
  PropagateAnchorsFilter.filter set_order fuel ctx key = Ok (ctx', b) →
  ∀ k g, PropagateAnchorsFilter.glyphSet ctx !! k = Some g → components g = [] →
         PropagateAnchorsFilter.glyphSet ctx' !! k = Some g.
Proof.
  intros Hrun k g Hg Hnil.
  destruct (PropagateAnchorsFilter.glyphSet ctx !! key) as [g0|] eqn:Hg0.
  2:{ unfold PropagateAnchorsFilter.filter in Hrun. by rewrite Hg0 in Hrun. }
  destruct (propagate_filter_Ok _ _ _ _ _ _ _ Hg0 Hrun)
    as [(Hc & -> & ->)|(Hc & -> & Hcall)]; [done|].
  by eapply (proj1 propagates_leaves_both).
Qed.

(** X9: a glyph whose name is in the processed set is never given anchors
    again, whichever glyph [filter] is called on, and no name leaves the
    processed set. *)
Theorem propagate_skips_processed fuel ctx key ctx' b :
  PropagateAnchorsFilter.filter set_order fuel ctx key = Ok (ctx', b) →
  PropagateAnchorsFilter.processed ctx ⊆ PropagateAnchorsFilter.processed ctx'
  ∧ ∀ k g, PropagateAnchorsFilter.glyphSet ctx !! k = Some g →
           name g ∈ PropagateAnchorsFilter.processed ctx →
           PropagateAnchorsFilter.glyphSet ctx' !! k = Some g.
Proof.
  intros Hrun.
  destruct (PropagateAnchorsFilter.glyphSet ctx !! key) as [g0|] eqn:Hg0.
  2:{ unfold PropagateAnchorsFilter.filter in Hrun. by rewrite Hg0 in Hrun. }
  destruct (propagate_filter_Ok _ _ _ _ _ _ _ Hg0 Hrun)
    as [(Hc & -> & ->)|(Hc & -> & Hcall)]; [done|].
  by destruct (propagates_frame _ _ _ _ _ _ Hcall) as (_ & Hsub & _ & Hkeep).
Qed.

(** ** Glyphs a call processes *)

(** X10: on a glyph set that holds every glyph under its own name, when
    [filter] returns true every glyph reached from the glyph through
    components, going only through glyphs that were not yet in the
    processed set, is in the processed set. *)
Theorem propagate_processes_reachable fuel ctx key ctx' :
  store_wf (PropagateAnchorsFilter.glyphSet ctx) →
  PropagateAnchorsFilter.filter set_order fuel ctx key = Ok (ctx', true) →
  ∀ n, rtc (refs_unprocessed (PropagateAnchorsFilter.glyphSet ctx)
                             (PropagateAnchorsFilter.processed ctx)) key n →
       n ∈ PropagateAnchorsFilter.processed ctx'.
Proof.
  intros Hwf Hrun.
  destruct (PropagateAnchorsFilter.glyphSet ctx !! key) as [g0|] eqn:Hg0.
  2:{ unfold PropagateAnchorsFilter.filter in Hrun. by rewrite Hg0 in Hrun. }
  destruct (propagate_filter_Ok _ _ _ _ _ _ _ Hg0 Hrun)
    as [(_ & _ & ?)|(Hc & _ & Hcall)]; [done|].
  pose proof (proj1 (propagates_closed_both set_order) _ _ _ _ _ Hcall Hwf) as Hclosed.
  destruct (propagates_frame _ _ _ _ _ _ Hcall) as (_ & _ & Hin & _).
  apply rtc_ind_r; [|intros y z _ [(g & c & Hg & Hcin & <-) Hy] IH].
  - rewrite <- (Hwf _ _ Hg0). by apply Hin.
  - pose proof (Hwf _ _ Hg) as Hname.
    destruct (Hclosed y g Hg ltac:(by rewrite Hname) ltac:(by rewrite Hname) c Hcin)
      as (g2 & Hg2 & Hn2).
    by rewrite <- (Hwf _ _ Hg2).
Qed.

End propagator_runs.

(** ** The anchors a call appends *)

Lemma item_le_trans : Transitive item_le.
Proof.
  intros x y z Hxy Hyz. unfold item_le in *.
  apply Is_true_true. apply Is_true_true in Hxy, Hyz.
  by apply (transitivity (R := String.le) Hxy Hyz).
Qed.

Lemma item_le_total : Total item_le.
Proof. intros x y. unfold item_le. apply String.leb_total. Qed.

Lemma staged_anchors_sorted to_add : StronglySorted anchor_le (staged_anchors to_add).
Proof.
  unfold staged_anchors, sorted_items.
  apply (StronglySorted_fmap _ item_le);
    [|apply StronglySorted_merge_sort; [apply item_le_trans | apply item_le_total]].
  intros x y Hxy. unfold anchor_le, String.le. simpl. by apply Is_true_true.
Qed.

Section appended.

Context (set_order : gset string → list string).

(** What a call appends to the glyph it is made on, in all three cases
    of the call. *)
Lemma propagate_filter_appended fuel ctx key g ctx' b :
  PropagateAnchorsFilter.glyphSet ctx !! key = Some g →
  PropagateAnchorsFilter.filter set_order fuel ctx key = Ok (ctx', b) →
  let view := <[key := g]> (PropagateAnchorsFilter.glyphSet ctx') in
  ∃ added,
    PropagateAnchorsFilter.glyphSet ctx' !! key
    = Some (mkGlyph (name g) (components g) (anchors g ++ added))
    ∧ (added = []
       ∨ ∃ to_add,
           stage_anchors set_order view g
             (final_state view (PropagateAnchorsFilter.processed ctx') (components g))
           = Ok to_add
           ∧ added = staged_anchors to_add).
Proof.
  intros Hg Hrun view.
  assert (PropagateAnchorsFilter.glyphSet ctx' = PropagateAnchorsFilter.glyphSet ctx
          ∨ ∃ gs1 to_add,
              gs1 !! key = Some g
              ∧ stage_anchors set_order gs1 g
                  (final_state gs1 (PropagateAnchorsFilter.processed ctx') (components g))
                = Ok to_add
              ∧ PropagateAnchorsFilter.glyphSet ctx'
                = <[key := mkGlyph (name g) (components g)
                             (anchors g ++ staged_anchors to_add)]> gs1) as Hcases.
  { destruct (propagate_filter_Ok _ _ _ _ _ _ _ Hg Hrun)
      as [(Hc & -> & ->)|(Hc & -> & Hcall)]; [by left|].
    destruct (propagates_appended _ _ _ _ _ _ _ Hcall Hg)
      as [->|(gs1 & to_add & _ & Hk1 & Hstage & ->)]; [by left|].
    right. by exists gs1, to_add. }
  destruct Hcases as [Heq|(gs1 & to_add & Hk1 & Hstage & Heq)].
  - exists []. rewrite app_nil_r, Heq, Hg. split; [by destruct g | by left].
  - exists (staged_anchors to_add). rewrite Heq, lookup_insert_eq. split; [done|].
    right. exists to_add. split; [|done].
    assert (view = gs1) as ->; [|done].
    unfold view. rewrite Heq, insert_insert_eq. by apply insert_id.
Qed.

(** X11: the anchors a call appends to the glyph come in the order of
    their names. *)
Theorem propagate_appends_in_name_order fuel ctx key g ctx' b :
  PropagateAnchorsFilter.glyphSet ctx !! key = Some g →
  PropagateAnchorsFilter.filter set_order fuel ctx key = Ok (ctx', b) →
  ∃ added,
    PropagateAnchorsFilter.glyphSet ctx' !! key
    = Some (mkGlyph (name g) (components g) (anchors g ++ added))
    ∧ StronglySorted anchor_le added.
Proof.
  intros Hg Hrun.
  destruct (propagate_filter_appended _ _ _ _ _ _ Hg Hrun)
    as (added & Hk & [->|(to_add & _ & ->)]); eexists; (split; [exact Hk|]).
  - constructor.
  - apply staged_anchors_sorted.
Qed.

(** X12: every anchor a call appends to the glyph is named after an
    anchor of a base component's glyph: a component of the glyph whose
    glyph, as the call leaves it, has no anchor starting with an
    underscore has an anchor [e], no anchor the glyph already had starts
    with the name of [e], and the appended anchor has the name of [e],
    with or without a ligature number. *)
Theorem propagate_appends_names_of_bases fuel ctx key g ctx' b :
  PropagateAnchorsFilter.glyphSet ctx !! key = Some g →
  PropagateAnchorsFilter.filter set_order fuel ctx key = Ok (ctx', b) →
  let view := <[key := g]> (PropagateAnchorsFilter.glyphSet ctx') in
  ∃ added,
    PropagateAnchorsFilter.glyphSet ctx' !! key
    = Some (mkGlyph (name g) (components g) (anchors g ++ added))
    ∧ ∀ a, a ∈ added →
        ∃ c X e, c ∈ components g ∧ view !! baseGlyph c = Some X
                 ∧ is_mark_glyph X = false ∧ e ∈ anchors X
                 ∧ guarded g (a_name e) = false
                 ∧ (a_name a = a_name e ∨ ∃ i, a_name a = ligature_name (a_name e) i).
Proof.
  intros Hg Hrun view.
  destruct (propagate_filter_appended _ _ _ _ _ _ Hg Hrun)
    as (added & Hk & [->|(to_add & Hstage & ->)]); eexists; (split; [exact Hk|]).
  - by intros a ?%elem_of_nil.
  - intros a Ha%elem_of_staged_anchors.
    destruct (stage_anchors_keys _ _ _ _ _ Hstage (a_name a) ltac:(by eexists))
      as (n & c & X & e & Hguard & Hc & HX & He & Hn & Hname).
    simpl in Hc. apply elem_of_bases_at in Hc as [Hc Hbase].
    unfold is_mark_at in Hbase. rewrite HX in Hbase.
    exists c, X, e. rewrite Hn. done.
Qed.

End appended.

(** ** Where the appended anchors are *)

Lemma ligature_data_value i l acc k v :
  ligature_data i l acc !! k = Some v →
  acc !! k = Some v
  ∨ ∃ j a c, (a, c) ∈ l ∧ k = ligature_name (a_name a) j ∧ v = placed c a.
Proof.
  revert i acc. induction l as [|[a c] l IH]; intros i acc; simpl; [by left|].
  intros [Hacc|(j & a' & c' & Hin & -> & ->)]%IH.
  - destruct (decide (k = ligature_name (a_name a) i)) as [->|Hne].
    + right. rewrite lookup_insert_eq in Hacc. injection Hacc as <-.
      exists i, a, c. split_and!; [apply list_elem_of_here | done..].
    + left. by rewrite lookup_insert_ne in Hacc.
  - right. exists j, a', c'. split_and!; [by apply list_elem_of_further | done..].
Qed.

Lemma write_anchor_data_value l acc k v :
  write_anchor_data l acc !! k = Some v →
  acc !! k = Some v
  ∨ ∃ a c, (a, c) ∈ l ∧ v = placed c a
           ∧ (k = a_name a ∨ ∃ j, k = ligature_name (a_name a) j).
Proof.
  unfold write_anchor_data. destruct (decide _) as [Hlen|Hlen].
  - intros [Hacc|(j & a & c & Hin & -> & ->)]%ligature_data_value; [by left|].
    right. exists a, c. eauto.
  - destruct l as [|[a c] l]; [by left|].
    destruct (decide (k = a_name a)) as [->|Hne].
    + rewrite lookup_insert_eq. intros [= <-]. right. exists a, c.
      split_and!; [apply list_elem_of_here | done | by left].
    + rewrite lookup_insert_ne by done. by left.
Qed.

Lemma adjust_with_value t all l acc k v :
  adjust_with t all acc l !! k = Some v →
  acc !! k = Some v
  ∨ ∃ a, a ∈ l ∧ a_name a = k ∧ v = transformPoint t (a_x a, a_y a).
Proof.
  revert acc. induction l as [|a l IH]; intros acc; [by left|].
  rewrite adjust_with_cons. intros [Hacc|(a' & Hin & Hn & ->)]%IH.
  - unfold adjust_step in Hacc. destruct (_ && _); [|by left].
    destruct (decide (k = a_name a)) as [->|Hne].
    + rewrite lookup_insert_eq in Hacc. injection Hacc as <-.
      right. exists a. split_and!; [apply list_elem_of_here | done..].
    + left. by rewrite lookup_insert_ne in Hacc.
  - right. exists a'. split_and!; [by apply list_elem_of_further | done..].
Qed.

Section positions.

Context (set_order : gset string → list string).

Lemma stage_anchors_values gs composite st to_add :
  stage_anchors set_order gs composite st = Ok to_add →
  ∀ k v, to_add !! k = Some v →
    ∃ c X e, (c ∈ base_components st ∨ c ∈ mark_components st)
             ∧ gs !! baseGlyph c = Some X ∧ e ∈ anchors X ∧ v = placed c e
             ∧ (k = a_name e ∨ ∃ i, k = ligature_name (a_name e) i).
Proof.
  unfold stage_anchors. rewrite bind_Ok. intros (to_add1 & H1 & H2).
  set (I := λ acc : gmap string (Z * Z), ∀ k v, acc !! k = Some v →
    ∃ c X e, (c ∈ base_components st ∨ c ∈ mark_components st)
             ∧ gs !! baseGlyph c = Some X ∧ e ∈ anchors X ∧ v = placed c e
             ∧ (k = a_name e ∨ ∃ i, k = ligature_name (a_name e) i)).
  assert (I to_add1) as Hinv1.
  { eapply (foldM_invariant I); [| |exact H1].
    - intros acc n acc' Hacc _ Hstep k v Hk. simpl in Hstep.
      destruct (existsb _ (anchors composite)); [injection Hstep as <-; by apply Hacc|].
      apply _get_anchor_data_Ok in Hstep as ->.
      apply write_anchor_data_value in Hk as [Hk|(a & c & Hin & -> & Hname)];
        [by apply Hacc|].
      apply contributors_elem in Hin as (Hc & X & HX & Ha & _).
      exists c, X, a. split_and!; [by left|done..].
    - intros k v Hk. by rewrite lookup_empty in Hk. }
  eapply (foldM_invariant I); [|exact Hinv1|exact H2].
  intros acc c acc' Hacc Hc Hstep k v Hk.
  apply _adjust_anchors_Ok in Hstep as (M & HM & ->).
  apply adjust_with_value in Hk as [Hk|(a & Ha & Hn & ->)]; [by apply Hacc|].
  exists c, M, a. split_and!; [by right|done..|by left].
Qed.

(** X13: every anchor a call appends to the glyph sits where a component
    of the glyph puts an anchor of its glyph: the component's
    transformation applied to the position of an anchor [e] of the glyph
    that the component names, as the call leaves it; and the appended
    anchor has the name of [e], with or without a ligature number. *)
Theorem propagate_appends_placed_anchors fuel ctx key g ctx' b :
  PropagateAnchorsFilter.glyphSet ctx !! key = Some g →
  PropagateAnchorsFilter.filter set_order fuel ctx key = Ok (ctx', b) →
  let view := <[key := g]> (PropagateAnchorsFilter.glyphSet ctx') in
  ∃ added,
    PropagateAnchorsFilter.glyphSet ctx' !! key
    = Some (mkGlyph (name g) (components g) (anchors g ++ added))
    ∧ ∀ a, a ∈ added →
        ∃ c X e, c ∈ components g ∧ view !! baseGlyph c = Some X ∧ e ∈ anchors X
                 ∧ (a_x a, a_y a) = placed c e
                 ∧ (a_name a = a_name e ∨ ∃ i, a_name a = ligature_name (a_name e) i).
Proof.
  intros Hg Hrun view.
  destruct (propagate_filter_appended _ _ _ _ _ _ _ Hg Hrun)
    as (added & Hk & [->|(to_add & Hstage & ->)]); eexists; (split; [exact Hk|]).
  - by intros a ?%elem_of_nil.
  - intros a Ha%elem_of_staged_anchors.
    destruct (stage_anchors_values _ _ _ _ Hstage _ _ Ha)
      as (c & X & e & Hc & HX & He & Hv & Hname).
    exists c, X, e. split_and!; [|done..]. simpl in Hc.
    destruct Hc as [[? _]%elem_of_bases_at|[? _]%elem_of_marks_at]; done.
Qed.

End positions.

(** ** [_get_anchor_data] and [_adjust_anchors] by themselves *)

Lemma ligature_name_inj n i j : ligature_name n i = ligature_name n j → i = j.
Proof.
  unfold ligature_name. intros H%(inj (String.app n))%(inj (String.app "_")).
  apply (inj pretty) in H. lia.
Qed.

Lemma ligature_data_untouched_from i l acc k :
  (∀ j a c, l !! j = Some (a, c) → ligature_name (a_name a) (i + j) ≠ k) →
  ligature_data i l acc !! k = acc !! k.
Proof.
  revert i acc. induction l as [|[a c] l IH]; intros i acc Hall; simpl; [done|].
  rewrite IH.
  - rewrite lookup_insert_ne; [done|]. specialize (Hall 0%nat a c eq_refl).
    by rewrite Nat.add_0_r in Hall.
  - intros j a' c' Hj. specialize (Hall (S j) a' c' Hj).
    by rewrite Nat.add_succ_r in Hall.
Qed.

Lemma ligature_data_numbered n i l acc :
  Forall (λ ac, a_name ac.1 = n) l →
  ∀ j a c, l !! j = Some (a, c) →
    ligature_data i l acc !! ligature_name n (i + j) = Some (placed c a).
Proof.
  intros Hn. revert i acc. induction Hn as [|[a0 c0] l Hn0 Hn IH]; intros i acc j a c;
    [done|]. simpl in Hn0. simpl. destruct j as [|j]; simpl.
  - intros [= -> ->]. rewrite Nat.add_0_r, ligature_data_untouched_from.
    + rewrite Hn0. apply lookup_insert_eq.
    + intros j a' c' Hj Heq. rewrite Forall_lookup in Hn.
      specialize (Hn _ _ Hj). simpl in Hn. rewrite Hn in Heq.
      apply ligature_name_inj in Heq. lia.
  - intros Hj. rewrite Nat.add_succ_r, <- Nat.add_succ_l. by apply IH.
Qed.

(** X14: what [_get_anchor_data] writes for the name [n], by the number
    of components whose glyph has an anchor named [n]: with none the
    dictionary is as it was; with one, [n] is set to where that component
    puts its glyph's first [n]; with more, the component at place [i]
    among them sets the name ['%s_%d' % (n, i + 1)] to where it puts its
    glyph's first [n], and every key that is not one of these numbered
    names is as it was. *)
Theorem get_anchor_data_numbers_components acc gs comps n acc' :
  _get_anchor_data acc gs comps n = Ok acc' →
  match contributors gs comps n with
  | [] => acc' = acc
  | [(a, c)] => acc' = <[n := placed c a]> acc
  | l =>
      (∀ i a c, l !! i = Some (a, c) → acc' !! ligature_name n i = Some (placed c a))
      ∧ (∀ k, (∀ i, (i < length l)%nat → k ≠ ligature_name n i) → acc' !! k = acc !! k)
  end.
Proof.
  intros Hrun. apply _get_anchor_data_Ok in Hrun as ->.
  pose proof (contributors_names gs comps n) as Hnames.
  destruct (contributors gs comps n) as [|[a c] [|ac2 l]] eqn:Hl; [done| |].
  - unfold write_anchor_data. simpl. apply Forall_cons in Hnames as [Hn _].
    simpl in Hn. by rewrite Hn.
  - unfold write_anchor_data. rewrite decide_True by (simpl; lia). split.
    + intros i a' c' Hi. by apply (ligature_data_numbered n 0 _ acc Hnames i).
    + intros k Hk. apply ligature_data_untouched_from. intros j a' c' Hj Heq.
      rewrite Forall_lookup in Hnames. specialize (Hnames _ _ Hj). simpl in Hnames.
      apply (Hk j); [by eapply lookup_lt_Some|]. by rewrite <- Hnames, <- Heq.
Qed.

Lemma adjust_with_app t all acc l1 l2 :
  adjust_with t all acc (l1 ++ l2) = adjust_with t all (adjust_with t all acc l1) l2.
Proof. apply foldl_app. Qed.

Lemma adjust_with_keys t all l acc k :
  is_Some (adjust_with t all acc l !! k) ↔ is_Some (acc !! k).
Proof.
  revert acc. induction l as [|a l IH]; intros acc; [done|].
  rewrite adjust_with_cons, IH. unfold adjust_step.
  destruct (bool_decide _ && _) eqn:Hcond; [|done].
  apply andb_true_iff in Hcond as [Hin%bool_decide_eq_true _].
  destruct (decide (k = a_name a)) as [->|Hne].
  - rewrite lookup_insert_eq. split; [done|]. by eexists.
  - by rewrite lookup_insert_ne.
Qed.

Lemma adjust_with_unattached t all l acc k :
  (∀ a, a ∈ all → a_name a ≠ "_" +:+ k) → adjust_with t all acc l !! k = acc !! k.
Proof.
  intros Hno. revert acc. induction l as [|a l IH]; intros acc; [done|].
  rewrite adjust_with_cons, IH. unfold adjust_step.
  destruct (bool_decide _ && _) eqn:Hcond; [|done].
  destruct (decide (k = a_name a)) as [->|Hne]; [|by rewrite lookup_insert_ne].
  apply andb_true_iff in Hcond as [_ Hex]. apply existsb_exists in Hex as (u & Hu & Hn).
  apply bool_decide_eq_true in Hn. by destruct (Hno u ltac:(by apply list_elem_of_In)).
Qed.

Lemma last_named (l : list Anchor) k :
  (∃ a, a ∈ l ∧ a_name a = k) →
  ∃ l1 a l2, l = l1 ++ a :: l2 ∧ a_name a = k ∧ ∀ a', a' ∈ l2 → a_name a' ≠ k.
Proof.
  induction l as [|a0 l IH]; intros (a & Hin & Hn).
  { by apply elem_of_nil in Hin. }
  destruct (decide (Exists (λ a', a_name a' = k) l)) as [Hl|Hl].
  - apply Exists_exists in Hl. destruct (IH Hl) as (l1 & a1 & l2 & -> & Hn1 & Hl2).
    by exists (a0 :: l1), a1, l2.
  - rewrite Exists_exists in Hl.
    apply elem_of_cons in Hin as [->|Hin]; [|by destruct Hl; exists a].
    exists [], a0, l. split_and!; [done..|]. intros a' Ha' Hn'. apply Hl. by exists a'.
Qed.

(** X15: what [_adjust_anchors] does to the dictionary for a component
    on the glyph [M]: it neither adds nor removes a key; a key [k] that
    [M] has no anchor for, or for which [M] has no anchor named [_k], keeps
    its value; and a key [k] of the dictionary for which [M] has both is
    set to where the component puts the last anchor of [M] named [k]. *)
Theorem adjust_anchors_moves_attached acc gs c acc' :
  _adjust_anchors acc gs c = Ok acc' →
  ∃ M, gs !! baseGlyph c = Some M
    ∧ ∀ k,
        (is_Some (acc' !! k) ↔ is_Some (acc !! k))
        ∧ ((∀ a, a ∈ anchors M → a_name a ≠ k)
           ∨ (∀ a, a ∈ anchors M → a_name a ≠ "_" +:+ k) → acc' !! k = acc !! k)
        ∧ (is_Some (acc !! k) →
           (∃ a, a ∈ anchors M ∧ a_name a = "_" +:+ k) →
           ∀ l1 a l2, anchors M = l1 ++ a :: l2 → a_name a = k →
                      (∀ a', a' ∈ l2 → a_name a' ≠ k) →
                      acc' !! k = Some (placed c a)).
Proof.
  intros Hrun. apply _adjust_anchors_Ok in Hrun as (M & HM & ->). exists M. split; [done|]. intros k.
  split_and!.
  - apply adjust_with_keys.
  - intros [Hno|Hno]; [by apply adjust_with_untouched | by apply adjust_with_unattached].
  - intros Hsome (u & Hu & Hnu) l1 a l2 Heq Hn Hl2.
    assert (∀ all, existsb (λ a0, bool_decide (a_name a0 = "_" +:+ k)) all = true →
              adjust_with (transformation c) all acc (l1 ++ a :: l2) !! k
              = Some (placed c a)) as Hgen.
    { intros all Hex.
      rewrite adjust_with_app, adjust_with_cons, adjust_with_untouched by done.
      unfold adjust_step. rewrite Hn, Hex.
      rewrite bool_decide_true by (by apply adjust_with_keys).
      simpl. by rewrite lookup_insert_eq. }
    rewrite <- Heq in Hgen. apply Hgen.
    apply existsb_exists. exists u. split; [by apply list_elem_of_In|].
    by apply bool_decide_eq_true.
Qed.

(** ** One base component with the anchor *)

Section single_base.

Context (set_order : gset string → list string).
Hypothesis set_order_perm : ∀ s, set_order s ≡ₚ elements s.

Lemma stage_single_base gs g p comps n a c to_add :
  contributors gs (bases_at gs comps) n = [(a, c)] →
  (∀ e, e ∈ anchors g → startswith (a_name e) n = false) →
  (∀ c' X e, c' ∈ bases_at gs comps → gs !! baseGlyph c' = Some X → e ∈ anchors X →
             a_name e ≠ n → startswith n (a_name e) = false) →
  (∀ c' X e, c' ∈ marks_at gs comps → gs !! baseGlyph c' = Some X → e ∈ anchors X →
             a_name e ≠ n) →
  stage_anchors set_order gs g (final_state gs p comps) = Ok to_add →
  to_add !! n = Some (placed c a).
Proof.
  intros Hcontr Hown Hprefix Hmarks Hstage.
  apply stage_anchors_Ok in Hstage. simpl in Hstage.
  rewrite (adjust_marks_untouched _ _ _ _ _ Hstage) by done.
  assert ((a, c) ∈ contributors gs (bases_at gs comps) n) as Hin
    by (rewrite Hcontr; apply list_elem_of_here).
  apply contributors_elem in Hin as (Hc & X & HX & Ha & Hn).
  apply stage_bases_written with (n := n).
  - rewrite set_order_perm, elem_of_elements. apply elem_of_collected_names.
    by exists c, X, a.
  - by apply guarded_false.
  - intros acc. rewrite Hcontr. unfold write_anchor_data. simpl.
    rewrite Hn. apply lookup_insert_eq.
  - intros n' Hn' Hne. apply leaves_key_intro; [done|]. intros j Hj.
    rewrite set_order_perm, elem_of_elements in Hn'.
    apply elem_of_collected_names in Hn' as (c' & X' & e & Hc' & HX' & He & Hne').
    assert (startswith n n' = false) as Hf.
    { rewrite <- Hne'. eapply Hprefix; [done..|]. by rewrite Hne'. }
    by rewrite <- Hj, ligature_name_startswith in Hf.
Qed.

(** X16: the plain case of the propagation.  Take a glyph that is not yet
    processed, let [filter] return, and read the components' glyphs in the
    glyph set it returns.  When exactly one base component [c] has a glyph
    with an anchor named [n], no anchor the glyph already had starts with
    [n], no other anchor name of a base component's glyph is a beginning
    of [n], and no mark component's glyph has an anchor named [n], then
    the glyph is given the anchor [n] where [c] puts the first [n] of its
    glyph. *)
Theorem propagate_single_base_anchor fuel ctx key g ctx' b n a c :
  PropagateAnchorsFilter.glyphSet ctx !! key = Some g →
  name g ∉ PropagateAnchorsFilter.processed ctx →
  PropagateAnchorsFilter.filter set_order fuel ctx key = Ok (ctx', b) →
  let view := <[key := g]> (PropagateAnchorsFilter.glyphSet ctx') in
  contributors view (bases_at view (components g)) n = [(a, c)] →
  (∀ e, e ∈ anchors g → startswith (a_name e) n = false) →
  (∀ c' X e, c' ∈ bases_at view (components g) → view !! baseGlyph c' = Some X →
             e ∈ anchors X → a_name e ≠ n → startswith n (a_name e) = false) →
  (∀ c' X e, c' ∈ marks_at view (components g) → view !! baseGlyph c' = Some X →
             e ∈ anchors X → a_name e ≠ n) →
  ∃ added,
    PropagateAnchorsFilter.glyphSet ctx' !! key
    = Some (mkGlyph (name g) (components g) (anchors g ++ added))
    ∧ anchor_at n (placed c a) ∈ added.
Proof.
  intros Hg Hnin Hrun view Hcontr Hown Hprefix Hmarks.
  assert (components g ≠ []) as Hne.
  { intros Hnil. rewrite Hnil in Hcontr. done. }
  destruct (propagate_filter_view _ _ _ _ _ _ _ Hg Hnin Hne Hrun)
    as (to_add & _ & Hstage & Hk).
  pose proof (stage_single_base _ _ _ _ _ _ _ _ Hcontr Hown Hprefix Hmarks Hstage) as Hn.
  exists (staged_anchors to_add). split; [done|].
  apply elem_of_staged_anchors. unfold anchor_at. cbn [a_name a_x a_y].
  rewrite Hn. by destruct (placed c a).
Qed.

End single_base.

(** * The two filters, one after the other *)

Lemma flatten_extends gs gs' f c :
  extends gs gs' → _flattenComponent f gs' c = _flattenComponent f gs c.
Proof.
  intros Hext. revert c. induction f as [|f IH]; intros c;
    rewrite !_flattenComponent_unfold; specialize (Hext (baseGlyph c));
    destruct Hext as [g g' (_ & Hcs & _)|]; try done; rewrite Hcs;
    destruct (components g) as [|n l] eqn:Hc; try done.
  by apply flatten_nested_ext.
Qed.

Lemma leaf_reach gs b k : is_leaf gs b → rtc (refs gs) b k → k = b.
Proof.
  intros (l & Hl & Hnil) Hrtc.
  destruct (rtc_inv _ _ Hrtc) as [->|(m & (g2 & c & Hg2 & Hc & _) & _)]; [done|].
  rewrite Hl in Hg2. injection Hg2 as <-. rewrite Hnil in Hc. by apply elem_of_nil in Hc.
Qed.

(** X17: once a glyph is flattened, propagating anchors to it appends to
    that glyph only: every other glyph is, after [filter] of the
    propagator, as [filter] of the flattener left it. *)
Theorem propagate_after_flatten_is_local set_order fuel fuel' fctx key fctx' b p pctx' b' :
  filter fuel fctx key = Ok (fctx', b) →
  PropagateAnchorsFilter.filter set_order fuel'
    (PropagateAnchorsFilter.mkContext (glyphSet fctx') p) key = Ok (pctx', b') →
  ∀ k, k ≠ key → PropagateAnchorsFilter.glyphSet pctx' !! k = glyphSet fctx' !! k.
Proof.
  intros Hflat Hprop k Hk.
  destruct (glyphSet fctx !! key) as [g|] eqn:Hg.
  2:{ unfold filter in Hflat. by rewrite Hg in Hflat. }
  destruct (filter_Ok _ _ _ _ _ _ Hg Hflat) as (rs & Hrs & Hgs & _).
  set (g' := mkGlyph (name g) (as_components (concat rs)) (anchors g)) in *.
  assert (glyphSet fctx' !! key = Some g') as Hg' by (rewrite Hgs; apply lookup_insert_eq).
  assert (∀ c, c ∈ components g' → is_leaf (glyphSet fctx') (baseGlyph c)) as Hleaves.
  { intros c' Hc'. simpl in Hc'. apply list_elem_of_fmap in Hc' as (t & -> & Ht). simpl.
    apply elem_of_concat in Ht as (r & Ht & Hr).
    apply list_elem_of_lookup in Hr as [i Hi].
    destruct (Forall2_lookup_r _ _ _ _ _ Hrs Hi) as (c & Hci & Hc).
    apply _flattenComponent_leaves in Hc as [_ Hl].
    rewrite Forall_forall in Hl. destruct (Hl t Ht) as (l & Hlk & Hnil).
    exists l. split; [|done]. rewrite Hgs, lookup_insert_ne; [done|].
    intros Heq. rewrite <- Heq, Hg in Hlk. injection Hlk as <-.
    apply list_elem_of_lookup_2 in Hci. rewrite Hnil in Hci. by apply elem_of_nil in Hci. }
  destruct (propagate_filter_Ok set_order fuel'
              (PropagateAnchorsFilter.mkContext (glyphSet fctx') p) key pctx' b' g' Hg' Hprop)
    as [(_ & -> & _)|(_ & _ & Hcall)]; [done|]. simpl in Hcall.
  destruct (proj1 (propagates_reach_both set_order) _ _ _ _ _ Hcall k) as [Hr|Heq];
    [|done].
  destruct (rtc_inv _ _ Hr) as [->|(m & (g2 & c & Hg2 & Hc & <-) & Hrest)]; [done|].
  rewrite Hg' in Hg2. injection Hg2 as <-.
  pose proof (Hleaves c Hc) as Hleaf.
  apply (leaf_reach _ _ _ Hleaf) in Hrest as ->.
  destruct Hleaf as (l & Hl & Hnil). rewrite Hl.
  by eapply (proj1 (propagates_leaves_both set_order)).
Qed.

(** [filter] of the flattener, run forward on a glyph set that differs
    from the one of a run that returned by appended anchors only. *)
Lemma filter_extends fuel ctx key ctx1 b gs' :
  filter fuel ctx key = Ok (ctx1, b) → extends (glyphSet ctx) gs' →
  ∃ ctx1', filter fuel (mkContext gs' (modified ctx)) key = Ok (ctx1', b)
           ∧ modified ctx1' = modified ctx1
           ∧ ∀ k, (components <$> glyphSet ctx1' !! k) = (components <$> glyphSet ctx1 !! k).
Proof.
  intros Hrun Hext.
  destruct (glyphSet ctx !! key) as [g|] eqn:Hg.
  2:{ unfold filter in Hrun. by rewrite Hg in Hrun. }
  destruct (extends_lookup _ _ _ _ Hext Hg) as (g' & Hg' & Hn & Hcs & Ha).
  destruct (filter_Ok _ _ _ _ _ _ Hg Hrun) as (rs & Hrs & Hgs & Hb & Hmod).
  assert (Forall2 (λ c r, r ≠ [] ∧ ∀ g2, _flattenComponent fuel (<[key:=g2]> gs') c = Ok r)
            (components g') rs) as Hrs'.
  { rewrite Hcs. apply Forall2_same_length_lookup. split; [by eapply Forall2_length|].
    intros i c r Hi Hri.
    pose proof (Forall2_lookup_lr _ _ _ _ _ _ Hrs Hi Hri) as Hr. simpl in Hr.
    split; [by apply _flattenComponent_leaves in Hr as [? _]|]. intros g2.
    assert (_flattenComponent fuel gs' c = Ok r) as Hr'
      by (by rewrite (flatten_extends _ _ _ _ Hext)).
    rewrite flatten_indep; [done|]. intros Hback.
    eapply (flatten_Ok_acyclic _ _ _ _ key Hr'); [done|].
    eapply tc_rtc_r; [|exact Hback]. apply tc_once. exists g', c.
    split_and!; [done| |done]. rewrite Hcs. by eapply list_elem_of_lookup_2. }
  pose proof (filter_run fuel (mkContext gs' (modified ctx)) key g' rs Hg' Hrs') as Hrun'.
  simpl in Hrun'. rewrite Hcs, <- Hb, Hn in Hrun'.
  eexists. split; [exact Hrun'|]. simpl. split_and!.
  - by rewrite Hmod.
  - intros k. rewrite Hgs. destruct (decide (k = key)) as [->|Hne].
    + by rewrite !lookup_insert_eq.
    + rewrite !lookup_insert_ne by done. specialize (Hext k).
      destruct Hext as [g1 g1' (_ & Hcs1 & _)|]; [|done]. simpl. by rewrite Hcs1.
Qed.

(** X18: the flattener does not read anchors.  Run on the glyph set that
    [filter] of the propagator returned, [filter] of the flattener returns
    when it returned on the glyph set before the propagation, with the
    same value, the same set of modified names and the same component
    list for every glyph. *)
Theorem flatten_after_propagate_same set_order fuel fuel' pctx key0 pctx' b0 m key fctx b :
  PropagateAnchorsFilter.filter set_order fuel' pctx key0 = Ok (pctx', b0) →
  filter fuel (mkContext (PropagateAnchorsFilter.glyphSet pctx) m) key = Ok (fctx, b) →
  ∃ fctx', filter fuel (mkContext (PropagateAnchorsFilter.glyphSet pctx') m) key
           = Ok (fctx', b)
           ∧ modified fctx' = modified fctx
           ∧ ∀ k, (components <$> glyphSet fctx' !! k) = (components <$> glyphSet fctx !! k).
Proof.
  intros Hprop Hflat.
  assert (extends (PropagateAnchorsFilter.glyphSet pctx)
                  (PropagateAnchorsFilter.glyphSet pctx')) as Hext.
  { destruct (PropagateAnchorsFilter.glyphSet pctx !! key0) as [g0|] eqn:Hg0.
    2:{ unfold PropagateAnchorsFilter.filter in Hprop. by rewrite Hg0 in Hprop. }
    destruct (propagate_filter_Ok _ _ _ _ _ _ _ Hg0 Hprop)
      as [(_ & -> & _)|(_ & _ & Hcall)]; [apply extends_refl|].
    by destruct (propagates_frame _ _ _ _ _ _ Hcall) as (? & _). }
  destruct (filter_extends _ _ _ _ _ _ Hflat Hext) as (fctx' & Hrun & Hmod & Hcs).
  by exists fctx'.
Qed.

(** * The further properties at work on the sample fonts *)

Lemma flatten_tuples_are_paths_witness :
  ("C", transform scale2 translate10) ∈ [("C", transform scale2 translate10)]
  ↔ flat_path chain_font (mkComponent "B" translate10) "C" (transform scale2 translate10).
Proof.
  apply (flatten_tuples_are_paths 1 chain_font (mkComponent "B" translate10)).
  vm_compute. reflexivity.
Defined.

Lemma flatten_leaves_only_leaf_components_witness :
  ∃ ctx',
    filter 2 chain_ctx "A" = Ok (ctx', true)
    ∧ ∃ g', glyphSet ctx' !! "A" = Some g'
            ∧ ∀ c, c ∈ components g' → is_leaf (glyphSet ctx') (baseGlyph c).
Proof.
  eexists. split; [vm_compute; reflexivity|].
  apply (flatten_leaves_only_leaf_components 2 chain_ctx "A" _ true).
  vm_compute. reflexivity.
Defined.

Lemma flatten_flag_tells_change_witness :
  ∃ ctx',
    filter 2 chain_ctx "A" = Ok (ctx', true)
    ∧ ∃ g', glyphSet ctx' !! "A" = Some g' ∧ components g' ≠ components chain_A.
Proof.
  eexists. split; [vm_compute; reflexivity|].
  apply (flatten_flag_tells_change 2 chain_ctx "A" chain_A _ true).
  - reflexivity.
  - vm_compute. reflexivity.
  - reflexivity.
Defined.

Lemma flatten_raises_only_missing_glyph_witness :
  ∃ n, KeyError "missing" = KeyError n ∧ dangling_font !! n = None
       ∧ rtc (refs dangling_font) "A" n.
Proof.
  apply (flatten_raises_only_missing_glyph 1 (mkContext dangling_font ∅) "A").
  vm_compute. reflexivity.
Defined.

Lemma flatten_cycle_never_returns_witness :
  filter 9 (mkContext cyclic_font ∅) "A" ≠ Ok (mkContext cyclic_font ∅, true).
Proof.
  apply (flatten_cycle_never_returns 9 (mkContext cyclic_font ∅) "A" "B").
  - apply rtc_once. exists (mkGlyph "A" [mkComponent "B" Identity] []), (mkComponent "B" Identity).
    split_and!; [reflexivity | apply list_elem_of_here | reflexivity].
  - eapply tc_l; [|apply tc_once].
    + exists (mkGlyph "B" [mkComponent "A" (moved 5 0)] [mkAnchor "top" 1 2]),
             (mkComponent "A" (moved 5 0)).
      split_and!; [reflexivity | apply list_elem_of_here | reflexivity].
    + exists (mkGlyph "A" [mkComponent "B" Identity] []), (mkComponent "B" Identity).
      split_and!; [reflexivity | apply list_elem_of_here | reflexivity].
Defined.

Lemma flatten_calls_commute_witness :
  ∃ ctxA ctxB,
    filter 2 chain_ctx "A" = Ok (ctxA, true)
    ∧ filter 2 chain_ctx "B" = Ok (ctxB, false)
    ∧ ∃ ctx2, filter 2 ctxB "A" = Ok (ctx2, true) ∧ filter 2 ctxA "B" = Ok (ctx2, false).
Proof.
  eexists _, _. split; [vm_compute; reflexivity|]. split; [vm_compute; reflexivity|].
  apply (flatten_calls_commute 2 chain_ctx "A" "B").
  - discriminate.
  - vm_compute. reflexivity.
  - vm_compute. reflexivity.
Defined.

Lemma propagate_ends_on_any_graph_witness :
  (∃ ctx' b, PropagateAnchorsFilter.filter elements 2 (pctx cyclic_font ∅) "A" = Ok (ctx', b))
  ∨ (∃ n, PropagateAnchorsFilter.filter elements 2 (pctx cyclic_font ∅) "A"
          = Raise (KeyError n)
          ∧ cyclic_font !! n = None ∧ rtc (refs cyclic_font) "A" n).
Proof.
  apply (propagate_ends_on_any_graph elements 2 (pctx cyclic_font ∅) "A").
  vm_compute. lia.
Defined.

Lemma propagate_leaves_untouched_witness :
  ∃ ctx',
    PropagateAnchorsFilter.filter elements 1 (pctx mark_font ∅) "Y" = Ok (ctx', true)
    ∧ PropagateAnchorsFilter.glyphSet ctx' !! "X" = Some (leaf "X" [mkAnchor "top" 100 500]).
Proof.
  eexists. split; [vm_compute; reflexivity|].
  apply (propagate_leaves_untouched elements 1 (pctx mark_font ∅) "Y" _ true).
  - vm_compute. reflexivity.
  - reflexivity.
  - reflexivity.
Defined.

Lemma propagate_skips_processed_witness :
  ∃ ctx',
    PropagateAnchorsFilter.filter elements 2 (pctx chain_font {["B"]}) "A" = Ok (ctx', true)
    ∧ PropagateAnchorsFilter.processed (pctx chain_font {["B"]})
      ⊆ PropagateAnchorsFilter.processed ctx'
    ∧ ∀ k g, PropagateAnchorsFilter.glyphSet (pctx chain_font {["B"]}) !! k = Some g →
             name g ∈ PropagateAnchorsFilter.processed (pctx chain_font {["B"]}) →
             PropagateAnchorsFilter.glyphSet ctx' !! k = Some g.
Proof.
  eexists. split; [vm_compute; reflexivity|].
  apply (propagate_skips_processed elements 2 (pctx chain_font {["B"]}) "A" _ true).
  vm_compute. reflexivity.
Defined.

Lemma propagate_processes_reachable_witness :
  ∃ ctx',
    PropagateAnchorsFilter.filter elements 3 (pctx chain_font ∅) "A" = Ok (ctx', true)
    ∧ ∀ n, rtc (refs_unprocessed chain_font ∅) "A" n →
           n ∈ PropagateAnchorsFilter.processed ctx'.
Proof.
  eexists. split; [vm_compute; reflexivity|].
  apply (propagate_processes_reachable elements 3 (pctx chain_font ∅) "A").
  - apply check_store_wf_sound. vm_compute. reflexivity.
  - vm_compute. reflexivity.
Defined.

Lemma propagate_appends_in_name_order_witness :
  ∃ ctx',
    PropagateAnchorsFilter.filter elements 1 (pctx ligature_font ∅) "f_i" = Ok (ctx', true)
    ∧ ∃ added,
        PropagateAnchorsFilter.glyphSet ctx' !! "f_i"
        = Some (mkGlyph (name ligature_f_i) (components ligature_f_i)
                        (anchors ligature_f_i ++ added))
        ∧ StronglySorted anchor_le added.
Proof.
  eexists. split; [vm_compute; reflexivity|].
  apply (propagate_appends_in_name_order elements 1 (pctx ligature_font ∅) "f_i" _ _ true).
  - reflexivity.
  - vm_compute. reflexivity.
Defined.

Lemma propagate_appends_names_of_bases_witness :
  ∃ ctx',
    PropagateAnchorsFilter.filter elements 1 (pctx ligature_font ∅) "f_i" = Ok (ctx', true)
    ∧ ∃ added,
        PropagateAnchorsFilter.glyphSet ctx' !! "f_i"
        = Some (mkGlyph (name ligature_f_i) (components ligature_f_i)
                        (anchors ligature_f_i ++ added))
        ∧ ∀ a, a ∈ added →
            ∃ c X e, c ∈ components ligature_f_i
                     ∧ <["f_i" := ligature_f_i]> (PropagateAnchorsFilter.glyphSet ctx')
                       !! baseGlyph c = Some X
                     ∧ is_mark_glyph X = false ∧ e ∈ anchors X
                     ∧ guarded ligature_f_i (a_name e) = false
                     ∧ (a_name a = a_name e ∨ ∃ i, a_name a = ligature_name (a_name e) i).
Proof.
  eexists. split; [vm_compute; reflexivity|].
  apply (propagate_appends_names_of_bases elements 1 (pctx ligature_font ∅) "f_i" _ _ true).
  - reflexivity.
  - vm_compute. reflexivity.
Defined.

Lemma propagate_appends_placed_anchors_witness :
  ∃ ctx',
    PropagateAnchorsFilter.filter elements 1 (pctx mark_font ∅) "Y" = Ok (ctx', true)
    ∧ ∃ added,
        PropagateAnchorsFilter.glyphSet ctx' !! "Y"
        = Some (mkGlyph (name mark_Y) (components mark_Y) (anchors mark_Y ++ added))
        ∧ ∀ a, a ∈ added →
            ∃ c X e, c ∈ components mark_Y
                     ∧ <["Y" := mark_Y]> (PropagateAnchorsFilter.glyphSet ctx')
                       !! baseGlyph c = Some X
                     ∧ e ∈ anchors X ∧ (a_x a, a_y a) = placed c e
                     ∧ (a_name a = a_name e ∨ ∃ i, a_name a = ligature_name (a_name e) i).
Proof.
  eexists. split; [vm_compute; reflexivity|].
  apply (propagate_appends_placed_anchors elements 1 (pctx mark_font ∅) "Y" _ _ true).
  - reflexivity.
  - vm_compute. reflexivity.
Defined.

Lemma get_anchor_data_numbers_components_witness :
  ∃ acc',
    _get_anchor_data ∅ ligature_font ligature_components "top" = Ok acc'
    ∧ acc' !! ligature_name "top" 1 = Some (250, 500).
Proof.
  eexists. split; [vm_compute; reflexivity|].
  pose proof (get_anchor_data_numbers_components ∅ ligature_font ligature_components "top" _
                ltac:(vm_compute; reflexivity)) as Hspec.
  change (contributors ligature_font ligature_components "top")
    with [(mkAnchor "top" 100 500, mkComponent "f" Identity);
          (mkAnchor "top" 50 500, mkComponent "i" (moved 200 0))] in Hspec.
  destruct Hspec as [Hnum _].
  exact (Hnum 1%nat (mkAnchor "top" 50 500) (mkComponent "i" (moved 200 0)) eq_refl).
Defined.

Lemma adjust_anchors_moves_attached_witness :
  ∃ acc',
    _adjust_anchors {["top" := (100, 500)]} mark_font (mkComponent "M" (moved 100 100))
    = Ok acc'
    ∧ ∃ M, mark_font !! "M" = Some M
      ∧ ∀ k,
          (is_Some (acc' !! k) ↔ is_Some (({["top" := (100, 500)]} : gmap string (Z * Z)) !! k))
          ∧ ((∀ a, a ∈ anchors M → a_name a ≠ k)
             ∨ (∀ a, a ∈ anchors M → a_name a ≠ "_" +:+ k) →
             acc' !! k = ({["top" := (100, 500)]} : gmap string (Z * Z)) !! k)
          ∧ (is_Some (({["top" := (100, 500)]} : gmap string (Z * Z)) !! k) →
             (∃ a, a ∈ anchors M ∧ a_name a = "_" +:+ k) →
             ∀ l1 a l2, anchors M = l1 ++ a :: l2 → a_name a = k →
                        (∀ a', a' ∈ l2 → a_name a' ≠ k) →
                        acc' !! k = Some (placed (mkComponent "M" (moved 100 100)) a)).
Proof.
  eexists. split; [vm_compute; reflexivity|].
  apply (adjust_anchors_moves_attached {["top" := (100, 500)]} mark_font
           (mkComponent "M" (moved 100 100))).
  vm_compute. reflexivity.
Defined.

Lemma propagate_single_base_anchor_witness :
  ∃ ctx',
    PropagateAnchorsFilter.filter elements 1 (pctx mark_font_top2 ∅) "Y" = Ok (ctx', true)
    ∧ ∃ added,
        PropagateAnchorsFilter.glyphSet ctx' !! "Y"
        = Some (mkGlyph (name mark_Y) (components mark_Y) (anchors mark_Y ++ added))
        ∧ anchor_at "top" (placed (mkComponent "X" Identity) (mkAnchor "top" 100 500))
          ∈ added.
Proof.
  eexists. split; [vm_compute; reflexivity|].
  apply (propagate_single_base_anchor elements ltac:(intros s; reflexivity) 1
           (pctx mark_font_top2 ∅) "Y" mark_Y _ true "top").
  - reflexivity.
  - apply not_elem_of_empty.
  - vm_compute. reflexivity.
  - vm_compute. reflexivity.
  - intros e He. by apply elem_of_nil in He.
  - intros c' X e Hc' HX He Hne.
    change (c' ∈ [mkComponent "X" Identity]) in Hc'.
    apply list_elem_of_singleton in Hc' as ->.
    change (Some (leaf "X" [mkAnchor "top" 100 500]) = Some X) in HX.
    injection HX as <-. apply list_elem_of_singleton in He as ->. done.
  - intros c' X e Hc' HX He.
    change (c' ∈ [mkComponent "M" (moved 100 100)]) in Hc'.
    apply list_elem_of_singleton in Hc' as ->.
    change (Some (leaf "M" [mkAnchor "_top" 0 400; mkAnchor "top2" 0 600]) = Some X) in HX.
    injection HX as <-. simpl in He.
    apply elem_of_cons in He as [->|He]; [discriminate|].
    apply list_elem_of_singleton in He as ->. discriminate.
Defined.

Lemma propagate_after_flatten_is_local_witness :
  ∃ fctx' pctx',
    filter 2 chain_ctx "A" = Ok (fctx', true)
    ∧ PropagateAnchorsFilter.filter elements 1 (pctx (glyphSet fctx') ∅) "A" = Ok (pctx', true)
    ∧ ∀ k, k ≠ "A" → PropagateAnchorsFilter.glyphSet pctx' !! k = glyphSet fctx' !! k.
Proof.
  eexists _, _. split; [vm_compute; reflexivity|]. split; [vm_compute; reflexivity|].
  apply (propagate_after_flatten_is_local elements 2 1 chain_ctx "A" _ true ∅ _ true).
  - vm_compute. reflexivity.
  - vm_compute. reflexivity.
Defined.

Lemma flatten_after_propagate_same_witness :
  ∃ pctx' fctx,
    PropagateAnchorsFilter.filter elements 1 (pctx mark_font ∅) "Y" = Ok (pctx', true)
    ∧ filter 1 (mkContext mark_font ∅) "Y" = Ok (fctx, false)
    ∧ ∃ fctx', filter 1 (mkContext (PropagateAnchorsFilter.glyphSet pctx') ∅) "Y"
               = Ok (fctx', false)
               ∧ modified fctx' = modified fctx
               ∧ ∀ k, (components <$> glyphSet fctx' !! k)
                      = (components <$> glyphSet fctx !! k).
Proof.
  eexists _, _. split; [vm_compute; reflexivity|]. split; [vm_compute; reflexivity|].
  apply (flatten_after_propagate_same elements 1 1 (pctx mark_font ∅) "Y" _ true ∅ "Y").
  - vm_compute. reflexivity.
  - vm_compute. reflexivity.
Defined.
